(** * Crossword CSP solver (generate.py): model and verified properties

    The development embeds [CrosswordCreator] of [generate.py]: node
    consistency, arc revision, AC-3, the consistency and completeness checks,
    the two ordering heuristics and the recursive backtracking search.

    Conventions of the embedding.
    - A Python [set] is a duplicate-free [list], read in its iteration order;
      every theorem quantifies over the list, hence over every iteration
      order.  A copy of a set may iterate in another order than the set:
      [init_domains] is the store of [__init__] with every copy in the order
      of the vocabulary, [init_store] is any store [__init__] may build.
    - A Python [dict] is an insertion-ordered association list ([Dict.t]);
      [d[k]] on a missing key raises [KeyError].
    - [w[n]] on a string raises [IndexError] outside the word.
    - Exceptions are values of [result]; loops that the source bounds only by
      its own progress ([while arcs], the recursion of [backtrack]) take a
      fuel argument, and [OutOfFuel] is the outcome of a run that needs more. *)

From Stdlib Require Import List String Ascii Arith Bool Lia PeanoNat ListSet.
From Stdlib Require Import Sorted Permutation.
Import ListNotations.
Local Open Scope string_scope.
Local Open Scope list_scope.

(** ** Outcomes of a call *)

Inductive exn : Type := KeyError | IndexError | TypeError.

Inductive result (A : Type) : Type :=
| Ok (a : A)
| Raise (e : exn)
| OutOfFuel.

Arguments Ok {A} a.
Arguments Raise {A} e.
Arguments OutOfFuel {A}.

Definition bind {A B : Type} (m : result A) (k : A -> result B) : result B :=
  match m with
  | Ok a => k a
  | Raise e => Raise e
  | OutOfFuel => OutOfFuel
  end.

Declare Scope result_scope.
Delimit Scope result_scope with result.
Notation "x <- m ;; k" := (bind m (fun x => k))
  (at level 100, m at next level, right associativity) : result_scope.
Notation "' p <- m ;; k" := (bind m (fun x => let p := x in k))
  (at level 100, p pattern, m at next level, right associativity) : result_scope.
Local Open Scope result_scope.

(** [for b in l: a = f(a, b)] where the body may raise. *)
Fixpoint foldM {A B : Type} (f : A -> B -> result A) (l : list B) (a : A)
  : result A :=
  match l with
  | [] => Ok a
  | b :: l' => a' <- f a b ;; foldM f l' a'
  end.

(** [[f(b) for b in l]] where [f] may raise. *)
Fixpoint mapM {A B : Type} (f : A -> result B) (l : list A) : result (list B) :=
  match l with
  | [] => Ok []
  | a :: l' => b <- f a ;; bs <- mapM f l' ;; Ok (b :: bs)
  end.

(** ** Slots *)

Inductive Direction : Type := ACROSS | DOWN.

(** Modelled from the spec: the class [Variable] of [crossword.py] is not
    among the sources; a slot has starting cell coordinates, one of two
    directions and a length, and two slots are equal iff all attributes
    match. *)
Record Var : Type := mkVar {
  var_i : nat;
  var_j : nat;
  var_direction : Direction;
  var_length : nat
}.

Definition Direction_eq_dec (a b : Direction) : {a = b} + {a <> b}.
Proof. decide equality. Defined.

Definition Var_eq_dec (x y : Var) : {x = y} + {x <> y}.
Proof. decide equality; try apply Nat.eq_dec; apply Direction_eq_dec. Defined.

(** ** Dictionaries keyed by slots *)

Module Dict.
Section Ops.
Context {V : Type}.

Definition t : Type := list (Var * V).

(** [d.get(k)] *)
Fixpoint get (d : t) (k : Var) : option V :=
  match d with
  | [] => None
  | (k', v) :: d' => if Var_eq_dec k k' then Some v else get d' k
  end.

(** [d[k] = v]: an existing key keeps its place, a new one goes last. *)
Fixpoint set (d : t) (k : Var) (v : V) : t :=
  match d with
  | [] => [(k, v)]
  | (k', v') :: d' =>
      if Var_eq_dec k k' then (k', v) :: d' else (k', v') :: set d' k v
  end.

Definition keys (d : t) : list Var := map fst d.
Definition values (d : t) : list V := map snd d.
End Ops.
Arguments t : clear implicits.
End Dict.

(** [d[k]] *)
Definition lookup {V : Type} (d : Dict.t V) (k : Var) : result V :=
  match Dict.get d k with
  | Some v => Ok v
  | None => Raise KeyError
  end.

(** [w[n]] for a non-negative [n] *)
Definition index (w : string) (n : nat) : result ascii :=
  match String.get n w with
  | Some c => Ok c
  | None => Raise IndexError
  end.

(** ** The constraint graph *)

(** Modelled from the spec: the class [Crossword] of [crossword.py] is not
    among the sources.  The graph is a finite set of slots, an overlap
    function from a pair of slots to "no constraint" or a pair of character
    indices, a neighbor function from a slot to the set of slots it shares an
    overlap with, and a vocabulary.  The overlap function is consulted at
    pairs of distinct slots of the graph only. *)
Record Crossword : Type := mkCrossword {
  variables : list Var;
  words : list string;
  overlaps : Var -> Var -> option (nat * nat);
  neighbors : Var -> list Var
}.

(** Modelled from the spec: what the spec assumes of a constraint graph built
    upstream.  Slots have positive length; a slot's neighbors are exactly the
    slots of the graph it has an overlap descriptor with; a descriptor is
    shared by the unordered pair; its indices are valid offsets. *)
Record well_formed (cw : Crossword) : Prop := mkWF {
  wf_nodup : NoDup (variables cw);
  wf_length : forall x, In x (variables cw) -> 1 <= var_length x;
  wf_irrefl : forall x, In x (variables cw) -> overlaps cw x x = None;
  wf_neighbors : forall x y, In x (variables cw) ->
    (In y (neighbors cw x) <->
     In y (variables cw) /\ overlaps cw x y <> None);
  wf_neighbors_nodup : forall x, In x (variables cw) -> NoDup (neighbors cw x);
  wf_sym : forall x y i j, In x (variables cw) -> In y (variables cw) ->
    overlaps cw x y = Some (i, j) -> overlaps cw y x = Some (j, i);
  wf_index : forall x y i j, In x (variables cw) -> In y (variables cw) ->
    overlaps cw x y = Some (i, j) -> i < var_length x /\ j < var_length y
}.

Definition domains : Type := Dict.t (list string).
Definition assignment : Type := Dict.t string.

(** [__init__]: one domain per slot, each a copy of the vocabulary, here
    with its words in the order of the vocabulary (see [init_store] for the
    other orders a copy may have). *)
Definition init_domains (cw : Crossword) : domains :=
  fold_left (fun d var => Dict.set d var (words cw)) (variables cw) [].

Section Creator.
Variable cw : Crossword.

(** ** Node consistency *)

(** Body of the inner loop of [enforce_node_consistency]. *)
Definition prune_word (var : Var) (d : domains) (word : string)
  : result domains :=
  if Nat.eqb (String.length word) (var_length var) then Ok d
  else ws <- lookup d var ;; Ok (Dict.set d var (remove string_dec word ws)).

Definition prune_var (d : domains) (var : Var) : result domains :=
  ws <- lookup d var ;; foldM (prune_word var) ws d.

Definition enforce_node_consistency (d : domains) : result domains :=
  foldM prune_var (variables cw) d.

(** ** Arc revision *)

(** [all(y_word[j] != charx for y_word in ys)], left to right, stopping at
    the first word that has [charx] at [j]. *)
Fixpoint all_differ (j : nat) (charx : ascii) (ys : list string) : result bool :=
  match ys with
  | [] => Ok true
  | y_word :: ys' =>
      c <- index y_word j ;;
      if Ascii.eqb c charx then Ok false else all_differ j charx ys'
  end.

(** Body of the loop of [revise]; the state is the domain store and the
    [revision] flag. *)
Definition revise_word (x y : Var) (i j : nat) (st : domains * bool)
  (word : string) : result (domains * bool) :=
  charx <- index word i ;;
  ys <- lookup (fst st) y ;;
  unsupported <- all_differ j charx ys ;;
  if unsupported then
    xs <- lookup (fst st) x ;;
    Ok (Dict.set (fst st) x (remove string_dec word xs), true)
  else Ok st.

Definition revise (d : domains) (x y : Var) : result (domains * bool) :=
  match overlaps cw x y with
  | Some (i, j) =>
      xs <- lookup d x ;;
      foldM (revise_word x y i j) xs (d, false)
  | None => Ok (d, false)
  end.

(** ** AC-3 *)

(** The initial queue when [arcs] is [None]. *)
Definition all_arcs : list (Var * Var) :=
  flat_map (fun var => map (fun neighbor => (var, neighbor)) (neighbors cw var))
           (variables cw).

(** The [while arcs] loop; the deque is a list, popped at its head and
    appended at its end. *)
Fixpoint ac3_loop (fuel : nat) (d : domains) (arcs : list (Var * Var))
  : result (domains * bool) :=
  match arcs with
  | [] => Ok (d, true)
  | (x, y) :: rest =>
      match fuel with
      | 0 => OutOfFuel
      | S fuel' =>
          '(d', revised) <- revise d x y ;;
          if revised then
            xs <- lookup d' x ;;
            match xs with
            | [] => Ok (d', false)
            | _ :: _ =>
                (* neighbors.remove(y) raises KeyError when y is absent *)
                if in_dec Var_eq_dec y (neighbors cw x) then
                  ac3_loop fuel' d'
                    (rest ++ map (fun z => (z, x))
                                 (remove Var_eq_dec y (neighbors cw x)))
                else Raise KeyError
            end
          else ac3_loop fuel' d' rest
      end
  end.

(** Number of words in the whole store, and the largest neighbor count of a
    slot that has a domain. *)
Definition store_size (d : domains) : nat :=
  list_sum (map (fun kv => List.length (snd kv)) d).

Definition max_degree (d : domains) : nat :=
  list_max (map (fun k => List.length (neighbors cw k)) (Dict.keys d)).

(** Iterations that the loop cannot exceed (see [ac3_loop_terminates]). *)
Definition ac3_fuel (d : domains) (arcs : list (Var * Var)) : nat :=
  List.length arcs + store_size d * max_degree d.

Definition ac3 (d : domains) (arcs : option (list (Var * Var)))
  : result (domains * bool) :=
  let queue := match arcs with None => all_arcs | Some l => l end in
  ac3_loop (ac3_fuel d queue) d queue.

(** ** Completeness and consistency of an assignment *)

(** Truth value of [assignment.get(variable, False)]. *)
Definition truthy (o : option string) : bool :=
  match o with
  | Some (String _ _) => true
  | Some EmptyString => false
  | None => false
  end.

Definition assignment_complete (a : assignment) : bool :=
  forallb (fun variable => truthy (Dict.get a variable)) (variables cw).

(** The loop over the neighbors of [key] in [consistent]: [Ok false] is the
    early [return False], [Ok true] the end of the loop. *)
Fixpoint check_neighbors (a : assignment) (key : Var) (value : string)
  (ns : list Var) : result bool :=
  match ns with
  | [] => Ok true
  | neighbor :: ns' =>
      match overlaps cw key neighbor with
      | Some (i, j) =>
          if truthy (Dict.get a neighbor) then
            match Dict.get a neighbor with
            | Some neig_value =>
                c1 <- index value i ;;
                c2 <- index neig_value j ;;
                if Ascii.eqb c1 c2 then check_neighbors a key value ns'
                else Ok false
            | None => check_neighbors a key value ns'
            end
          else check_neighbors a key value ns'
      | None => check_neighbors a key value ns'
      end
  end.

(** The loop over [assignment.items()] with the set [items] of the values
    seen, followed by the comparison of the two sizes. *)
Fixpoint consistent_loop (a : assignment) (todo : list (Var * string))
  (items : set string) : result bool :=
  match todo with
  | [] => Ok (Nat.eqb (List.length items) (List.length (Dict.values a)))
  | (key, value) :: todo' =>
      let items' := set_add string_dec value items in
      if Nat.eqb (String.length value) (var_length key) then
        ok <- check_neighbors a key value (neighbors cw key) ;;
        if ok then consistent_loop a todo' items' else Ok false
      else Ok false
  end.

Definition consistent (a : assignment) : result bool :=
  consistent_loop a a [].

(** ** Ordering heuristics *)

(** [sorted(l, key=...)] on the list of (key, element) pairs: a stable
    insertion sort, elements with equal keys keep their order. *)
Section Sorted.
Context {K A : Type} (leb : K -> K -> bool).

Fixpoint insert_sorted (x : K * A) (l : list (K * A)) : list (K * A) :=
  match l with
  | [] => [x]
  | y :: l' =>
      if leb (fst x) (fst y) then x :: l else y :: insert_sorted x l'
  end.

Fixpoint sorted (l : list (K * A)) : list (K * A) :=
  match l with
  | [] => []
  | x :: l' => insert_sorted x (sorted l')
  end.
End Sorted.

(** Line of the inner loop of [least_constraning]. *)
Definition count_conflict (value : string) (i j : nat) (n : nat)
  (word : string) : result nat :=
  c1 <- index value i ;;
  c2 <- index word j ;;
  Ok (if Ascii.eqb c1 c2 then n else S n).

Definition least_constraning (d : domains) (var : Var) (value : string)
  : result nat :=
  foldM (fun n z =>
           match overlaps cw var z with
           | Some (i, j) =>
               ws <- lookup d z ;; foldM (count_conflict value i j) ws n
           | None => Raise TypeError  (* i, j = None *)
           end)
        (neighbors cw var) 0.

Definition order_domain_values (d : domains) (var : Var) (a : assignment)
  : result (list string) :=
  domain <- lookup d var ;;
  ks <- mapM (least_constraning d var) domain ;;
  Ok (map snd (sorted Nat.leb (combine ks domain))).

(** Order of the Python lists [[a, b]] of two integers. *)
Definition key_leb (k1 k2 : nat * nat) : bool :=
  Nat.ltb (fst k1) (fst k2)
  || (Nat.eqb (fst k1) (fst k2) && Nat.leb (snd k1) (snd k2)).

Definition select_key (d : domains) (x : Var) : result (nat * nat) :=
  ws <- lookup d x ;; Ok (List.length ws, List.length (neighbors cw x)).

(** [Ok None] is the implicit [return None] after the loop. *)
Definition select_unassigned_variable (d : domains) (a : assignment)
  : result (option Var) :=
  ks <- mapM (select_key d) (variables cw) ;;
  Ok (find (fun var => negb (truthy (Dict.get a var)))
           (map snd (sorted key_leb (combine ks (variables cw))))).

(** ** Backtracking search *)

(** What a call of [backtrack] leaves: the returned dictionary, or [None]
    together with the caller's dictionary as the call has mutated it (one
    dictionary object is shared by the whole recursion). *)
Inductive search : Type :=
| Solution (a : assignment)
| Failure (a : assignment).

Definition returned (r : search) : option assignment :=
  match r with
  | Solution a => Some a
  | Failure _ => None
  end.

(** Truth value of a dictionary in [if result:]. *)
Definition nonempty (a : assignment) : bool :=
  match a with
  | [] => false
  | _ :: _ => true
  end.

(** The [for value in ...] loop of [backtrack]; [rec] is the recursive call. *)
Fixpoint try_values (rec : assignment -> result search) (var : Var)
  (vals : list string) (a : assignment) : result search :=
  match vals with
  | [] => Ok (Failure a)
  | value :: rest =>
      let temp := Dict.set a var value in
      ok <- consistent temp ;;
      if ok then
        r <- rec (Dict.set a var value) ;;
        match r with
        | Solution s =>
            if nonempty s then Ok (Solution s)
            else try_values rec var rest (Dict.set s var "")
        | Failure a' => try_values rec var rest (Dict.set a' var "")
        end
      else try_values rec var rest a
  end.

Fixpoint backtrack (d : domains) (fuel : nat) (a : assignment)
  : result search :=
  match fuel with
  | 0 => OutOfFuel
  | S fuel' =>
      if assignment_complete a then Ok (Solution a)
      else
        selected <- select_unassigned_variable d a ;;
        match selected with
        | Some var =>
            vals <- order_domain_values d var a ;;
            try_values (backtrack d fuel') var vals a
        | None => Raise KeyError  (* self.domains[None] *)
        end
  end.

(** ** The top-level operation *)

(** The calls [solve] makes, in order, with what each returned. *)
Inductive call : Type :=
| CallEnforceNodeConsistency
| CallAc3 (ret : bool)
| CallBacktrack (ret : option assignment).

(** Each nested call assigns one more slot, so the recursion of a run that
    ends is at most one deeper than the number of slots. *)
Definition solve_trace (d : domains) : result (list call * option assignment) :=
  d1 <- enforce_node_consistency d ;;
  '(d2, ok) <- ac3 d1 None ;;
  r <- backtrack d2 (S (List.length (variables cw))) [] ;;
  Ok ([CallEnforceNodeConsistency; CallAc3 ok; CallBacktrack (returned r)],
      returned r).

Definition solve (d : domains) : result (option assignment) :=
  d1 <- enforce_node_consistency d ;;
  '(d2, _) <- ac3 d1 None ;;
  r <- backtrack d2 (S (List.length (variables cw))) [] ;;
  Ok (returned r).

End Creator.

(** * Vocabulary of the properties *)

(** [w[i] == u[j]], both indices inside their word. *)
Definition char_agree (i j : nat) (w u : string) : Prop :=
  exists c, String.get i w = Some c /\ String.get j u = Some c.

Definition has_char (u : string) (j : nat) (c : ascii) : bool :=
  match String.get j u with
  | Some c' => Ascii.eqb c' c
  | None => false
  end.

(** Some word of [ys] has at [j] the character [w] has at [i]. *)
Definition supportedb (i j : nat) (ys : list string) (w : string) : bool :=
  match String.get i w with
  | Some c => existsb (fun u => has_char u j c) ys
  | None => false
  end.

Definition memb (w : string) (l : list string) : bool :=
  if in_dec string_dec w l then true else false.

(** The words of the domain of a slot; none for a slot without domain. *)
Definition domain_of (d : domains) (x : Var) : list string :=
  match Dict.get d x with
  | Some ws => ws
  | None => []
  end.

(** Every word of the domain of every slot is as long as the slot. *)
Definition node_consistent (cw : Crossword) (d : domains) : Prop :=
  forall x ws w, In x (variables cw) -> Dict.get d x = Some ws -> In w ws ->
    String.length w = var_length x.

(** Every slot of the graph has a domain. *)
Definition covers (cw : Crossword) (d : domains) : Prop :=
  forall x, In x (variables cw) -> Dict.get d x <> None.

(** [d'] has the keys of [d] and no word that [d] does not have. *)
Definition shrinks (d d' : domains) : Prop :=
  Dict.keys d' = Dict.keys d /\
  forall x ws', Dict.get d' x = Some ws' ->
    exists ws, Dict.get d x = Some ws /\ incl ws' ws.

(** Every word of the domain of [x] has, at the overlap of [x] and [y], a
    word of the domain of [y] with the same character. *)
Definition arc_supported (cw : Crossword) (d : domains) (x y : Var) : Prop :=
  forall i j xs ys,
    overlaps cw x y = Some (i, j) ->
    Dict.get d x = Some xs -> Dict.get d y = Some ys ->
    forall w, In w xs -> exists u, In u ys /\ char_agree i j w u.

Definition arc_consistent (cw : Crossword) (d : domains) : Prop :=
  forall x y, In x (variables cw) -> In y (neighbors cw x) ->
    arc_supported cw d x y.

(** What the loop of [ac3] maintains: the queue holds arcs of the graph, and
    an arc of the graph outside the queue is supported. *)
Record ac3_invariant (cw : Crossword) (d : domains) (arcs : list (Var * Var))
  : Prop := mkAc3Inv {
  inv_covers : covers cw d;
  inv_node : node_consistent cw d;
  inv_arcs : forall x y, In (x, y) arcs ->
    In x (variables cw) /\ In y (neighbors cw x);
  inv_pending : forall x y, In x (variables cw) -> In y (neighbors cw x) ->
    In (x, y) arcs \/ arc_supported cw d x y
}.

(** The list is in nondecreasing order of its keys. *)
Definition ordered {K A : Type} (leb : K -> K -> bool) (l : list (K * A))
  : Prop :=
  Sorted.StronglySorted (fun p q => leb (fst p) (fst q) = true) l.

(** A slot without a word in the assignment: no entry, or the empty string. *)
Definition unassigned (a : assignment) (v : Var) : Prop :=
  Dict.get a v = None \/ Dict.get a v = Some "".

(** Number of words in the domain of a slot. *)
Definition domain_size (d : domains) (x : Var) : nat :=
  match Dict.get d x with
  | Some ws => List.length ws
  | None => 0
  end.

Definition degree (cw : Crossword) (x : Var) : nat :=
  List.length (neighbors cw x).

(** The word a slot has in an assignment, the empty string counting as no
    word. *)
Definition assigned_word (a : assignment) (v : Var) : option string :=
  match Dict.get a v with
  | Some (String c w) => Some (String c w)
  | Some EmptyString => None
  | None => None
  end.

(** Two assignments give every slot the same word, or both none. *)
Definition same_words (a' a : assignment) : Prop :=
  forall v, assigned_word a' v = assigned_word a v.

(** The set [items] after adding the words of [l] one by one. *)
Definition add_all (l : list string) (items : set string) : set string :=
  fold_left (fun s v => set_add string_dec v s) l items.

(** Slots of the graph without a word in the assignment. *)
Definition count_unassigned (cw : Crossword) (a : assignment) : nat :=
  List.length (filter (fun v => negb (truthy (Dict.get a v))) (variables cw)).

(** A solution of the puzzle: every slot has a word of the vocabulary of the
    length of the slot, crossing slots agree on the shared letter, and no
    word is used twice. *)
Definition satisfying (cw : Crossword) (a : assignment) : Prop :=
  (forall x, In x (variables cw) ->
     exists w, Dict.get a x = Some w /\ In w (words cw) /\
               String.length w = var_length x) /\
  (forall x y i j wx wy,
     In x (variables cw) -> In y (variables cw) ->
     overlaps cw x y = Some (i, j) ->
     Dict.get a x = Some wx -> Dict.get a y = Some wy ->
     char_agree i j wx wy) /\
  (forall x y w,
     In x (variables cw) -> In y (variables cw) ->
     Dict.get a x = Some w -> Dict.get a y = Some w -> x = y).

(** * A checker of well-formed graphs *)

Definition option_eqb (o1 o2 : option (nat * nat)) : bool :=
  match o1, o2 with
  | Some (a, b), Some (c, d) => Nat.eqb a c && Nat.eqb b d
  | None, None => true
  | _, _ => false
  end.

Definition is_some {A : Type} (o : option A) : bool :=
  match o with Some _ => true | None => false end.

Definition mem_var (x : Var) (l : list Var) : bool :=
  if in_dec Var_eq_dec x l then true else false.

Fixpoint nodupb (l : list Var) : bool :=
  match l with
  | [] => true
  | x :: l' => negb (mem_var x l') && nodupb l'
  end.

Definition well_formedb (cw : Crossword) : bool :=
  nodupb (variables cw)
  && forallb (fun x =>
       Nat.leb 1 (var_length x)
       && negb (is_some (overlaps cw x x))
       && nodupb (neighbors cw x)
       && forallb (fun y => mem_var y (variables cw)
                            && is_some (overlaps cw x y)) (neighbors cw x)
       && forallb (fun y =>
            match overlaps cw x y with
            | Some (i, j) =>
                mem_var y (neighbors cw x)
                && option_eqb (overlaps cw y x) (Some (j, i))
                && Nat.ltb i (var_length x) && Nat.ltb j (var_length y)
            | None => true
            end) (variables cw))
     (variables cw).

(** * A concrete grid

    The grid
<<
      __#
      #_#
      #__
>>
    has three slots: [slot_top] across from (0,0), [slot_mid] down from (0,1)
    and [slot_bot] across from (2,1).  The last letter of [slot_top] is the
    first of [slot_mid]; the last letter of [slot_mid] is the first of
    [slot_bot]. *)

Definition slot_top : Var := mkVar 0 0 ACROSS 2.
Definition slot_mid : Var := mkVar 0 1 DOWN 3.
Definition slot_bot : Var := mkVar 2 1 ACROSS 2.

Definition Var_eqb (x y : Var) : bool :=
  if Var_eq_dec x y then true else false.

Definition zigzag_overlaps (x y : Var) : option (nat * nat) :=
  if Var_eqb x slot_top && Var_eqb y slot_mid then Some (1, 0)
  else if Var_eqb x slot_mid && Var_eqb y slot_top then Some (0, 1)
  else if Var_eqb x slot_mid && Var_eqb y slot_bot then Some (2, 0)
  else if Var_eqb x slot_bot && Var_eqb y slot_mid then Some (0, 2)
  else None.

Definition zigzag_neighbors (x : Var) : list Var :=
  if Var_eqb x slot_top then [slot_mid]
  else if Var_eqb x slot_mid then [slot_top; slot_bot]
  else if Var_eqb x slot_bot then [slot_mid]
  else [].

(** The grid with its slots enumerated in the order [vars]. *)
Definition zigzag (vars : list Var) (vocabulary : list string) : Crossword :=
  mkCrossword vars vocabulary zigzag_overlaps zigzag_neighbors.

(** A vocabulary in which every slot of the grid has two words left after
    node and arc consistency, and the store these leave. *)
Definition tie_vocabulary : list string := ["AB"; "BA"; "BAB"; "ABA"].

Definition tie_domains : domains :=
  [(slot_mid, ["BAB"; "ABA"]); (slot_top, ["AB"; "BA"]);
   (slot_bot, ["AB"; "BA"])].

(** A vocabulary on which the search gives up although the puzzle has a
    solution, and such a solution. *)
Definition stuck_vocabulary : list string :=
  ["AB"; "CD"; "EF"; "GH"; "BAA"; "BOA"; "BRA"; "DIE"; "DIG"].

Definition stuck_domains : domains :=
  [(slot_top, ["AB"; "CD"]);
   (slot_mid, ["BAA"; "BOA"; "BRA"; "DIE"; "DIG"]);
   (slot_bot, ["AB"; "EF"; "GH"])].

Definition stuck_solution : assignment :=
  [(slot_top, "CD"); (slot_mid, "DIE"); (slot_bot, "EF")].

(** A vocabulary on which AC-3 empties a domain. *)
Definition clash_vocabulary : list string := ["AB"; "CDE"].

(** * Vocabulary of the further properties *)

(** The test of [enforce_node_consistency] on a word of the domain of [x]. *)
Definition fits (x : Var) (w : string) : bool :=
  Nat.eqb (String.length w) (var_length x).

(** An assignment of a word to every slot of the graph, each from the domain
    of its slot in the store, that agrees at every overlap. *)
Definition solution_within (cw : Crossword) (d : domains) (a : assignment)
  : Prop :=
  (forall x, In x (variables cw) ->
     exists w, Dict.get a x = Some w /\ In w (domain_of d x)) /\
  (forall x y i j wx wy,
     In x (variables cw) -> In y (variables cw) ->
     overlaps cw x y = Some (i, j) ->
     Dict.get a x = Some wx -> Dict.get a y = Some wy ->
     char_agree i j wx wy).

Definition arc_eq_dec (p q : Var * Var) : {p = q} + {p <> q}.
Proof. decide equality; apply Var_eq_dec. Defined.

(** Words of [ws] whose character at [j] differs from the character of
    [value] at [i]. *)
Definition conflicts (i j : nat) (value : string) (ws : list string) : nat :=
  List.length
    (filter (fun word =>
               match String.get i value, String.get j word with
               | Some c1, Some c2 => negb (Ascii.eqb c1 c2)
               | _, _ => false
               end) ws).

(** Words that [value] for [var] rules out in the domains of the neighbors
    of [var]. *)
Definition ruled_out (cw : Crossword) (d : domains) (var : Var)
  (value : string) : nat :=
  list_sum
    (map (fun z =>
            match overlaps cw var z with
            | Some (i, j) => conflicts i j value (domain_of d z)
            | None => 0
            end) (neighbors cw var)).

(** Every word of the assignment belongs to a slot of the graph and to the
    domain of that slot. *)
Definition from_store (cw : Crossword) (d : domains) (a : assignment) : Prop :=
  forall x w, assigned_word a x = Some w ->
    In x (variables cw) /\ In w (domain_of d x).

(** The dictionary a call of [backtrack] returns or leaves. *)
Definition search_dict (r : search) : assignment :=
  match r with
  | Solution s => s
  | Failure a => a
  end.

(** * Rendering: [letter_grid]

    [self.crossword.height] and [self.crossword.width] are attributes of the
    class [Crossword], which is not among the sources; they are parameters
    here. *)

(** A 2D array of letters, [None] where nothing is written. *)
Definition letters_grid : Type := list (list (option ascii)).

(** [[[None for _ in range(width)] for _ in range(height)]] *)
Definition blank_grid (height width : nat) : letters_grid :=
  repeat (repeat None width) height.

(** [l[n] = x] on a list that has the index [n]. *)
Fixpoint replace_nth {A : Type} (n : nat) (x : A) (l : list A) : list A :=
  match l, n with
  | [], _ => []
  | _ :: l', 0 => x :: l'
  | y :: l', S n' => y :: replace_nth n' x l'
  end.

(** [letters[i][j] = c]: [IndexError] when the row or the column is
    missing. *)
Definition set_cell (letters : letters_grid) (i j : nat) (c : ascii)
  : result letters_grid :=
  match nth_error letters i with
  | Some row =>
      if Nat.ltb j (List.length row)
      then Ok (replace_nth i (replace_nth j (Some c) row) letters)
      else Raise IndexError
  | None => Raise IndexError
  end.

(** The cell of the [k]-th letter of a slot. *)
Definition cell (variable : Var) (k : nat) : nat * nat :=
  (var_i variable
   + match var_direction variable with DOWN => k | ACROSS => 0 end,
   var_j variable
   + match var_direction variable with ACROSS => k | DOWN => 0 end).

(** Body of the inner loop of [letter_grid]. *)
Definition write_letter (variable : Var) (word : string)
  (letters : letters_grid) (k : nat) : result letters_grid :=
  c <- index word k ;;
  set_cell letters (fst (cell variable k)) (snd (cell variable k)) c.

(** Body of the loop over [assignment.items()]. *)
Definition write_word (letters : letters_grid) (entry : Var * string)
  : result letters_grid :=
  foldM (write_letter (fst entry) (snd entry))
        (seq 0 (String.length (snd entry))) letters.

Definition letter_grid (height width : nat) (a : assignment)
  : result letters_grid :=
  foldM write_word a (blank_grid height width).

(** [letters[i][j]] read back; [None] also outside the array. *)
Definition cell_at (letters : letters_grid) (p : nat * nat) : option ascii :=
  match nth_error letters (fst p) with
  | Some row =>
      match nth_error row (snd p) with
      | Some c => c
      | None => None
      end
  | None => None
  end.

(** The array has [height] rows of [width] cells. *)
Definition has_shape (height width : nat) (letters : letters_grid) : Prop :=
  List.length letters = height /\
  forall row, In row letters -> List.length row = width.

(** The writes of [letter_grid], in order: the cell and the letter. *)
Definition word_writes (entry : Var * string)
  : list (nat * nat * option ascii) :=
  map (fun k => (cell (fst entry) k, String.get k (snd entry)))
      (seq 0 (String.length (snd entry))).

Definition writes (a : assignment) : list (nat * nat * option ascii) :=
  flat_map word_writes a.

(** One write: the letter of the word, which [word[k]] has found. *)
Definition put (letters : letters_grid) (w : nat * nat * option ascii)
  : result letters_grid :=
  match snd w with
  | Some c => set_cell letters (fst (fst w)) (snd (fst w)) c
  | None => Raise IndexError
  end.

Definition cell_eq_dec (p q : nat * nat) : {p = q} + {p <> q}.
Proof. decide equality; apply Nat.eq_dec. Defined.

(** The letter last written at [p], or [before] when nothing is. *)
Definition last_write (ws : list (nat * nat * option ascii)) (p : nat * nat)
  (before : option ascii) : option ascii :=
  fold_left (fun acc w => if cell_eq_dec (fst w) p then snd w else acc)
            ws before.

(** * Vocabulary of the search on small graphs *)

(** Every entry belongs to a slot of the graph and has a word of the length
    of that slot. *)
Definition sized (cw : Crossword) (a : assignment) : Prop :=
  forall x w, In (x, w) a ->
    In x (variables cw) /\ String.length w = var_length x.

(** Every entry of [a] is an entry of [s]. *)
Definition part_of (s a : assignment) : Prop :=
  forall x w, In (x, w) a -> Dict.get s x = Some w.

(** Two slots that cross at one cell: the upper two of the grid above. *)
Definition corner_overlaps (x y : Var) : option (nat * nat) :=
  if Var_eqb x slot_top && Var_eqb y slot_mid then Some (1, 0)
  else if Var_eqb x slot_mid && Var_eqb y slot_top then Some (0, 1)
  else None.

Definition corner_neighbors (x : Var) : list Var :=
  if Var_eqb x slot_top then [slot_mid]
  else if Var_eqb x slot_mid then [slot_top]
  else [].

Definition corner (vocabulary : list string) : Crossword :=
  mkCrossword [slot_top; slot_mid] vocabulary corner_overlaps corner_neighbors.

(** * The stores [__init__] may build

    [self.crossword.words.copy()] is a fresh set with the words of the
    vocabulary; a copy of a set need not iterate in the order of the set, and
    two copies need not iterate alike.  [init_domains] lists every copy in
    the order of the vocabulary; [init_store] allows every order of every
    copy, and every order of the keys. *)
Definition init_store (cw : Crossword) (d : domains) : Prop :=
  (forall x, In x (Dict.keys d) <-> In x (variables cw)) /\
  forall x ws, Dict.get d x = Some ws -> Permutation ws (words cw).

(** * Verification *)

(** ** The result monad *)

Lemma bind_Ok {A B : Type} (m : result A) (k : A -> result B) (b : B) :
  bind m k = Ok b -> exists a, m = Ok a /\ k a = Ok b.
Proof. destruct m; simpl; intros H; try discriminate; eauto. Qed.

Lemma bind_not_OutOfFuel {A B : Type} (m : result A) (k : A -> result B) :
  m <> OutOfFuel -> (forall a, m = Ok a -> k a <> OutOfFuel) ->
  bind m k <> OutOfFuel.
Proof. destruct m; simpl; intros Hm Hk; auto; discriminate. Qed.

(** Splits a hypothesis [bind m k = Ok b] into its two runs. *)
Tactic Notation "inv_bind" hyp(H) :=
  let a := fresh "a" in
  let Ha := fresh "Hrun" in
  apply bind_Ok in H; destruct H as (a & Ha & H).

Tactic Notation "inv_bind" hyp(H) "as" ident(a) ident(Ha) :=
  apply bind_Ok in H; destruct H as (a & Ha & H).

Lemma lookup_Ok {V : Type} (d : Dict.t V) (k : Var) (v : V) :
  lookup d k = Ok v <-> Dict.get d k = Some v.
Proof.
  unfold lookup; destruct (Dict.get d k); split; intros H;
    inversion H; subst; reflexivity.
Qed.

Lemma lookup_not_OutOfFuel {V : Type} (d : Dict.t V) (k : Var) :
  lookup d k <> OutOfFuel.
Proof. unfold lookup; destruct (Dict.get d k); discriminate. Qed.

Lemma foldM_not_OutOfFuel {A B : Type} (f : A -> B -> result A) (l : list B) :
  (forall a b, f a b <> OutOfFuel) -> forall a, foldM f l a <> OutOfFuel.
Proof.
  intros Hf; induction l as [|b l IH]; intros a; simpl; [discriminate|].
  apply bind_not_OutOfFuel; auto.
Qed.

Lemma mapM_not_OutOfFuel {A B : Type} (f : A -> result B) (l : list A) :
  (forall a, f a <> OutOfFuel) -> mapM f l <> OutOfFuel.
Proof.
  intros Hf; induction l as [|a l IH]; simpl; [discriminate|].
  apply bind_not_OutOfFuel; [auto|]. intros b _.
  apply bind_not_OutOfFuel; [auto|]. discriminate.
Qed.

Lemma foldM_app {A B : Type} (f : A -> B -> result A) (l1 l2 : list B) (a : A) :
  foldM f (l1 ++ l2) a = (a' <- foldM f l1 a ;; foldM f l2 a').
Proof.
  revert a; induction l1 as [|b l1 IH]; intros a; simpl; [reflexivity|].
  destruct (f a b); simpl; auto.
Qed.

(** An invariant of the loop body is an invariant of the loop. *)
Lemma foldM_invariant {A B : Type} (f : A -> B -> result A) (P : A -> Prop)
  (l : list B) :
  (forall a b a', In b l -> P a -> f a b = Ok a' -> P a') ->
  forall a a', P a -> foldM f l a = Ok a' -> P a'.
Proof.
  induction l as [|b l IH]; intros Hstep a a' Ha H; simpl in H.
  - inversion H; subst; exact Ha.
  - inv_bind H. eapply IH; [| |exact H].
    + intros; eapply Hstep; eauto; right; assumption.
    + eapply Hstep; eauto; left; reflexivity.
Qed.

Lemma mapM_length {A B : Type} (f : A -> result B) (l : list A) (bs : list B) :
  mapM f l = Ok bs -> List.length bs = List.length l.
Proof.
  revert bs; induction l as [|a l IH]; intros bs H; simpl in H.
  - inversion H; reflexivity.
  - inv_bind H. inv_bind H. inversion H; subst; simpl. f_equal; auto.
Qed.

(** ** Dictionaries *)

Module DictFacts.
Section Facts.
Context {V : Type}.
Implicit Types (d : Dict.t V) (k : Var) (v : V).

Lemma get_set_eq d k v : Dict.get (Dict.set d k v) k = Some v.
Proof.
  induction d as [|[k' v'] d IH]; simpl.
  - destruct (Var_eq_dec k k); congruence.
  - destruct (Var_eq_dec k k') as [->|Hne]; simpl.
    + destruct (Var_eq_dec k' k'); congruence.
    + destruct (Var_eq_dec k k'); congruence.
Qed.

Lemma get_set_ne d k k' v : k <> k' -> Dict.get (Dict.set d k v) k' = Dict.get d k'.
Proof.
  intros Hne; induction d as [|[k0 v0] d IH]; simpl.
  - destruct (Var_eq_dec k' k); congruence.
  - destruct (Var_eq_dec k k0) as [->|Hk]; simpl.
    + destruct (Var_eq_dec k' k0); congruence.
    + destruct (Var_eq_dec k' k0); congruence.
Qed.

Lemma get_set d k k' v :
  Dict.get (Dict.set d k v) k' = if Var_eq_dec k k' then Some v else Dict.get d k'.
Proof.
  destruct (Var_eq_dec k k') as [->|Hne];
    [apply get_set_eq | apply get_set_ne; assumption].
Qed.

Lemma get_In_keys d k : Dict.get d k <> None <-> In k (Dict.keys d).
Proof.
  induction d as [|[k' v'] d IH]; simpl.
  - split; [congruence | tauto].
  - destruct (Var_eq_dec k k') as [->|Hne].
    + split; [auto | congruence].
    + rewrite IH. split; [auto | intros [H|H]; congruence].
Qed.

Lemma get_Some_In_keys d k v : Dict.get d k = Some v -> In k (Dict.keys d).
Proof. intros H; apply get_In_keys; congruence. Qed.

Lemma get_Some_In d k v : Dict.get d k = Some v -> In (k, v) d.
Proof.
  induction d as [|[k' v'] d IH]; simpl; [discriminate|].
  destruct (Var_eq_dec k k') as [->|Hne]; intros H.
  - inversion H; subst; left; reflexivity.
  - right; auto.
Qed.

Lemma In_get_Some d k v : NoDup (Dict.keys d) -> In (k, v) d -> Dict.get d k = Some v.
Proof.
  induction d as [|[k' v'] d IH]; simpl; [tauto|].
  intros Hnd [H|H].
  - inversion H; subst. destruct (Var_eq_dec k k); congruence.
  - inversion Hnd as [|? ? Hnotin Hnd']; subst.
    destruct (Var_eq_dec k k') as [->|Hne]; [|auto].
    exfalso; apply Hnotin. change (In (fst (k', v)) (map fst d)).
    apply in_map; assumption.
Qed.

(** Writing an existing key keeps the keys and their order. *)
Lemma keys_set_present d k v :
  In k (Dict.keys d) -> Dict.keys (Dict.set d k v) = Dict.keys d.
Proof.
  induction d as [|[k' v'] d IH]; simpl; [tauto|].
  intros Hin. destruct (Var_eq_dec k k') as [->|Hne]; simpl; [reflexivity|].
  f_equal. apply IH. destruct Hin; congruence.
Qed.

Lemma keys_set_absent d k v :
  ~ In k (Dict.keys d) -> Dict.keys (Dict.set d k v) = Dict.keys d ++ [k].
Proof.
  induction d as [|[k' v'] d IH]; simpl; [reflexivity|].
  intros Hnotin. destruct (Var_eq_dec k k') as [->|Hne]; [tauto|].
  simpl; f_equal; apply IH; tauto.
Qed.

Lemma In_keys_set d k k' v :
  In k' (Dict.keys (Dict.set d k v)) <-> k' = k \/ In k' (Dict.keys d).
Proof.
  rewrite <- !get_In_keys, get_set.
  destruct (Var_eq_dec k k') as [->|Hne].
  - split; [auto | congruence].
  - split; [auto | intros [H|H]; congruence].
Qed.

Lemma NoDup_keys_set d k v :
  NoDup (Dict.keys d) -> NoDup (Dict.keys (Dict.set d k v)).
Proof.
  intros Hnd. destruct (in_dec Var_eq_dec k (Dict.keys d)) as [Hin|Hnotin].
  - rewrite keys_set_present; assumption.
  - rewrite keys_set_absent by assumption.
    apply NoDup_app; [assumption | repeat constructor; simpl; tauto |].
    intros a Ha [<-|[]]; contradiction.
Qed.

Lemma set_nonempty d k v : Dict.set d k v <> [].
Proof.
  destruct d as [|[k' v'] d]; simpl; [discriminate|].
  destruct (Var_eq_dec k k'); discriminate.
Qed.
End Facts.
End DictFacts.
Import DictFacts.

(** ** Strings and word lists *)

Lemma get_in_range (w : string) (n : nat) :
  n < String.length w -> exists c, String.get n w = Some c.
Proof.
  revert n; induction w as [|a w IH]; intros n Hn; simpl in *; [lia|].
  destruct n; [eauto|]. apply IH; lia.
Qed.

Lemma get_Some_lt (w : string) (n : nat) (c : ascii) :
  String.get n w = Some c -> n < String.length w.
Proof.
  revert n; induction w as [|a w IH]; intros n H; simpl in *; [discriminate|].
  destruct n; [lia|]. apply IH in H; lia.
Qed.

Lemma index_not_OutOfFuel (w : string) (n : nat) : index w n <> OutOfFuel.
Proof. unfold index; destruct (String.get n w); discriminate. Qed.

Lemma index_in_range (w : string) (n : nat) :
  n < String.length w -> exists c, index w n = Ok c /\ String.get n w = Some c.
Proof.
  intros H; destruct (get_in_range w n H) as [c Hc].
  exists c; unfold index; rewrite Hc; auto.
Qed.

Lemma index_Ok (w : string) (n : nat) (c : ascii) :
  index w n = Ok c <-> String.get n w = Some c.
Proof.
  unfold index; destruct (String.get n w); split; intros H;
    inversion H; subst; reflexivity.
Qed.

Lemma memb_In (w : string) (l : list string) : memb w l = true <-> In w l.
Proof. unfold memb; destruct (in_dec string_dec w l); split; auto; discriminate. Qed.

Lemma memb_cons_eq (w : string) (l : list string) : memb w (w :: l) = true.
Proof. apply memb_In; left; reflexivity. Qed.

Lemma memb_cons_ne (w u : string) (l : list string) :
  w <> u -> memb w (u :: l) = memb w l.
Proof.
  intros Hne. unfold memb.
  destruct (in_dec string_dec w (u :: l)) as [[H|H]|H];
    destruct (in_dec string_dec w l) as [H'|H']; simpl in *;
    try reflexivity; try congruence; tauto.
Qed.

Lemma remove_as_filter (w : string) (l : list string) :
  remove string_dec w l = filter (fun u => negb (memb u [w])) l.
Proof.
  induction l as [|u l IH]; simpl; [reflexivity|].
  unfold memb at 1. destruct (string_dec w u) as [->|Hne].
  - destruct (in_dec string_dec u [u]) as [_|Hn]; simpl; [exact IH|].
    exfalso; apply Hn; left; reflexivity.
  - destruct (in_dec string_dec u [w]) as [[H|[]]|_]; simpl; [congruence|].
    f_equal; exact IH.
Qed.

Lemma filter_filter {A : Type} (f g : A -> bool) (l : list A) :
  filter f (filter g l) = filter (fun a => g a && f a) l.
Proof.
  induction l as [|a l IH]; simpl; [reflexivity|].
  destruct (g a); simpl; [destruct (f a)|]; rewrite IH; reflexivity.
Qed.

Lemma filter_length_le {A : Type} (f : A -> bool) (l : list A) :
  List.length (filter f l) <= List.length l.
Proof. induction l as [|a l IH]; simpl; [lia|]. destruct (f a); simpl; lia. Qed.

Lemma filter_length_lt {A : Type} (f : A -> bool) (l : list A) (a : A) :
  In a l -> f a = false -> List.length (filter f l) < List.length l.
Proof.
  induction l as [|b l IH]; simpl; [tauto|]. intros [->|Hin] Hf.
  - rewrite Hf. pose proof (filter_length_le f l); lia.
  - specialize (IH Hin Hf). destruct (f b); simpl; lia.
Qed.

Lemma filter_all {A : Type} (f : A -> bool) (l : list A) :
  (forall a, In a l -> f a = true) -> filter f l = l.
Proof.
  induction l as [|a l IH]; simpl; intros H; [reflexivity|].
  rewrite (H a) by auto. f_equal; auto.
Qed.

(** ** The domain store *)

Lemma store_size_set (d : domains) (x : Var) (cur new : list string) :
  Dict.get d x = Some cur ->
  store_size (Dict.set d x new) + List.length cur
  = store_size d + List.length new.
Proof.
  unfold store_size.
  induction d as [|[k ws] d IH]; simpl; [discriminate|].
  destruct (Var_eq_dec x k) as [->|Hne]; intros H; simpl.
  - inversion H; subst; lia.
  - specialize (IH H); lia.
Qed.

Lemma max_degree_keys (cw : Crossword) (d d' : domains) :
  Dict.keys d' = Dict.keys d -> max_degree cw d' = max_degree cw d.
Proof. unfold max_degree; intros ->; reflexivity. Qed.

Lemma degree_le_max (cw : Crossword) (d : domains) (x : Var) :
  In x (Dict.keys d) -> List.length (neighbors cw x) <= max_degree cw d.
Proof.
  unfold max_degree; intros Hin.
  pose proof (proj1 (list_max_le
    (map (fun k => List.length (neighbors cw k)) (Dict.keys d)) _) (le_n _)) as H.
  rewrite Forall_forall in H. apply H.
  apply (in_map (fun k => List.length (neighbors cw k))); assumption.
Qed.

Lemma shrinks_refl (d : domains) : shrinks d d.
Proof.
  split; [reflexivity|]. intros x ws H; exists ws; split; [assumption|].
  apply incl_refl.
Qed.

Lemma shrinks_trans (d1 d2 d3 : domains) :
  shrinks d1 d2 -> shrinks d2 d3 -> shrinks d1 d3.
Proof.
  intros [K1 H1] [K2 H2]; split; [congruence|].
  intros x ws3 H3. destruct (H2 _ _ H3) as (ws2 & G2 & I2).
  destruct (H1 _ _ G2) as (ws1 & G1 & I1).
  exists ws1; split; [assumption|]. eapply incl_tran; eassumption.
Qed.

Lemma shrinks_set (d : domains) (x : Var) (cur new : list string) :
  Dict.get d x = Some cur -> incl new cur -> shrinks d (Dict.set d x new).
Proof.
  intros Hget Hincl; split.
  - apply keys_set_present. eapply get_Some_In_keys; eassumption.
  - intros k ws'. rewrite get_set.
    destruct (Var_eq_dec x k) as [<-|Hne]; intros H.
    + inversion H; subst. eauto.
    + exists ws'; split; [assumption | apply incl_refl].
Qed.

Lemma shrinks_node_consistent (cw : Crossword) (d d' : domains) :
  shrinks d d' -> node_consistent cw d -> node_consistent cw d'.
Proof.
  intros [_ Hs] Hnc x ws' w Hx Hget Hin.
  destruct (Hs _ _ Hget) as (ws & Hg & Hi).
  eapply Hnc; [exact Hx | exact Hg | apply Hi; exact Hin].
Qed.

Lemma shrinks_covers (cw : Crossword) (d d' : domains) :
  shrinks d d' -> covers cw d -> covers cw d'.
Proof.
  intros [Hk _] Hc x Hx. apply get_In_keys. rewrite Hk.
  apply get_In_keys. auto.
Qed.

(** ** Arc revision *)

Lemma has_char_spec (u : string) (j : nat) (c : ascii) :
  has_char u j c = true <-> String.get j u = Some c.
Proof.
  unfold has_char. destruct (String.get j u) as [c'|].
  - rewrite Ascii.eqb_eq. split; congruence.
  - split; discriminate.
Qed.

Lemma supportedb_spec (i j : nat) (ys : list string) (w : string) :
  supportedb i j ys w = true <-> exists u, In u ys /\ char_agree i j w u.
Proof.
  unfold supportedb, char_agree. destruct (String.get i w) as [c|].
  - rewrite existsb_exists. split.
    + intros (u & Hin & Hc). apply has_char_spec in Hc. eauto.
    + intros (u & Hin & c' & Hw & Hu). inversion Hw; subst.
      exists u; split; [assumption | apply has_char_spec; assumption].
  - split; [discriminate | intros (u & _ & c & H & _); discriminate].
Qed.

Lemma all_differ_not_OutOfFuel (j : nat) (c : ascii) (ys : list string) :
  all_differ j c ys <> OutOfFuel.
Proof.
  induction ys as [|u ys IH]; simpl; [discriminate|].
  apply bind_not_OutOfFuel; [apply index_not_OutOfFuel|].
  intros c' _. destruct (Ascii.eqb c' c); [discriminate|exact IH].
Qed.

Lemma all_differ_in_range (j : nat) (c : ascii) (ys : list string) :
  (forall u, In u ys -> j < String.length u) ->
  all_differ j c ys = Ok (negb (existsb (fun u => has_char u j c) ys)).
Proof.
  induction ys as [|u ys IH]; intros Hr; simpl; [reflexivity|].
  destruct (index_in_range u j) as (c' & Hi & Hg); [apply Hr; left; reflexivity|].
  rewrite Hi; simpl. unfold has_char at 1; rewrite Hg.
  destruct (Ascii.eqb c' c); simpl; [reflexivity|].
  apply IH; intros; apply Hr; right; assumption.
Qed.

Section ReviseFacts.
Variable cw : Crossword.

(** One turn of the loop leaves the state alone or removes [word] from the
    current domain of [x] and sets the flag. *)
Lemma revise_word_cases (x y : Var) (i j : nat) (d d' : domains)
  (b b' : bool) (word : string) :
  revise_word x y i j (d, b) word = Ok (d', b') ->
  (d' = d /\ b' = b) \/
  (b' = true /\ exists cur, Dict.get d x = Some cur /\
                            d' = Dict.set d x (remove string_dec word cur)).
Proof.
  unfold revise_word; simpl; intros H.
  inv_bind H as charx Hc. inv_bind H as ys Hys. inv_bind H as u Hu.
  destruct u.
  - inv_bind H as cur Hcur. inversion H; subst. right; split; [reflexivity|].
    exists cur; split; [apply lookup_Ok; assumption | reflexivity].
  - inversion H; subst; left; auto.
Qed.

Lemma revise_loop_monotone (x y : Var) (i j : nat) (d0 : domains)
  (xs l : list string) :
  Dict.get d0 x = Some xs -> incl l xs ->
  forall d1 b1, foldM (revise_word x y i j) l (d0, false) = Ok (d1, b1) ->
  shrinks d0 d1 /\ (b1 = false -> d1 = d0) /\
  (b1 = true -> store_size d1 < store_size d0).
Proof.
  intros Hget Hincl d1 b1 Hrun.
  pose (P := fun st : domains * bool =>
    shrinks d0 (fst st) /\ store_size (fst st) <= store_size d0 /\
    (snd st = false -> fst st = d0) /\
    (snd st = true -> store_size (fst st) < store_size d0)).
  assert (HP : P (d1, b1)).
  { eapply (foldM_invariant _ P); [| |exact Hrun].
    - intros [da ba] word [db bb] Hin (Hs & Hle & Hf & Ht) Hstep; simpl in *.
      apply revise_word_cases in Hstep.
      destruct Hstep as [[-> ->]|(-> & cur & Hcur & ->)];
        [exact (conj Hs (conj Hle (conj Hf Ht)))|].
      pose proof (store_size_set da x cur (remove string_dec word cur) Hcur) as Hsz.
      pose proof (remove_length_le string_dec cur word) as Hrm.
      unfold P; simpl. split; [|split; [|split]].
      + eapply shrinks_trans; [exact Hs|]. eapply shrinks_set; [exact Hcur|].
        intros w Hw; apply in_remove in Hw; tauto.
      + lia.
      + discriminate.
      + intros _. destruct ba.
        * specialize (Ht eq_refl); lia.
        * rewrite (Hf eq_refl) in *. rewrite Hget in Hcur; inversion Hcur; subst.
          pose proof (remove_length_lt string_dec cur word (Hincl _ Hin)); lia.
    - unfold P; simpl.
      split; [apply shrinks_refl|split; [lia|split; [reflexivity|discriminate]]]. }
  destruct HP as (Hs & _ & Hf & Ht); auto.
Qed.

(** [revise] only removes words; it reports [False] only when it has left
    the store as it was, and [True] only when the store has lost a word. *)
Lemma revise_monotone (x y : Var) (d d' : domains) (b : bool) :
  revise cw d x y = Ok (d', b) ->
  shrinks d d' /\ (b = false -> d' = d) /\
  (b = true -> store_size d' < store_size d /\ In x (Dict.keys d) /\
               overlaps cw x y <> None).
Proof.
  unfold revise. destruct (overlaps cw x y) as [[i j]|] eqn:Hov; intros H.
  - inv_bind H as xs Hxs. apply lookup_Ok in Hxs.
    destruct (revise_loop_monotone x y i j d xs xs Hxs (incl_refl _) _ _ H)
      as (Hs & Hf & Ht).
    split; [exact Hs|split; [exact Hf|]]. intros Hb.
    split; [auto|split; [|discriminate]].
    eapply get_Some_In_keys; eassumption.
  - inversion H; subst.
    split; [apply shrinks_refl|split; [reflexivity|discriminate]].
Qed.

Lemma revise_not_OutOfFuel (d : domains) (x y : Var) :
  revise cw d x y <> OutOfFuel.
Proof.
  unfold revise. destruct (overlaps cw x y) as [[i j]|]; [|discriminate].
  apply bind_not_OutOfFuel; [apply lookup_not_OutOfFuel|].
  intros xs _. apply foldM_not_OutOfFuel. intros st word.
  unfold revise_word.
  apply bind_not_OutOfFuel; [apply index_not_OutOfFuel|]. intros c _.
  apply bind_not_OutOfFuel; [apply lookup_not_OutOfFuel|]. intros ys _.
  apply bind_not_OutOfFuel; [apply all_differ_not_OutOfFuel|]. intros [|] _;
    [|discriminate].
  apply bind_not_OutOfFuel; [apply lookup_not_OutOfFuel|]. discriminate.
Qed.

Lemma revise_frame (d d' : domains) (x y : Var) (b : bool) :
  revise cw d x y = Ok (d', b) ->
  forall v, v <> x -> Dict.get d' v = Dict.get d v.
Proof.
  unfold revise. destruct (overlaps cw x y) as [[i j]|];
    [|intros H; injection H as <- _; reflexivity].
  intros H v Hv. inv_bind H as xs Hxs.
  pose (P := fun st : domains * bool => Dict.get (fst st) v = Dict.get d v).
  change (P (d', b)). eapply (foldM_invariant _ P); [| |exact H].
  - intros [da ba] word [db bb] _ HP Hstep. unfold P in *; simpl in *.
    apply revise_word_cases in Hstep.
    destruct Hstep as [[-> _]|(_ & cur & _ & ->)]; [exact HP|].
    rewrite get_set_ne by congruence. exact HP.
  - reflexivity.
Qed.

(** The loop of [revise] when every index is inside its word: the words of
    [l] without support in the domain of [y] leave the domain of [x]. *)
Lemma revise_loop_spec (x y : Var) (i j : nat) (ys l : list string) :
  x <> y ->
  (forall w, In w l -> i < String.length w) ->
  (forall u, In u ys -> j < String.length u) ->
  forall d0 b0 cur,
  Dict.get d0 x = Some cur -> Dict.get d0 y = Some ys ->
  exists d1,
    foldM (revise_word x y i j) l (d0, b0)
    = Ok (d1, b0 || existsb (fun w => negb (supportedb i j ys w)) l) /\
    Dict.get d1 x
    = Some (filter (fun w => negb (memb w l) || supportedb i j ys w) cur) /\
    (forall v, v <> x -> Dict.get d1 v = Dict.get d0 v).
Proof.
  intros Hxy Hl Hys. induction l as [|word l IH]; intros d0 b0 cur Hx Hy; simpl.
  - exists d0. rewrite orb_false_r. repeat split; auto.
    rewrite Hx; f_equal; symmetry; apply filter_all; reflexivity.
  - destruct (index_in_range word i) as (c & Hi & Hg); [apply Hl; left; reflexivity|].
    unfold revise_word at 1; simpl. rewrite Hi; simpl.
    rewrite (proj2 (lookup_Ok _ _ _) Hy); simpl.
    rewrite all_differ_in_range by assumption; simpl.
    assert (Hsup : supportedb i j ys word = existsb (fun u => has_char u j c) ys)
      by (unfold supportedb; rewrite Hg; reflexivity).
    rewrite <- Hsup.
    assert (Hl' : forall w, In w l -> i < String.length w)
      by (intros; apply Hl; right; assumption).
    destruct (supportedb i j ys word) eqn:Hs; simpl.
    + destruct (IH Hl' d0 b0 cur Hx Hy) as (d1 & Hrun & Hx1 & Hother).
      exists d1; repeat split; auto.
      rewrite Hx1; f_equal. apply filter_ext_in; intros w _.
      destruct (string_dec w word) as [->|Hne].
      * rewrite Hs, !orb_true_r; reflexivity.
      * rewrite memb_cons_ne by assumption; reflexivity.
    + rewrite (proj2 (lookup_Ok _ _ _) Hx); simpl.
      destruct (IH Hl' (Dict.set d0 x (remove string_dec word cur)) true
                   (remove string_dec word cur)) as (d1 & Hrun & Hx1 & Hother).
      { apply get_set_eq. }
      { rewrite get_set_ne by assumption; assumption. }
      exists d1. rewrite orb_true_r. repeat split; auto.
      * rewrite Hx1, remove_as_filter, filter_filter; f_equal.
        apply filter_ext_in; intros w _.
        destruct (string_dec w word) as [->|Hne].
        -- rewrite !memb_cons_eq, Hs; reflexivity.
        -- rewrite !memb_cons_ne by assumption. reflexivity.
      * intros v Hv. rewrite Hother by assumption.
        apply get_set_ne; congruence.
Qed.

End ReviseFacts.

(** ** The checker of well-formed graphs *)

Lemma mem_var_In (x : Var) (l : list Var) : mem_var x l = true <-> In x l.
Proof. unfold mem_var; destruct (in_dec Var_eq_dec x l); split; auto; discriminate. Qed.

Lemma nodupb_NoDup (l : list Var) : nodupb l = true -> NoDup l.
Proof.
  induction l as [|x l IH]; simpl; intros H; [constructor|].
  apply andb_prop in H; destruct H as [H1 H2]. constructor; [|auto].
  intros Hin. apply mem_var_In in Hin. rewrite Hin in H1; discriminate.
Qed.

Lemma option_eqb_eq (o1 o2 : option (nat * nat)) :
  option_eqb o1 o2 = true -> o1 = o2.
Proof.
  destruct o1 as [[a b]|], o2 as [[c e]|]; simpl; intros H;
    try discriminate; [|reflexivity].
  apply andb_prop in H; destruct H as [H1 H2].
  apply Nat.eqb_eq in H1, H2; subst; reflexivity.
Qed.

Lemma well_formedb_sound (cw : Crossword) :
  well_formedb cw = true -> well_formed cw.
Proof.
  unfold well_formedb; intros H.
  apply andb_prop in H; destruct H as [Hnd Hall].
  rewrite forallb_forall in Hall.
  assert (Hx : forall x, In x (variables cw) ->
    1 <= var_length x /\ overlaps cw x x = None /\ NoDup (neighbors cw x) /\
    (forall y, In y (neighbors cw x) ->
       In y (variables cw) /\ overlaps cw x y <> None) /\
    (forall y i j, In y (variables cw) -> overlaps cw x y = Some (i, j) ->
       In y (neighbors cw x) /\ overlaps cw y x = Some (j, i) /\
       i < var_length x /\ j < var_length y)).
  { intros x Hin. specialize (Hall x Hin).
    repeat (apply andb_prop in Hall; destruct Hall as [Hall ?]).
    split; [apply Nat.leb_le; assumption|].
    split; [destruct (overlaps cw x x); [discriminate|reflexivity]|].
    split; [apply nodupb_NoDup; assumption|].
    split.
    - intros y Hy. rewrite forallb_forall in H0. specialize (H0 y Hy).
      apply andb_prop in H0; destruct H0 as [G1 G2].
      split; [apply mem_var_In; assumption|].
      destruct (overlaps cw x y); [discriminate|discriminate].
    - intros y i j Hy Hov. rewrite forallb_forall in H. specialize (H y Hy).
      rewrite Hov in H.
      repeat (apply andb_prop in H; destruct H as [H ?]).
      split; [apply mem_var_In; assumption|].
      split; [apply option_eqb_eq; assumption|].
      split; apply Nat.ltb_lt; assumption. }
  constructor.
  - apply nodupb_NoDup; assumption.
  - intros x Hin; apply (Hx x Hin).
  - intros x Hin; apply (Hx x Hin).
  - intros x y Hin; split.
    + apply (Hx x Hin).
    + intros [Hy Hov]. destruct (overlaps cw x y) as [[i j]|] eqn:E; [|congruence].
      apply (proj2 (proj2 (proj2 (proj2 (Hx x Hin)))) y i j Hy E).
  - intros x Hin; apply (Hx x Hin).
  - intros x y i j Hin Hy Hov.
    apply (proj2 (proj2 (proj2 (proj2 (Hx x Hin)))) y i j Hy Hov).
  - intros x y i j Hin Hy Hov.
    apply (proj2 (proj2 (proj2 (proj2 (Hx x Hin)))) y i j Hy Hov).
Qed.

Lemma zigzag_well_formed (vocabulary : list string) :
  well_formed (zigzag [slot_top; slot_mid; slot_bot] vocabulary).
Proof. apply well_formedb_sound; reflexivity. Qed.

(** ** What [revise] computes *)

(** [revise] on an overlap whose indices are inside the words of both
    domains. *)
Lemma revise_overlap_spec (cw : Crossword) (d : domains) (x y : Var)
  (i j : nat) (xs ys : list string) :
  overlaps cw x y = Some (i, j) -> x <> y ->
  Dict.get d x = Some xs -> Dict.get d y = Some ys ->
  (forall w, In w xs -> i < String.length w) ->
  (forall u, In u ys -> j < String.length u) ->
  exists d' b xs',
    revise cw d x y = Ok (d', b) /\
    Dict.get d' x = Some xs' /\
    (forall w, In w xs' <->
               In w xs /\ exists u, In u ys /\ char_agree i j w u) /\
    (forall v, v <> x -> Dict.get d' v = Dict.get d v) /\
    Dict.keys d' = Dict.keys d /\
    (b = true <-> exists w, In w xs /\ ~ In w xs').
Proof.
  intros Hov Hxy Hx Hy Hri Hrj.
  destruct (revise_loop_spec x y i j ys xs Hxy Hri Hrj d false xs Hx Hy)
    as (d1 & Hrun & Hx1 & Hother).
  assert (Hrev : revise cw d x y
                 = Ok (d1, existsb (fun w => negb (supportedb i j ys w)) xs)).
  { unfold revise; rewrite Hov, (proj2 (lookup_Ok _ _ _) Hx); exact Hrun. }
  assert (Hmem : forall w,
    In w (filter (fun w => negb (memb w xs) || supportedb i j ys w) xs) <->
    In w xs /\ exists u, In u ys /\ char_agree i j w u).
  { intros w. rewrite filter_In, <- supportedb_spec.
    split; intros [Hin Hk]; split; auto.
    - rewrite (proj2 (memb_In w xs) Hin) in Hk; exact Hk.
    - rewrite Hk; apply orb_true_r. }
  exists d1, (existsb (fun w => negb (supportedb i j ys w)) xs),
    (filter (fun w => negb (memb w xs) || supportedb i j ys w) xs).
  split; [exact Hrev|]. split; [exact Hx1|]. split; [exact Hmem|].
  split; [exact Hother|].
  split; [apply (revise_monotone cw x y _ _ _ Hrev)|].
  rewrite existsb_exists. split.
  - intros (w & Hin & Hw). exists w; split; [assumption|].
    rewrite Hmem, <- supportedb_spec. intros [_ Hs].
    rewrite Hs in Hw; discriminate.
  - intros (w & Hin & Hnot). exists w; split; [assumption|].
    destruct (supportedb i j ys w) eqn:Hs; [|reflexivity].
    exfalso; apply Hnot. rewrite Hmem, <- supportedb_spec; auto.
Qed.

Lemma all_differ_Ok (j : nat) (c : ascii) (ys : list string) (b : bool) :
  all_differ j c ys = Ok b ->
  b = negb (existsb (fun u => has_char u j c) ys).
Proof.
  induction ys as [|u ys IH]; simpl; intros H; [injection H as <-; reflexivity|].
  inv_bind H as c' Hc'. apply index_Ok in Hc'.
  unfold has_char at 1. rewrite Hc'.
  destruct (Ascii.eqb c' c); simpl; [injection H as <-; reflexivity | auto].
Qed.

Lemma domain_of_set_ne (d : domains) (x y : Var) (ws : list string) :
  x <> y -> domain_of (Dict.set d x ws) y = domain_of d y.
Proof. intros H. unfold domain_of. rewrite get_set_ne by exact H. reflexivity. Qed.

(** The loop of [revise] on any run that raises nothing. *)
Lemma revise_loop_Ok (x y : Var) (i j : nat) (l : list string) :
  x <> y ->
  forall d0 b0 cur d1 b1,
  Dict.get d0 x = Some cur ->
  foldM (revise_word x y i j) l (d0, b0) = Ok (d1, b1) ->
  b1 = b0 || existsb (fun w => negb (supportedb i j (domain_of d0 y) w)) l /\
  Dict.get d1 x
  = Some (filter (fun w => negb (memb w l)
                           || supportedb i j (domain_of d0 y) w) cur).
Proof.
  intros Hxy. induction l as [|word l IH]; intros d0 b0 cur d1 b1 Hx H;
    simpl in H.
  - injection H as <- <-. simpl. rewrite orb_false_r. split; [reflexivity|].
    rewrite Hx; f_equal; symmetry; apply filter_all; reflexivity.
  - inv_bind H as st Hst. unfold revise_word in Hst; simpl in Hst.
    inv_bind Hst as c Hc. apply index_Ok in Hc.
    inv_bind Hst as ys Hys. apply lookup_Ok in Hys.
    inv_bind Hst as u Hu. apply all_differ_Ok in Hu.
    assert (Hdom : domain_of d0 y = ys) by (unfold domain_of; rewrite Hys; reflexivity).
    assert (Hsup : supportedb i j (domain_of d0 y) word = negb u).
    { unfold supportedb. rewrite Hc, Hdom, Hu, negb_involutive. reflexivity. }
    destruct u; simpl in Hsup.
    + inv_bind Hst as cur' Hcur. apply lookup_Ok in Hcur.
      rewrite Hx in Hcur; injection Hcur as <-. injection Hst as <-.
      destruct (IH _ _ (remove string_dec word cur) _ _
                   (get_set_eq d0 x _) H) as [Hb Hg].
      rewrite domain_of_set_ne in Hb, Hg by exact Hxy.
      split.
      * rewrite Hb. simpl. rewrite Hsup. simpl. symmetry; apply orb_true_r.
      * rewrite Hg, remove_as_filter, filter_filter; f_equal.
        apply filter_ext_in; intros w _.
        destruct (string_dec w word) as [->|Hne].
        -- rewrite !memb_cons_eq, Hsup; reflexivity.
        -- rewrite !memb_cons_ne by assumption. reflexivity.
    + injection Hst as <-. destruct (IH _ _ cur _ _ Hx H) as [Hb Hg].
      split.
      * rewrite Hb. simpl. rewrite Hsup. reflexivity.
      * rewrite Hg; f_equal. apply filter_ext_in; intros w _.
        destruct (string_dec w word) as [->|Hne].
        -- rewrite Hsup, !orb_true_r; reflexivity.
        -- rewrite memb_cons_ne by assumption; reflexivity.
Qed.

(** C6 (arc revision), for two distinct slots [x] and [y].  Without an
    overlap descriptor, [revise x y] leaves the store as it is and returns
    [False].  With the descriptor [(i, j)], on every run that returns: a word is in the
    domain of [x] afterwards iff it was there before and some word of the
    domain of [y] has at [j] the character the word has at [i]; every other
    domain, that of [y] included, and the keys of the store are unchanged;
    the value returned is [True] iff a word of the domain of [x] is gone.
    The run returns whenever both slots have a domain and the indices are
    inside the words of these domains. *)
Theorem revise_semantics (cw : Crossword) (d : domains) (x y : Var) :
  x <> y ->
  (overlaps cw x y = None -> revise cw d x y = Ok (d, false)) /\
  (forall i j,
     overlaps cw x y = Some (i, j) ->
     (forall d' b,
        revise cw d x y = Ok (d', b) ->
        exists xs xs',
          Dict.get d x = Some xs /\ Dict.get d' x = Some xs' /\
          (forall w, In w xs' <->
             In w xs /\ exists u, In u (domain_of d y) /\ char_agree i j w u) /\
          (forall v, v <> x -> Dict.get d' v = Dict.get d v) /\
          Dict.keys d' = Dict.keys d /\
          (b = true <-> exists w, In w xs /\ ~ In w xs')) /\
     (forall xs ys,
        Dict.get d x = Some xs -> Dict.get d y = Some ys ->
        (forall w, In w xs -> i < String.length w) ->
        (forall u, In u ys -> j < String.length u) ->
        exists d' b, revise cw d x y = Ok (d', b))).
Proof.
  intros Hxy.
  split; [intros Hov; unfold revise; rewrite Hov; reflexivity|].
  intros i j Hov. split.
  - intros d' b Hrev.
    pose proof (revise_frame cw d d' x y b Hrev) as Hframe.
    pose proof (proj1 (revise_monotone cw x y d d' b Hrev)) as [Hkeys _].
    unfold revise in Hrev. rewrite Hov in Hrev.
    inv_bind Hrev as xs Hxs. apply lookup_Ok in Hxs.
    destruct (revise_loop_Ok x y i j xs Hxy d false xs d' b Hxs Hrev)
      as [Hb Hget].
    set (keep := fun w => negb (memb w xs) || supportedb i j (domain_of d y) w)
      in Hget.
    assert (Hmem : forall w, In w (filter keep xs) <->
      In w xs /\ exists u, In u (domain_of d y) /\ char_agree i j w u).
    { intros w. rewrite filter_In, <- supportedb_spec. unfold keep.
      split; intros [Hin Hk]; split; auto.
      - rewrite (proj2 (memb_In w xs) Hin) in Hk; exact Hk.
      - rewrite Hk; apply orb_true_r. }
    exists xs, (filter keep xs).
    split; [exact Hxs|]. split; [exact Hget|]. split; [exact Hmem|].
    split; [exact Hframe|]. split; [exact Hkeys|].
    rewrite Hb; simpl. rewrite existsb_exists. split.
    + intros (w & Hin & Hw). exists w; split; [assumption|].
      rewrite Hmem, <- supportedb_spec. intros [_ Hs].
      rewrite Hs in Hw; discriminate.
    + intros (w & Hin & Hnot). exists w; split; [assumption|].
      destruct (supportedb i j (domain_of d y) w) eqn:Hs; [|reflexivity].
      exfalso; apply Hnot. rewrite Hmem, <- supportedb_spec; auto.
  - intros xs ys Hx Hy Hri Hrj.
    destruct (revise_overlap_spec cw d x y i j xs ys Hov Hxy Hx Hy Hri Hrj)
      as (d' & b & _ & Hrev & _).
    exists d', b; exact Hrev.
Qed.

Lemma revise_semantics_witness :
  (forall d' b,
     revise (zigzag [slot_top; slot_mid; slot_bot] [])
       [(slot_top, ["AB"; "CD"; "EF"]); (slot_mid, ["BAA"; "DIE"])]
       slot_top slot_mid = Ok (d', b) ->
     exists xs xs',
       Dict.get [(slot_top, ["AB"; "CD"; "EF"]); (slot_mid, ["BAA"; "DIE"])]
         slot_top = Some xs /\
       Dict.get d' slot_top = Some xs' /\
       (forall w, In w xs' <->
          In w xs /\
          exists u,
            In u (domain_of
                    [(slot_top, ["AB"; "CD"; "EF"]); (slot_mid, ["BAA"; "DIE"])]
                    slot_mid) /\ char_agree 1 0 w u) /\
       (forall v, v <> slot_top ->
          Dict.get d' v
          = Dict.get [(slot_top, ["AB"; "CD"; "EF"]); (slot_mid, ["BAA"; "DIE"])]
              v) /\
       Dict.keys d'
       = Dict.keys [(slot_top, ["AB"; "CD"; "EF"]); (slot_mid, ["BAA"; "DIE"])] /\
       (b = true <-> exists w, In w xs /\ ~ In w xs')) /\
  (exists d' b,
     revise (zigzag [slot_top; slot_mid; slot_bot] [])
       [(slot_top, ["AB"; "CD"; "EF"]); (slot_mid, ["BAA"; "DIE"])]
       slot_top slot_mid = Ok (d', b)).
Proof.
  destruct (proj2 (revise_semantics (zigzag [slot_top; slot_mid; slot_bot] [])
                     [(slot_top, ["AB"; "CD"; "EF"]); (slot_mid, ["BAA"; "DIE"])]
                     slot_top slot_mid ltac:(discriminate)) 1 0)
    as [Hpartial Htotal].
  - reflexivity.
  - split; [exact Hpartial|].
    apply (Htotal ["AB"; "CD"; "EF"] ["BAA"; "DIE"]).
    + reflexivity.
    + reflexivity.
    + simpl; intros w [<-|[<-|[<-|[]]]]; simpl; lia.
    + simpl; intros u [<-|[<-|[]]]; simpl; lia.
Defined.

(** ** Node consistency *)

Section NodeFacts.
Variable cw : Crossword.

Lemma prune_loop_spec (var : Var) (l : list string) :
  forall d0 cur, Dict.get d0 var = Some cur ->
  exists d1,
    foldM (prune_word var) l d0 = Ok d1 /\
    Dict.get d1 var
    = Some (filter (fun w => negb (memb w l)
                             || Nat.eqb (String.length w) (var_length var)) cur) /\
    shrinks d0 d1.
Proof.
  induction l as [|word l IH]; intros d0 cur Hget; simpl.
  - exists d0. split; [reflexivity|]. split; [|apply shrinks_refl].
    rewrite Hget; f_equal; symmetry; apply filter_all; reflexivity.
  - unfold prune_word at 1.
    destruct (Nat.eqb (String.length word) (var_length var)) eqn:Hlen; simpl.
    + destruct (IH d0 cur Hget) as (d1 & Hrun & Hd1 & Hs).
      exists d1. split; [exact Hrun|]. split; [|exact Hs].
      rewrite Hd1; f_equal. apply filter_ext_in; intros w _.
      destruct (string_dec w word) as [->|Hne].
      * rewrite Hlen, !orb_true_r; reflexivity.
      * rewrite memb_cons_ne by assumption; reflexivity.
    + rewrite (proj2 (lookup_Ok _ _ _) Hget); simpl.
      destruct (IH (Dict.set d0 var (remove string_dec word cur))
                   (remove string_dec word cur)) as (d1 & Hrun & Hd1 & Hs);
        [apply get_set_eq|].
      exists d1. split; [exact Hrun|]. split.
      * rewrite Hd1, remove_as_filter, filter_filter; f_equal.
        apply filter_ext_in; intros w _.
        destruct (string_dec w word) as [->|Hne].
        -- rewrite !memb_cons_eq, Hlen; reflexivity.
        -- rewrite !memb_cons_ne by assumption; reflexivity.
      * eapply shrinks_trans; [|exact Hs].
        eapply shrinks_set; [exact Hget|].
        intros w Hw; apply in_remove in Hw; tauto.
Qed.

Lemma prune_var_spec (d : domains) (var : Var) (ws : list string) :
  Dict.get d var = Some ws ->
  exists d1,
    prune_var d var = Ok d1 /\ shrinks d d1 /\
    Dict.get d1 var
    = Some (filter (fun w => Nat.eqb (String.length w) (var_length var)) ws).
Proof.
  intros Hget. unfold prune_var. rewrite (proj2 (lookup_Ok _ _ _) Hget); simpl.
  destruct (prune_loop_spec var ws d ws Hget) as (d1 & Hrun & Hd1 & Hs).
  exists d1. split; [exact Hrun|]. split; [exact Hs|].
  rewrite Hd1; f_equal. apply filter_ext_in; intros w Hin.
  rewrite (proj2 (memb_In w ws) Hin); reflexivity.
Qed.

Lemma enforce_loop_spec (vs : list Var) :
  forall d, (forall x, In x vs -> Dict.get d x <> None) ->
  exists d',
    foldM prune_var vs d = Ok d' /\ shrinks d d' /\
    forall x ws w, In x vs -> Dict.get d' x = Some ws -> In w ws ->
      String.length w = var_length x.
Proof.
  induction vs as [|var vs IH]; intros d Hcov; simpl.
  - exists d. split; [reflexivity|]. split; [apply shrinks_refl|]. tauto.
  - destruct (Dict.get d var) as [ws|] eqn:Hget;
      [|exfalso; apply (Hcov var); [left; reflexivity | assumption]].
    destruct (prune_var_spec d var ws Hget) as (d1 & Hrun & Hs1 & Hd1).
    rewrite Hrun; simpl.
    destruct (IH d1) as (d' & Hrun' & Hs' & Hlen).
    { intros x Hx. apply get_In_keys. rewrite (proj1 Hs1).
      apply get_In_keys. apply Hcov; right; assumption. }
    exists d'. split; [exact Hrun'|]. split; [eapply shrinks_trans; eassumption|].
    intros x ws' w [<-|Hx] Hg Hin; [|eapply Hlen; eassumption].
    destruct (proj2 Hs' _ _ Hg) as (ws1 & Hg1 & Hincl).
    rewrite Hd1 in Hg1; inversion Hg1; subst.
    apply Hincl, filter_In in Hin. apply Nat.eqb_eq; tauto.
Qed.

Lemma enforce_node_consistency_spec (d : domains) :
  covers cw d ->
  exists d', enforce_node_consistency cw d = Ok d' /\ shrinks d d' /\
             node_consistent cw d'.
Proof.
  intros Hcov. destruct (enforce_loop_spec (variables cw) d Hcov)
    as (d' & Hrun & Hs & Hlen).
  exists d'. split; [exact Hrun|]. split; [exact Hs|].
  intros x ws w Hx Hg Hin; eapply Hlen; eassumption.
Qed.

Lemma init_domains_covers : covers cw (init_domains cw).
Proof.
  unfold covers, init_domains.
  assert (G : forall vs (d : domains) x,
    In x vs \/ Dict.get d x <> None ->
    Dict.get (fold_left (fun d var => Dict.set d var (words cw)) vs d) x <> None).
  { induction vs as [|v vs IH]; intros d x H; simpl.
    - destruct H; [contradiction|assumption].
    - apply IH. destruct H as [[->|H]|H]; auto.
      + right; rewrite get_set_eq; discriminate.
      + right; rewrite get_set. destruct (Var_eq_dec v x); [discriminate|assumption]. }
  intros x Hx; apply G; left; assumption.
Qed.

End NodeFacts.

(** ** AC-3 *)

Section Ac3Facts.
Variable cw : Crossword.

(** The loop only removes words. *)
Lemma ac3_loop_shrinks (fuel : nat) :
  forall d arcs d' b,
  ac3_loop cw fuel d arcs = Ok (d', b) -> shrinks d d'.
Proof.
  induction fuel as [|fuel IH]; intros d arcs d' b H.
  - destruct arcs as [|[x y] rest]; simpl in H; [|discriminate].
    inversion H; subst; apply shrinks_refl.
  - destruct arcs as [|[x y] rest]; simpl in H.
    { inversion H; subst; apply shrinks_refl. }
    inv_bind H as st Hrev. destruct st as [d1 revised]; simpl in H.
    apply revise_monotone in Hrev. destruct Hrev as (Hs & _ & _).
    destruct revised.
    + inv_bind H as xs Hxs. destruct xs as [|w xs].
      * inversion H; subst; exact Hs.
      * destruct (in_dec Var_eq_dec y (neighbors cw x)); [|discriminate].
        eapply shrinks_trans; [exact Hs|]. eapply IH; exact H.
    + eapply shrinks_trans; [exact Hs|]. eapply IH; exact H.
Qed.

(** The loop ends within [ac3_fuel] turns, whatever the store and the queue. *)
Lemma ac3_loop_terminates (fuel : nat) :
  forall d arcs, ac3_fuel cw d arcs <= fuel ->
  ac3_loop cw fuel d arcs <> OutOfFuel.
Proof.
  induction fuel as [|fuel IH]; intros d arcs Hfuel.
  - destruct arcs as [|[x y] rest]; simpl; [discriminate|].
    unfold ac3_fuel in Hfuel; simpl in Hfuel; lia.
  - destruct arcs as [|[x y] rest]; simpl; [discriminate|].
    destruct (revise cw d x y) as [[d1 revised]| |] eqn:Hrev; simpl;
      [|discriminate|].
    + pose proof (revise_monotone cw x y _ _ _ Hrev) as (Hs & Hf & Ht).
      unfold ac3_fuel in *; simpl in Hfuel.
      destruct revised.
      * destruct (Ht eq_refl) as (Hlt & Hkey & _).
        unfold lookup.
        destruct (Dict.get d1 x) as [[|w xs]|]; simpl; try discriminate.
        destruct (in_dec Var_eq_dec y (neighbors cw x)); [|discriminate].
        apply IH. rewrite length_app, length_map.
        rewrite (max_degree_keys cw d d1 (proj1 Hs)).
        pose proof (remove_length_le Var_eq_dec (neighbors cw x) y).
        pose proof (degree_le_max cw d x Hkey).
        nia.
      * rewrite (Hf eq_refl). apply IH; lia.
    + exfalso; exact (revise_not_OutOfFuel cw d x y Hrev).
Qed.

Lemma ac3_shrinks (d : domains) (arcs : option (list (Var * Var)))
  (d' : domains) (b : bool) :
  ac3 cw d arcs = Ok (d', b) -> shrinks d d'.
Proof. unfold ac3; apply ac3_loop_shrinks. Qed.

Lemma ac3_terminates (d : domains) (arcs : option (list (Var * Var))) :
  ac3 cw d arcs <> OutOfFuel.
Proof. unfold ac3; apply ac3_loop_terminates; apply le_n. Qed.

End Ac3Facts.

(** C8 (length invariant of the domain store).  On a store that has a domain
    for every slot, [enforce_node_consistency] returns normally and leaves
    only words as long as their slot.  [revise] and [ac3] only remove words,
    so each of them takes a node-consistent store to a node-consistent store;
    in particular the store that [solve] hands to the search is
    node-consistent. *)
Theorem length_invariant (cw : Crossword) (d : domains) :
  covers cw d ->
  exists d1,
    enforce_node_consistency cw d = Ok d1 /\ node_consistent cw d1 /\
    (forall dA x y dB b,
       node_consistent cw dA -> revise cw dA x y = Ok (dB, b) ->
       shrinks dA dB /\ node_consistent cw dB) /\
    (forall dA arcs dB b,
       node_consistent cw dA -> ac3 cw dA arcs = Ok (dB, b) ->
       shrinks dA dB /\ node_consistent cw dB) /\
    (forall d2 b, ac3 cw d1 None = Ok (d2, b) -> node_consistent cw d2).
Proof.
  intros Hcov.
  destruct (enforce_node_consistency_spec cw d Hcov) as (d1 & Hrun & _ & Hnc).
  exists d1. split; [exact Hrun|]. split; [exact Hnc|].
  split; [|split].
  - intros dA x y dB b HA Hrev.
    pose proof (proj1 (revise_monotone cw x y _ _ _ Hrev)) as Hs.
    split; [exact Hs | eapply shrinks_node_consistent; eassumption].
  - intros dA arcs dB b HA Hac.
    pose proof (ac3_shrinks cw _ _ _ _ Hac) as Hs.
    split; [exact Hs | eapply shrinks_node_consistent; eassumption].
  - intros d2 b Hac.
    eapply shrinks_node_consistent; [eapply ac3_shrinks; exact Hac | exact Hnc].
Qed.

Lemma length_invariant_witness :
  exists d1,
    enforce_node_consistency
      (zigzag [slot_top; slot_mid; slot_bot] ["AB"; "BAA"; "A"])
      (init_domains (zigzag [slot_top; slot_mid; slot_bot] ["AB"; "BAA"; "A"]))
    = Ok d1 /\
    node_consistent (zigzag [slot_top; slot_mid; slot_bot] ["AB"; "BAA"; "A"]) d1 /\
    (forall dA x y dB b,
       node_consistent (zigzag [slot_top; slot_mid; slot_bot] ["AB"; "BAA"; "A"]) dA ->
       revise (zigzag [slot_top; slot_mid; slot_bot] ["AB"; "BAA"; "A"]) dA x y
       = Ok (dB, b) ->
       shrinks dA dB /\
       node_consistent (zigzag [slot_top; slot_mid; slot_bot] ["AB"; "BAA"; "A"]) dB) /\
    (forall dA arcs dB b,
       node_consistent (zigzag [slot_top; slot_mid; slot_bot] ["AB"; "BAA"; "A"]) dA ->
       ac3 (zigzag [slot_top; slot_mid; slot_bot] ["AB"; "BAA"; "A"]) dA arcs
       = Ok (dB, b) ->
       shrinks dA dB /\
       node_consistent (zigzag [slot_top; slot_mid; slot_bot] ["AB"; "BAA"; "A"]) dB) /\
    (forall d2 b,
       ac3 (zigzag [slot_top; slot_mid; slot_bot] ["AB"; "BAA"; "A"]) d1 None
       = Ok (d2, b) ->
       node_consistent (zigzag [slot_top; slot_mid; slot_bot] ["AB"; "BAA"; "A"]) d2).
Proof.
  apply length_invariant.
  intros x [<-|[<-|[<-|[]]]]; vm_compute; discriminate.
Defined.

(** ** Arc consistency after AC-3 *)

Lemma char_agree_sym (i j : nat) (w u : string) :
  char_agree i j w u -> char_agree j i u w.
Proof. intros (c & H1 & H2); exists c; auto. Qed.

Section Ac3Closure.
Variable cw : Crossword.
Hypothesis Hwf : well_formed cw.

(** What the graph gives of a slot and one of its neighbors. *)
Lemma neighbor_facts (x y : Var) :
  In x (variables cw) -> In y (neighbors cw x) ->
  In y (variables cw) /\ x <> y /\ In x (neighbors cw y) /\
  exists i j, overlaps cw x y = Some (i, j) /\ overlaps cw y x = Some (j, i) /\
              i < var_length x /\ j < var_length y.
Proof.
  intros Hx Hy.
  destruct (proj1 (wf_neighbors cw Hwf x y Hx) Hy) as [Hyv Hov].
  destruct (overlaps cw x y) as [[i j]|] eqn:E; [|congruence].
  pose proof (wf_sym cw Hwf x y i j Hx Hyv E) as Hsym.
  pose proof (wf_index cw Hwf x y i j Hx Hyv E) as [Hi Hj].
  split; [exact Hyv|]. split.
  - intros ->. rewrite (wf_irrefl cw Hwf y Hx) in E; discriminate.
  - split.
    + apply (wf_neighbors cw Hwf y x Hyv). split; [exact Hx|congruence].
    + exists i, j; auto.
Qed.

Lemma all_arcs_spec (x y : Var) :
  In (x, y) (all_arcs cw) <-> In x (variables cw) /\ In y (neighbors cw x).
Proof.
  unfold all_arcs. rewrite in_flat_map. split.
  - intros (v & Hv & Hin). apply in_map_iff in Hin.
    destruct Hin as (n & Heq & Hn). inversion Heq; subst; auto.
  - intros [Hx Hy]. exists x; split; [exact Hx|].
    apply in_map_iff. exists y; auto.
Qed.

Lemma ac3_invariant_init (d : domains) :
  covers cw d -> node_consistent cw d -> ac3_invariant cw d (all_arcs cw).
Proof.
  intros Hc Hn. constructor; auto.
  - intros x y; apply all_arcs_spec.
  - intros x y Hx Hy; left; apply all_arcs_spec; auto.
Qed.

(** One turn of the loop on a queue that starts with the arc [(x, y)]. *)
Lemma ac3_step (d : domains) (x y : Var) (rest : list (Var * Var)) :
  ac3_invariant cw d ((x, y) :: rest) ->
  exists d1 b,
    revise cw d x y = Ok (d1, b) /\ Dict.get d1 x <> None /\
    (b = false -> ac3_invariant cw d1 rest) /\
    (b = true ->
       In y (neighbors cw x) /\
       ac3_invariant cw d1
         (rest ++ map (fun z => (z, x)) (remove Var_eq_dec y (neighbors cw x)))).
Proof.
  intros [Hcov Hnode Harcs Hpend].
  destruct (Harcs x y (or_introl eq_refl)) as [Hx Hyn].
  destruct (neighbor_facts x y Hx Hyn)
    as (Hy & Hxy & Hxn & i & j & Hov & Hov' & Hi & Hj).
  destruct (Dict.get d x) as [xs|] eqn:Hgx; [|exfalso; exact (Hcov x Hx Hgx)].
  destruct (Dict.get d y) as [ys|] eqn:Hgy; [|exfalso; exact (Hcov y Hy Hgy)].
  destruct (revise_overlap_spec cw d x y i j xs ys Hov Hxy Hgx Hgy)
    as (d1 & b & xs' & Hrev & Hx1 & Hmem & Hother & Hkeys & Hb).
  { intros w Hw. rewrite (Hnode x xs w Hx Hgx Hw); exact Hi. }
  { intros u Hu. rewrite (Hnode y ys u Hy Hgy Hu); exact Hj. }
  pose proof (revise_monotone cw x y _ _ _ Hrev) as (Hs & Hfalse & _).
  assert (Hcov1 : covers cw d1) by (eapply shrinks_covers; eassumption).
  assert (Hnode1 : node_consistent cw d1)
    by (eapply shrinks_node_consistent; eassumption).
  assert (Hgy1 : Dict.get d1 y = Some ys)
    by (rewrite Hother by congruence; exact Hgy).
  (* the arc just revised is supported *)
  assert (P1 : arc_supported cw d1 x y).
  { intros i0 j0 xs0 ys0 Hov0 Hg0 Hg0' w Hw.
    rewrite Hov in Hov0; inversion Hov0; subst i0 j0.
    rewrite Hx1 in Hg0; inversion Hg0; subst xs0.
    rewrite Hgy1 in Hg0'; inversion Hg0'; subst ys0.
    apply Hmem; exact Hw. }
  exists d1, b. split; [exact Hrev|]. split; [rewrite Hx1; discriminate|].
  split.
  - intros ->. rewrite (Hfalse eq_refl) in *. constructor; auto.
    + intros a c Hin; apply Harcs; right; exact Hin.
    + intros a c Ha Hc. destruct (Hpend a c Ha Hc) as [[Heq|Hin]|Hsup]; auto.
      inversion Heq; subst a c. right; exact P1.
  - intros ->. split; [exact Hyn|]. constructor; auto.
    + intros a c Hin. apply in_app_or in Hin. destruct Hin as [Hin|Hin].
      * apply Harcs; right; exact Hin.
      * apply in_map_iff in Hin. destruct Hin as (z & Heq & Hz).
        inversion Heq; subst a c. apply in_remove in Hz. destruct Hz as [Hz _].
        destruct (neighbor_facts x z Hx Hz) as (Hzv & _ & Hxz & _). auto.
    + intros a c Ha Hc.
      destruct (neighbor_facts a c Ha Hc)
        as (Hcv & Hac & Hca & i0 & j0 & Hov0 & Hov0' & _).
      destruct (Var_eq_dec a x) as [->|Hax].
      * destruct (Var_eq_dec c y) as [->|Hcy]; [right; exact P1|].
        destruct (Hpend x c Ha Hc) as [[Heq|Hin]|Hsup].
        -- inversion Heq; congruence.
        -- left; apply in_or_app; left; exact Hin.
        -- right. intros i1 j1 xs1 ys1 Hov1 Hg1 Hg1' w Hw.
           rewrite Hx1 in Hg1; inversion Hg1; subst xs1.
           rewrite Hother in Hg1' by congruence.
           apply (Hsup i1 j1 xs ys1 Hov1 Hgx Hg1' w).
           apply Hmem in Hw; tauto.
      * destruct (Var_eq_dec c x) as [->|Hcx].
        -- destruct (Var_eq_dec a y) as [->|Hay].
           ++ destruct (Hpend y x Ha Hc) as [[Heq|Hin]|Hsup].
              ** inversion Heq; congruence.
              ** left; apply in_or_app; left; exact Hin.
              ** right. intros i1 j1 ys1 xs1 Hov1 Hg1 Hg1' w Hw.
                 rewrite Hgy1 in Hg1; inversion Hg1; subst ys1.
                 rewrite Hx1 in Hg1'; inversion Hg1'; subst xs1.
                 rewrite Hov' in Hov1; inversion Hov1; subst i1 j1.
                 destruct (Hsup j i ys xs Hov' Hgy Hgx w Hw) as (u & Hu & Hagree).
                 exists u; split; [|exact Hagree].
                 apply Hmem. split; [exact Hu|].
                 exists w; split; [exact Hw | apply char_agree_sym; exact Hagree].
           ++ left; apply in_or_app; right.
              apply in_map_iff. exists a; split; [reflexivity|].
              apply in_in_remove; [exact Hay | exact Hca].
        -- destruct (Hpend a c Ha Hc) as [[Heq|Hin]|Hsup].
           ++ inversion Heq; congruence.
           ++ left; apply in_or_app; left; exact Hin.
           ++ right. intros i1 j1 xs1 ys1 Hov1 Hg1 Hg1' w Hw.
              rewrite Hother in Hg1, Hg1' by congruence.
              exact (Hsup i1 j1 xs1 ys1 Hov1 Hg1 Hg1' w Hw).
Qed.

(** The loop raises nothing on a queue of arcs of the graph, and when it
    reports success every arc of the graph is supported. *)
Lemma ac3_loop_closure (fuel : nat) :
  forall d arcs, ac3_invariant cw d arcs ->
  match ac3_loop cw fuel d arcs with
  | Ok (d', true) => arc_consistent cw d'
  | Ok (_, false) => True
  | Raise _ => False
  | OutOfFuel => True
  end.
Proof.
  induction fuel as [|fuel IH]; intros d arcs Hinv.
  - destruct arcs as [|[x y] rest]; simpl; [|exact I].
    intros x y Hx Hy. destruct (inv_pending cw d [] Hinv x y Hx Hy) as [[]|H]; exact H.
  - destruct arcs as [|[x y] rest]; simpl.
    { intros x y Hx Hy. destruct (inv_pending cw d [] Hinv x y Hx Hy) as [[]|H]; exact H. }
    destruct (ac3_step d x y rest Hinv) as (d1 & b & Hrev & Hgx & Hf & Ht).
    rewrite Hrev; simpl. destruct b.
    + destruct (Ht eq_refl) as [Hyn Hinv1].
      unfold lookup. destruct (Dict.get d1 x) as [[|w xs]|]; simpl;
        [exact I| |congruence].
      destruct (in_dec Var_eq_dec y (neighbors cw x)); [|contradiction].
      apply IH; exact Hinv1.
    + apply IH; apply Hf; reflexivity.
Qed.

Lemma ac3_closure (d : domains) :
  covers cw d -> node_consistent cw d ->
  exists d' b, ac3 cw d None = Ok (d', b) /\ shrinks d d' /\
               (b = true -> arc_consistent cw d').
Proof.
  intros Hc Hn.
  pose proof (ac3_loop_closure (ac3_fuel cw d (all_arcs cw)) d (all_arcs cw)
                (ac3_invariant_init d Hc Hn)) as H.
  pose proof (ac3_terminates cw d None) as Hfuel.
  unfold ac3 in *.
  destruct (ac3_loop cw (ac3_fuel cw d (all_arcs cw)) d (all_arcs cw))
    as [[d' b]| |] eqn:E; [|contradiction|congruence].
  exists d', b. split; [reflexivity|].
  split; [eapply ac3_loop_shrinks; exact E|].
  intros ->; exact H.
Qed.

End Ac3Closure.

(** C7 (arc-consistency closure).  On a well-formed graph and a
    node-consistent store with a domain for every slot, [ac3()] called
    without arcs returns normally; when it returns [True], for every slot
    [x], every neighbor [y] of [x] and every word left in the domain of [x]
    there is a word in the domain of [y] with the same character at the
    overlap of the two slots. *)
Theorem ac3_arc_consistency (cw : Crossword) (d : domains) :
  well_formed cw -> covers cw d -> node_consistent cw d ->
  exists d' b,
    ac3 cw d None = Ok (d', b) /\
    (b = true ->
     forall x y i j xs ys w,
       In x (variables cw) -> In y (neighbors cw x) ->
       overlaps cw x y = Some (i, j) ->
       Dict.get d' x = Some xs -> Dict.get d' y = Some ys -> In w xs ->
       exists u, In u ys /\ char_agree i j w u).
Proof.
  intros Hwf Hc Hn.
  destruct (ac3_closure cw Hwf d Hc Hn) as (d' & b & Hrun & _ & Hac).
  exists d', b. split; [exact Hrun|].
  intros Hb x y i j xs ys w Hx Hy Hov Hgx Hgy Hw.
  exact (Hac Hb x y Hx Hy i j xs ys Hov Hgx Hgy w Hw).
Qed.

Lemma ac3_arc_consistency_witness :
  exists d' b,
    ac3 (zigzag [slot_top; slot_mid; slot_bot] [])
        [(slot_top, ["AB"; "CD"; "EF"]); (slot_mid, ["BAA"; "DIE"; "FIG"]);
         (slot_bot, ["AB"; "EF"])] None = Ok (d', b) /\
    (b = true ->
     forall x y i j xs ys w,
       In x (variables (zigzag [slot_top; slot_mid; slot_bot] [])) ->
       In y (neighbors (zigzag [slot_top; slot_mid; slot_bot] []) x) ->
       overlaps (zigzag [slot_top; slot_mid; slot_bot] []) x y = Some (i, j) ->
       Dict.get d' x = Some xs -> Dict.get d' y = Some ys -> In w xs ->
       exists u, In u ys /\ char_agree i j w u).
Proof.
  apply ac3_arc_consistency.
  - apply well_formedb_sound; reflexivity.
  - intros x [<-|[<-|[<-|[]]]]; vm_compute; discriminate.
  - intros x ws w [<-|[<-|[<-|[]]]] Hget Hin; vm_compute in Hget;
      inversion Hget; subst ws; simpl in Hin;
      repeat (destruct Hin as [<-|Hin]; [reflexivity|]); contradiction.
Defined.

(** ** Sorting by key *)

Section SortedFacts.
Context {K A : Type} (leb : K -> K -> bool).
Hypothesis leb_total : forall a b, leb a b = true \/ leb b a = true.
Hypothesis leb_trans : forall a b c,
  leb a b = true -> leb b c = true -> leb a c = true.

Lemma In_insert_sorted (x y : K * A) (l : list (K * A)) :
  In y (insert_sorted leb x l) <-> y = x \/ In y l.
Proof.
  induction l as [|z l IH]; simpl.
  - split; intros [H|H]; auto.
  - destruct (leb (fst x) (fst z)); simpl; [split; intros [H|H]; auto|].
    rewrite IH; tauto.
Qed.

Lemma In_sorted (y : K * A) (l : list (K * A)) :
  In y (sorted leb l) <-> In y l.
Proof.
  induction l as [|x l IH]; simpl; [tauto|].
  rewrite In_insert_sorted, IH. split; intros [H|H]; auto.
Qed.

Lemma insert_sorted_ordered (x : K * A) (l : list (K * A)) :
  ordered leb l -> ordered leb (insert_sorted leb x l).
Proof.
  unfold ordered. induction l as [|z l IH]; intros Hl; simpl.
  - constructor; constructor.
  - apply StronglySorted_inv in Hl. destruct Hl as [Hl Hz].
    destruct (leb (fst x) (fst z)) eqn:Hxz.
    + constructor; [constructor; assumption|].
      constructor; [exact Hxz|].
      rewrite Forall_forall in *. intros q Hq.
      eapply leb_trans; [exact Hxz | apply Hz; exact Hq].
    + constructor; [apply IH; exact Hl|].
      rewrite Forall_forall in *. intros q Hq.
      apply In_insert_sorted in Hq. destruct Hq as [->|Hq]; [|auto].
      destruct (leb_total (fst x) (fst z)); congruence.
Qed.

Lemma sorted_ordered (l : list (K * A)) : ordered leb (sorted leb l).
Proof.
  induction l as [|x l IH]; simpl; [constructor|].
  apply insert_sorted_ordered; exact IH.
Qed.

(** The first element of an ordered list that passes a test has the least
    key among those that pass it. *)
Lemma find_ordered (p : A -> bool) (l : list (K * A)) (e : A) :
  ordered leb l -> find p (map snd l) = Some e ->
  p e = true /\
  exists k, In (k, e) l /\
    forall k' v, In (k', v) l -> p v = true -> leb k k' = true.
Proof.
  unfold ordered. induction l as [|[k0 v0] l IH]; intros Hl Hfind; simpl in *;
    [discriminate|].
  apply StronglySorted_inv in Hl. destruct Hl as [Hl H0].
  destruct (p v0) eqn:Hp.
  - inversion Hfind; subst e. split; [exact Hp|].
    exists k0. split; [left; reflexivity|].
    intros k' v [Heq|Hin] _.
    + inversion Heq; subst. destruct (leb_total k' k'); assumption.
    + rewrite Forall_forall in H0. apply (H0 _ Hin).
  - destruct (IH Hl Hfind) as (Hpe & k & Hin & Hmin).
    split; [exact Hpe|]. exists k. split; [right; exact Hin|].
    intros k' v [Heq|Hin'] Hpv; [|eauto].
    inversion Heq; subst. congruence.
Qed.

Lemma find_sorted_none (p : A -> bool) (l : list (K * A)) :
  find p (map snd (sorted leb l)) = None ->
  forall k v, In (k, v) l -> p v = false.
Proof.
  intros Hfind k v Hin.
  apply (find_none _ _ Hfind). apply in_map_iff.
  exists (k, v); split; [reflexivity | apply In_sorted; exact Hin].
Qed.

End SortedFacts.

Lemma key_leb_total (a b : nat * nat) :
  key_leb a b = true \/ key_leb b a = true.
Proof.
  unfold key_leb. destruct a as [a1 a2], b as [b1 b2]; simpl.
  destruct (Nat.ltb a1 b1) eqn:E1; [left; reflexivity|].
  destruct (Nat.ltb b1 a1) eqn:E2; [right; reflexivity|].
  apply Nat.ltb_ge in E1, E2. assert (a1 = b1) by lia; subst.
  rewrite Nat.eqb_refl; simpl.
  destruct (Nat.leb a2 b2) eqn:E3; [left; reflexivity|].
  right. apply Nat.leb_le. apply Nat.leb_gt in E3; lia.
Qed.

Lemma key_leb_spec (a b : nat * nat) :
  key_leb a b = true <->
  fst a < fst b \/ (fst a = fst b /\ snd a <= snd b).
Proof.
  unfold key_leb. rewrite orb_true_iff, andb_true_iff,
    Nat.ltb_lt, Nat.eqb_eq, Nat.leb_le. tauto.
Qed.

Lemma key_leb_trans (a b c : nat * nat) :
  key_leb a b = true -> key_leb b c = true -> key_leb a c = true.
Proof. rewrite !key_leb_spec; lia. Qed.

(** The results of a [mapM] that ends, paired with their arguments. *)
Lemma mapM_combine {A B : Type} (f : A -> result B) (l : list A) (bs : list B) :
  mapM f l = Ok bs ->
  (forall a b, In (b, a) (combine bs l) -> In a l /\ f a = Ok b) /\
  (forall a, In a l -> exists b, f a = Ok b /\ In (b, a) (combine bs l)).
Proof.
  revert bs; induction l as [|a0 l IH]; intros bs H; simpl in H.
  - inversion H; subst; simpl; split; [tauto | intros a []].
  - inv_bind H as b0 Hb0. inv_bind H as bs' Hbs'. inversion H; subst bs.
    destruct (IH bs' Hbs') as [IH1 IH2]. simpl; split.
    + intros a b [Heq|Hin].
      * inversion Heq; subst; auto.
      * destruct (IH1 a b Hin); auto.
    + intros a [<-|Hin].
      * exists b0; auto.
      * destruct (IH2 a Hin) as (b & Hb & Hin'). exists b; auto.
Qed.

Lemma mapM_total {A B : Type} (f : A -> result B) (l : list A) :
  (forall a, In a l -> exists b, f a = Ok b) -> exists bs, mapM f l = Ok bs.
Proof.
  induction l as [|a l IH]; intros H; simpl; [eauto|].
  destruct (H a (or_introl eq_refl)) as [b Hb]. rewrite Hb; simpl.
  destruct IH as [bs Hbs]; [intros; apply H; right; assumption|].
  rewrite Hbs; simpl; eauto.
Qed.

(** ** Completeness check and variable selection *)

Lemma truthy_false (a : assignment) (v : Var) :
  truthy (Dict.get a v) = false <-> unassigned a v.
Proof.
  unfold unassigned. destruct (Dict.get a v) as [[|c w]|]; simpl.
  - split; auto.
  - split; [discriminate | intros [H|H]; discriminate].
  - split; auto.
Qed.

Lemma truthy_true (a : assignment) (v : Var) :
  truthy (Dict.get a v) = true <->
  exists w, Dict.get a v = Some w /\ w <> "".
Proof.
  destruct (Dict.get a v) as [[|c w]|]; simpl; split; try discriminate.
  - intros (w & H & Hne). inversion H; subst; congruence.
  - intros _. exists (String c w); split; [reflexivity|discriminate].
  - reflexivity.
  - intros (w & H & _); discriminate.
Qed.

Section SelectFacts.
Variable cw : Crossword.

Lemma select_key_Ok (d : domains) (x : Var) (k : nat * nat) :
  select_key cw d x = Ok k ->
  Dict.get d x <> None /\ k = (domain_size d x, degree cw x).
Proof.
  unfold select_key, domain_size, degree, lookup.
  destruct (Dict.get d x); simpl; intros H; inversion H; subst.
  split; [discriminate|reflexivity].
Qed.

Lemma select_key_covers (d : domains) (x : Var) :
  Dict.get d x <> None ->
  select_key cw d x = Ok (domain_size d x, degree cw x).
Proof.
  unfold select_key, domain_size, degree, lookup.
  destruct (Dict.get d x); simpl; [reflexivity|congruence].
Qed.

(** The slot returned has no word in the assignment, and its key is the
    least among the slots without a word. *)
Lemma select_some (d : domains) (a : assignment) (e : Var) :
  select_unassigned_variable cw d a = Ok (Some e) ->
  In e (variables cw) /\ unassigned a e /\
  forall v, In v (variables cw) -> unassigned a v ->
    key_leb (domain_size d e, degree cw e) (domain_size d v, degree cw v) = true.
Proof.
  unfold select_unassigned_variable. intros H.
  inv_bind H as ks Hks. injection H as Hfind.
  destruct (mapM_combine _ _ _ Hks) as [Hc1 Hc2].
  apply (find_ordered key_leb key_leb_total key_leb_trans) in Hfind;
    [|exact (sorted_ordered key_leb key_leb_total key_leb_trans _)].
  destruct Hfind as (Hp & k & Hin & Hmin).
  apply In_sorted in Hin. destruct (Hc1 _ _ Hin) as [He Hke].
  apply select_key_Ok in Hke. destruct Hke as [_ ->].
  split; [exact He|]. split.
  - apply truthy_false. apply negb_true_iff in Hp; exact Hp.
  - intros v Hv Huv. destruct (Hc2 v Hv) as (kv & Hkv & Hinv).
    apply select_key_Ok in Hkv. destruct Hkv as [_ ->].
    apply (Hmin _ v).
    + apply In_sorted; exact Hinv.
    + apply negb_true_iff. apply truthy_false; exact Huv.
Qed.

Lemma select_none (d : domains) (a : assignment) :
  select_unassigned_variable cw d a = Ok None ->
  assignment_complete cw a = true.
Proof.
  unfold select_unassigned_variable, assignment_complete. intros H.
  inv_bind H as ks Hks. injection H as Hfind.
  destruct (mapM_combine _ _ _ Hks) as [_ Hc2].
  apply forallb_forall. intros v Hv. destruct (Hc2 v Hv) as (kv & _ & Hin).
  pose proof (find_sorted_none key_leb _ _ Hfind kv v Hin) as Hn.
  apply negb_false_iff in Hn; exact Hn.
Qed.

Lemma select_total (d : domains) (a : assignment) :
  covers cw d -> exists r, select_unassigned_variable cw d a = Ok r.
Proof.
  intros Hcov. unfold select_unassigned_variable.
  destruct (mapM_total (select_key cw d) (variables cw)) as [ks Hks].
  - intros x Hx. rewrite select_key_covers by auto. eauto.
  - rewrite Hks; simpl; eauto.
Qed.

Lemma assignment_complete_true (a : assignment) :
  assignment_complete cw a = true <->
  forall v, In v (variables cw) -> exists w, Dict.get a v = Some w /\ w <> "".
Proof.
  unfold assignment_complete. rewrite forallb_forall.
  split; intros H v Hv; apply truthy_true; auto.
Qed.

Lemma assignment_complete_false (a : assignment) :
  assignment_complete cw a = false <->
  exists v, In v (variables cw) /\ unassigned a v.
Proof.
  split.
  - unfold assignment_complete.
    induction (variables cw) as [|v l IH]; simpl; [discriminate|].
    destruct (truthy (Dict.get a v)) eqn:E; simpl; intros H.
    + destruct (IH H) as (u & Hu & Hf). exists u; auto.
    + exists v; split; [left; reflexivity | apply truthy_false; exact E].
  - intros (v & Hv & Hu). apply truthy_false in Hu.
    destruct (assignment_complete cw a) eqn:E; [|reflexivity].
    unfold assignment_complete in E. rewrite forallb_forall in E.
    rewrite (E v Hv) in Hu; discriminate.
Qed.

End SelectFacts.

(** C10 (the empty string counts as unassigned).  [assignment_complete]
    returns [True] iff every slot of the graph has an entry with a non-empty
    word; a slot without entry, or with the empty string, makes it return
    [False].  [select_unassigned_variable] returns only such slots, and
    returns one whenever there is one. *)
Theorem empty_string_is_unassigned (cw : Crossword) (d : domains)
  (a : assignment) :
  (assignment_complete cw a = true <->
   forall v, In v (variables cw) ->
     exists w, Dict.get a v = Some w /\ w <> "") /\
  (forall v, In v (variables cw) ->
     Dict.get a v = None \/ Dict.get a v = Some "" ->
     assignment_complete cw a = false) /\
  (forall v, select_unassigned_variable cw d a = Ok (Some v) ->
     In v (variables cw) /\
     (Dict.get a v = None \/ Dict.get a v = Some "")) /\
  (covers cw d ->
   (exists v, In v (variables cw) /\
              (Dict.get a v = None \/ Dict.get a v = Some "")) ->
   exists e, select_unassigned_variable cw d a = Ok (Some e)).
Proof.
  split; [apply assignment_complete_true|].
  split; [intros v Hv Hu; apply assignment_complete_false; exists v; auto|].
  split.
  - intros v H. destruct (select_some cw d a v H) as (Hv & Hu & _). auto.
  - intros Hcov Hex. destruct (select_total cw d a Hcov) as [[e|] Hr].
    + exists e; exact Hr.
    + apply select_none in Hr.
      apply assignment_complete_false in Hex. congruence.
Qed.

Lemma empty_string_is_unassigned_witness :
  assignment_complete (zigzag [slot_top; slot_mid; slot_bot] tie_vocabulary)
    [(slot_top, "AB"); (slot_mid, ""); (slot_bot, "BA")] = false /\
  select_unassigned_variable
    (zigzag [slot_top; slot_mid; slot_bot] tie_vocabulary) tie_domains
    [(slot_top, "AB"); (slot_mid, ""); (slot_bot, "BA")] = Ok (Some slot_mid).
Proof.
  split.
  - apply (proj1 (proj2 (empty_string_is_unassigned
             (zigzag [slot_top; slot_mid; slot_bot] tie_vocabulary)
             tie_domains
             [(slot_top, "AB"); (slot_mid, ""); (slot_bot, "BA")])) slot_mid).
    + simpl; auto.
    + right; reflexivity.
  - reflexivity.
Defined.

(** ** Value ordering *)

Lemma foldM_ext {A B : Type} (f g : A -> B -> result A) (l : list B) :
  (forall a b, In b l -> f a b = g a b) ->
  forall a, foldM f l a = foldM g l a.
Proof.
  induction l as [|b l IH]; intros H a; simpl; [reflexivity|].
  rewrite (H a b (or_introl eq_refl)). destruct (g a b); simpl; auto.
  apply IH. intros; apply H; right; assumption.
Qed.

Lemma mapM_ext {A B : Type} (f g : A -> result B) (l : list A) :
  (forall a, In a l -> f a = g a) -> mapM f l = mapM g l.
Proof.
  induction l as [|a l IH]; intros H; simpl; [reflexivity|].
  rewrite (H a (or_introl eq_refl)), IH; [reflexivity|].
  intros; apply H; right; assumption.
Qed.

(** The score of a value reads the store at the neighbors of the slot only. *)
Lemma least_constraning_frame (cw : Crossword) (d d' : domains) (var : Var)
  (value : string) :
  (forall z, In z (neighbors cw var) -> Dict.get d z = Dict.get d' z) ->
  least_constraning cw d var value = least_constraning cw d' var value.
Proof.
  intros H. unfold least_constraning. apply foldM_ext. intros n z Hz.
  destruct (overlaps cw var z) as [[i j]|]; [|reflexivity].
  unfold lookup. rewrite (H z Hz). reflexivity.
Qed.

(** C9 (value ordering ignores the assignment).  For one store and one slot,
    [order_domain_values] returns the same list, or raises the same
    exception, whatever the assignment.  More generally the outcome is the
    same for two assignments and two stores that give the same domain to the
    slot and to each of its neighbors: it depends on the slot, on these
    domains and on the graph only. *)
Theorem order_domain_values_ignores_assignment (cw : Crossword) (d : domains)
  (var : Var) :
  (forall a1 a2,
     order_domain_values cw d var a1 = order_domain_values cw d var a2) /\
  (forall d' a1 a2,
     Dict.get d var = Dict.get d' var ->
     (forall z, In z (neighbors cw var) -> Dict.get d z = Dict.get d' z) ->
     order_domain_values cw d var a1 = order_domain_values cw d' var a2).
Proof.
  split; [reflexivity|].
  intros d' a1 a2 Hvar Hn. unfold order_domain_values, lookup.
  rewrite <- Hvar. destruct (Dict.get d var) as [ws|]; simpl; [|reflexivity].
  rewrite (mapM_ext _ (least_constraning cw d' var)); [reflexivity|].
  intros value _. apply least_constraning_frame; exact Hn.
Qed.

Lemma order_domain_values_ignores_assignment_witness :
  order_domain_values (zigzag [slot_top; slot_mid; slot_bot] stuck_vocabulary)
    stuck_domains slot_top []
  = order_domain_values (zigzag [slot_top; slot_mid; slot_bot] stuck_vocabulary)
      [(slot_top, ["AB"; "CD"]);
       (slot_mid, ["BAA"; "BOA"; "BRA"; "DIE"; "DIG"]); (slot_bot, [])]
      slot_top [(slot_mid, "DIE"); (slot_bot, "")] /\
  order_domain_values (zigzag [slot_top; slot_mid; slot_bot] stuck_vocabulary)
    stuck_domains slot_top [] = Ok ["AB"; "CD"].
Proof.
  split; [|reflexivity].
  apply (proj2 (order_domain_values_ignores_assignment
                  (zigzag [slot_top; slot_mid; slot_bot] stuck_vocabulary)
                  stuck_domains slot_top)).
  - reflexivity.
  - simpl. intros z [<-|[]]. reflexivity.
Defined.

(** ** Variable selection: ties on the domain size *)

(** The slot returned has the fewest words among the slots without a word,
    and among those with as few words it has the fewest neighbors. *)
Lemma select_minimises (cw : Crossword) (d : domains) (a : assignment)
  (e v : Var) :
  select_unassigned_variable cw d a = Ok (Some e) ->
  In v (variables cw) -> unassigned a v ->
  domain_size d e <= domain_size d v /\
  (domain_size d e = domain_size d v -> degree cw e <= degree cw v).
Proof.
  intros Hsel Hv Hu. destruct (select_some cw d a e Hsel) as (_ & _ & Hmin).
  specialize (Hmin v Hv Hu). apply key_leb_spec in Hmin; simpl in Hmin. lia.
Qed.

(** On the tie of the three slots of the grid the slot with two neighbors is
    not returned, in whatever order the set of slots is enumerated. *)
Lemma select_tie_any_order (vars : list Var) :
  (forall v, In v vars <-> In v [slot_top; slot_mid; slot_bot]) ->
  exists e,
    select_unassigned_variable (zigzag vars tie_vocabulary) tie_domains []
    = Ok (Some e) /\
    degree (zigzag vars tie_vocabulary) e = 1 /\
    domain_size tie_domains e = domain_size tie_domains slot_mid.
Proof.
  intros Hvars.
  destruct (select_total (zigzag vars tie_vocabulary) tie_domains []) as [r Hr].
  { intros x Hx. apply Hvars in Hx.
    destruct Hx as [<-|[<-|[<-|[]]]]; vm_compute; discriminate. }
  destruct r as [e|].
  - exists e. split; [exact Hr|].
    destruct (select_some _ _ _ _ Hr) as (He & _ & _).
    pose proof (select_minimises _ _ _ e slot_top Hr) as Hmin.
    simpl in He. apply Hvars in He.
    destruct He as [<-|[<-|[<-|[]]]]; try (split; reflexivity).
    exfalso. destruct Hmin as [_ Hmin].
    + simpl. apply Hvars. simpl; auto.
    + left; reflexivity.
    + specialize (Hmin eq_refl). vm_compute in Hmin. lia.
  - apply select_none in Hr. unfold assignment_complete in Hr.
    rewrite forallb_forall in Hr.
    assert (Hin : In slot_top vars) by (apply Hvars; simpl; auto).
    specialize (Hr slot_top Hin). discriminate.
Qed.

(** C5 (variable selection), at a tie.  After node and arc consistency on
    the vocabulary AB, BA, BAB, ABA every slot of the grid has two words;
    [slot_mid] has two neighbors, the other two slots one each.  With
    nothing assigned the function returns [slot_top], a slot of minimal
    domain size but of the lowest, not the highest, neighbor count. *)
Theorem select_unassigned_variable_tie :
  (d1 <- enforce_node_consistency
           (zigzag [slot_mid; slot_top; slot_bot] tie_vocabulary)
           (init_domains (zigzag [slot_mid; slot_top; slot_bot] tie_vocabulary)) ;;
   ac3 (zigzag [slot_mid; slot_top; slot_bot] tie_vocabulary) d1 None)
  = Ok (tie_domains, true) /\
  select_unassigned_variable
    (zigzag [slot_mid; slot_top; slot_bot] tie_vocabulary) tie_domains []
  = Ok (Some slot_top) /\
  domain_size tie_domains slot_top = 2 /\
  domain_size tie_domains slot_mid = 2 /\
  domain_size tie_domains slot_bot = 2 /\
  degree (zigzag [slot_mid; slot_top; slot_bot] tie_vocabulary) slot_top = 1 /\
  degree (zigzag [slot_mid; slot_top; slot_bot] tie_vocabulary) slot_mid = 2.
Proof. vm_compute. repeat split; discriminate. Qed.

(** ** The consistency check *)

Lemma set_add_length (v : string) (items : set string) :
  List.length (set_add string_dec v items)
  = if in_dec string_dec v items then List.length items
    else S (List.length items).
Proof.
  induction items as [|u items IH]; simpl; [reflexivity|].
  destruct (string_dec v u) as [->|Hne]; simpl.
  - destruct (string_dec u u); [reflexivity|congruence].
  - destruct (string_dec u v); [congruence|].
    rewrite IH. destruct (in_dec string_dec v items); reflexivity.
Qed.

Lemma add_all_length_le (l : list string) :
  forall items,
  List.length (add_all l items) <= List.length items + List.length l.
Proof.
  unfold add_all. induction l as [|v l IH]; intros items; simpl; [lia|].
  specialize (IH (set_add string_dec v items)). rewrite set_add_length in IH.
  destruct (in_dec string_dec v items); lia.
Qed.

Lemma add_all_In (l : list string) :
  forall items v, In v items -> In v (add_all l items).
Proof.
  unfold add_all. induction l as [|u l IH]; intros items v Hin; simpl; auto.
  apply IH. apply set_add_intro1; exact Hin.
Qed.

(** The set has as many elements as the list only if the list has no
    duplicate and nothing of the initial set. *)
Lemma add_all_length_eq (l : list string) :
  forall items,
  List.length (add_all l items) = List.length items + List.length l ->
  NoDup l /\ forall v, In v l -> ~ In v items.
Proof.
  induction l as [|v l IH]; intros items Hlen; simpl in *.
  - split; [constructor | tauto].
  - pose proof (add_all_length_le l (set_add string_dec v items)) as Hle.
    rewrite set_add_length in Hle.
    unfold add_all in *; simpl in Hlen.
    destruct (in_dec string_dec v items) as [Hin|Hnin]; [lia|].
    destruct (IH (set_add string_dec v items)) as [Hnd Hdisj].
    { rewrite set_add_length.
      destruct (in_dec string_dec v items); [contradiction|]. lia. }
    split.
    + constructor; [|exact Hnd].
      intros Hv. apply (Hdisj v Hv). apply set_add_intro2; reflexivity.
    + intros u [<-|Hu]; [exact Hnin|].
      intros Hui. apply (Hdisj u Hu). apply set_add_intro1; exact Hui.
Qed.

Section ConsistentFacts.
Variable cw : Crossword.

(** What the loop over the neighbors has checked when it ends normally. *)
Lemma check_neighbors_true (a : assignment) (key : Var) (value : string)
  (ns : list Var) :
  check_neighbors cw a key value ns = Ok true ->
  forall n i j w, In n ns -> overlaps cw key n = Some (i, j) ->
    Dict.get a n = Some w -> w <> "" -> char_agree i j value w.
Proof.
  induction ns as [|n0 ns IH]; intros H n i j w Hin Hov Hget Hne;
    simpl in *; [contradiction|].
  destruct Hin as [->|Hin].
  - rewrite Hov, Hget in H.
    destruct w as [|c w]; [congruence|]. simpl in H.
    inv_bind H as c1 Hc1. inv_bind H as c2 Hc2.
    destruct (Ascii.eqb c1 c2) eqn:E; [|discriminate].
    apply Ascii.eqb_eq in E; subst c2.
    exists c1. split; apply index_Ok; assumption.
  - apply (IH) with (n := n); auto.
    destruct (overlaps cw key n0) as [[i0 j0]|]; [|exact H].
    destruct (truthy (Dict.get a n0)); [|exact H].
    destruct (Dict.get a n0) as [nv|]; [|exact H].
    inv_bind H as c1 Hc1. inv_bind H as c2 Hc2.
    destruct (Ascii.eqb c1 c2); [exact H|discriminate].
Qed.

Lemma consistent_loop_true (a : assignment) (todo : list (Var * string)) :
  forall items,
  consistent_loop cw a todo items = Ok true ->
  (forall key value, In (key, value) todo ->
     String.length value = var_length key /\
     check_neighbors cw a key value (neighbors cw key) = Ok true) /\
  List.length (add_all (Dict.values todo) items) = List.length (Dict.values a).
Proof.
  induction todo as [|[k v] todo IH]; intros items H; simpl in *.
  - injection H as H. apply Nat.eqb_eq in H. split; [tauto|exact H].
  - destruct (Nat.eqb (String.length v) (var_length k)) eqn:Hlen;
      [|discriminate].
    inv_bind H as ok Hok. destruct ok; [|discriminate].
    destruct (IH _ H) as [Hall Hcount]. split; [|exact Hcount].
    intros key value [Heq|Hin]; [|auto].
    inversion Heq; subst. split; [apply Nat.eqb_eq; exact Hlen | exact Hok].
Qed.

(** What an assignment that passes [consistent] satisfies. *)
Lemma consistent_true (a : assignment) :
  consistent cw a = Ok true ->
  (forall x w, Dict.get a x = Some w -> String.length w = var_length x) /\
  (forall x y i j wx wy,
     In y (neighbors cw x) -> overlaps cw x y = Some (i, j) ->
     Dict.get a x = Some wx -> Dict.get a y = Some wy -> wy <> "" ->
     char_agree i j wx wy) /\
  (forall x y w, Dict.get a x = Some w -> Dict.get a y = Some w -> x = y).
Proof.
  unfold consistent. intros H.
  destruct (consistent_loop_true a a [] H) as [Hall Hcount].
  split; [|split].
  - intros x w Hget. apply get_Some_In in Hget. apply (Hall x w Hget).
  - intros x y i j wx wy Hy Hov Hgx Hgy Hne.
    apply get_Some_In in Hgx. destruct (Hall x wx Hgx) as [_ Hcheck].
    exact (check_neighbors_true a x wx _ Hcheck y i j wy Hy Hov Hgy Hne).
  - intros x y w Hgx Hgy.
    destruct (add_all_length_eq (Dict.values a) []) as [Hnd _];
      [simpl; exact Hcount|].
    clear - Hnd Hgx Hgy. unfold Dict.values in Hnd.
    induction a as [|[k v] a IH]; simpl in *; [discriminate|].
    inversion Hnd as [|? ? Hnotin Hnd']; subst.
    destruct (Var_eq_dec x k) as [->|Hx], (Var_eq_dec y k) as [->|Hy]; auto.
    + inversion Hgx; subst. exfalso; apply Hnotin.
      apply get_Some_In in Hgy. apply (in_map snd) in Hgy; exact Hgy.
    + inversion Hgy; subst. exfalso; apply Hnotin.
      apply get_Some_In in Hgx. apply (in_map snd) in Hgx; exact Hgx.
Qed.

End ConsistentFacts.

(** ** Backtracking search *)

Lemma assigned_word_set (a : assignment) (var v : Var) (value : string) :
  assigned_word (Dict.set a var value) v
  = if Var_eq_dec var v
    then match value with "" => None | String _ _ => Some value end
    else assigned_word a v.
Proof.
  unfold assigned_word. rewrite get_set.
  destruct (Var_eq_dec var v); [destruct value|]; reflexivity.
Qed.

Lemma assigned_word_unassigned (a : assignment) (v : Var) :
  assigned_word a v = None <-> unassigned a v.
Proof.
  unfold assigned_word, unassigned.
  destruct (Dict.get a v) as [[|c w]|]; split; auto;
    try discriminate; intros [H|H]; discriminate.
Qed.

Lemma same_words_truthy (a' a : assignment) (v : Var) :
  same_words a' a -> truthy (Dict.get a' v) = truthy (Dict.get a v).
Proof.
  intros H. specialize (H v). unfold assigned_word in H.
  destruct (Dict.get a' v) as [[|c w]|], (Dict.get a v) as [[|c0 w0]|];
    simpl; congruence.
Qed.

(** Overwriting with the empty string the entry of a slot that had no word
    before it was given one undoes the extension, as far as words go. *)
Lemma same_words_undo (a a' : assignment) (var : Var) (value : string) :
  unassigned a var -> same_words a' (Dict.set a var value) ->
  same_words (Dict.set a' var "") a.
Proof.
  intros Hu Hs v. rewrite assigned_word_set.
  destruct (Var_eq_dec var v) as [<-|Hne].
  - symmetry; apply assigned_word_unassigned; exact Hu.
  - rewrite (Hs v), assigned_word_set.
    destruct (Var_eq_dec var v); [contradiction|reflexivity].
Qed.

Section BacktrackFacts.
Variable cw : Crossword.
Variable d : domains.

(** The loop returns a dictionary only if a recursive call did. *)
Lemma try_values_solution (rec : assignment -> result search) (var : Var)
  (P : assignment -> Prop) :
  (forall a0 s0, consistent cw a0 = Ok true -> rec a0 = Ok (Solution s0) -> P s0) ->
  forall vals a s,
  try_values cw rec var vals a = Ok (Solution s) -> P s.
Proof.
  intros Hrec. induction vals as [|value rest IH]; intros a s H; simpl in H;
    [discriminate|].
  inv_bind H as ok Hok. destruct ok; [|eauto].
  inv_bind H as r Hr. destruct r as [s0|a'].
  - destruct (nonempty s0); [|eauto].
    injection H as <-. eapply Hrec; eassumption.
  - eauto.
Qed.

(** A dictionary returned by the search is complete and passes the
    consistency check, provided the search started from one that passes. *)
Lemma backtrack_sound (fuel : nat) :
  forall a s, consistent cw a = Ok true ->
  backtrack cw d fuel a = Ok (Solution s) ->
  assignment_complete cw s = true /\ consistent cw s = Ok true.
Proof.
  induction fuel as [|fuel IH]; intros a s Hcons H; simpl in H; [discriminate|].
  destruct (assignment_complete cw a) eqn:Hcomplete.
  - injection H as <-. auto.
  - inv_bind H as selected Hsel. destruct selected as [var|]; [|discriminate].
    inv_bind H as vals Hvals.
    refine (try_values_solution (backtrack cw d fuel) var
              (fun s0 => assignment_complete cw s0 = true
                         /\ consistent cw s0 = Ok true) _ vals a s H).
    intros a0 s0 Hc0 Hr0. eapply IH; eassumption.
Qed.

(** A failed loop leaves every slot the word it had, given that recursive
    calls do, that they return no empty dictionary, and that the slot tried
    had no word. *)
Lemma try_values_failure (rec : assignment -> result search) (var : Var) :
  (forall a0 r, rec a0 = Ok r ->
     match r with
     | Failure a' => same_words a' a0
     | Solution s => a0 <> [] -> s <> []
     end) ->
  forall vals a a',
  unassigned a var ->
  try_values cw rec var vals a = Ok (Failure a') -> same_words a' a.
Proof.
  intros Hrec. induction vals as [|value rest IH]; intros a a' Hu H; simpl in H.
  - injection H as <-. intros v; reflexivity.
  - inv_bind H as ok Hok. destruct ok; [|eauto].
    inv_bind H as r Hr. specialize (Hrec _ _ Hr). destruct r as [s0|a2].
    + destruct s0 as [|kv s0]; simpl in H; [|discriminate].
      exfalso. apply Hrec; [apply set_nonempty | reflexivity].
    + assert (Hs : same_words (Dict.set a2 var "") a)
        by (eapply same_words_undo; eassumption).
      intros v. rewrite <- (Hs v). apply IH; [|exact H].
      apply assigned_word_unassigned. rewrite (Hs var).
      apply assigned_word_unassigned; exact Hu.
Qed.

Lemma try_values_nonempty (rec : assignment -> result search) (var : Var) :
  (forall a0 s, rec a0 = Ok (Solution s) -> a0 <> [] -> s <> []) ->
  forall vals a s,
  try_values cw rec var vals a = Ok (Solution s) -> s <> [].
Proof.
  intros Hrec. induction vals as [|value rest IH]; intros a s H; simpl in H;
    [discriminate|].
  inv_bind H as ok Hok. destruct ok; [|eauto].
  inv_bind H as r Hr. destruct r as [s0|a2]; [|eauto].
  destruct s0 as [|kv s0]; simpl in H; [eauto|].
  injection H as <-. discriminate.
Qed.

(** A failed call leaves every slot the word it had at the call; a call that
    returns a dictionary returns a non-empty one unless it was given the
    empty one. *)
Lemma backtrack_outcome (fuel : nat) :
  forall a r, backtrack cw d fuel a = Ok r ->
  match r with
  | Failure a' => same_words a' a
  | Solution s => a <> [] -> s <> []
  end.
Proof.
  induction fuel as [|fuel IH]; intros a r H; simpl in H; [discriminate|].
  destruct (assignment_complete cw a) eqn:Hcomplete.
  - injection H as <-. auto.
  - inv_bind H as selected Hsel. destruct selected as [var|]; [|discriminate].
    inv_bind H as vals Hvals.
    destruct (select_some cw d a var Hsel) as (_ & Hu & _).
    destruct r as [s|a'].
    + intros _. eapply try_values_nonempty; [|exact H].
      intros a0 s0 Hr0. exact (IH a0 _ Hr0).
    + eapply try_values_failure; [exact IH | exact Hu | exact H].
Qed.

End BacktrackFacts.

Lemma solve_returns (cw : Crossword) (d : domains) (a : assignment) :
  solve cw d = Ok (Some a) ->
  exists d1 d2 ok fuel,
    enforce_node_consistency cw d = Ok d1 /\ ac3 cw d1 None = Ok (d2, ok) /\
    backtrack cw d2 fuel [] = Ok (Solution a).
Proof.
  unfold solve. intros H. inv_bind H as d1 Hd1. inv_bind H as st Hac.
  destruct st as [d2 ok]; simpl in H. inv_bind H as r Hr.
  destruct r as [s|a']; simpl in H; [|discriminate]. injection H as ->.
  exists d1, d2, ok, (S (List.length (variables cw))). auto.
Qed.

(** C2 (soundness of the solver).  A dictionary returned by [solve] gives
    every slot of the graph a non-empty word of the length of the slot; the
    words of two neighboring slots have the same character at their overlap;
    no word is the word of two slots; and [consistent] returns [True] on
    it. *)
Theorem solve_sound (cw : Crossword) (d : domains) (a : assignment) :
  solve cw d = Ok (Some a) ->
  (forall x, In x (variables cw) ->
     exists w, Dict.get a x = Some w /\ w <> "" /\
               String.length w = var_length x) /\
  (forall x y i j wx wy,
     In x (variables cw) -> In y (variables cw) ->
     In y (neighbors cw x) -> overlaps cw x y = Some (i, j) ->
     Dict.get a x = Some wx -> Dict.get a y = Some wy ->
     char_agree i j wx wy) /\
  (forall x y w, Dict.get a x = Some w -> Dict.get a y = Some w -> x = y) /\
  consistent cw a = Ok true.
Proof.
  intros H. destruct (solve_returns cw d a H) as (d1 & d2 & ok & fuel & _ & _ & Hb).
  destruct (backtrack_sound cw d2 fuel [] a eq_refl Hb) as [Hcomplete Hcons].
  destruct (consistent_true cw a Hcons) as (Hlen & Hagree & Huniq).
  pose proof (proj1 (assignment_complete_true cw a) Hcomplete) as Hall.
  split; [|split; [|split]].
  - intros x Hx. destruct (Hall x Hx) as (w & Hget & Hne).
    exists w. auto.
  - intros x y i j wx wy Hx Hy Hn Hov Hgx Hgy.
    destruct (Hall y Hy) as (w & Hget & Hne).
    rewrite Hgy in Hget; injection Hget as <-.
    exact (Hagree x y i j wx wy Hn Hov Hgx Hgy Hne).
  - exact Huniq.
  - exact Hcons.
Qed.

Lemma solve_sound_witness :
  (forall x, In x [slot_top; slot_mid; slot_bot] ->
     exists w,
       Dict.get [(slot_top, "AB"); (slot_bot, "BA"); (slot_mid, "BAB")] x
       = Some w /\ w <> "" /\ String.length w = var_length x) /\
  (forall x y i j wx wy,
     In x [slot_top; slot_mid; slot_bot] ->
     In y [slot_top; slot_mid; slot_bot] ->
     In y (zigzag_neighbors x) -> zigzag_overlaps x y = Some (i, j) ->
     Dict.get [(slot_top, "AB"); (slot_bot, "BA"); (slot_mid, "BAB")] x
     = Some wx ->
     Dict.get [(slot_top, "AB"); (slot_bot, "BA"); (slot_mid, "BAB")] y
     = Some wy ->
     char_agree i j wx wy) /\
  (forall x y w,
     Dict.get [(slot_top, "AB"); (slot_bot, "BA"); (slot_mid, "BAB")] x
     = Some w ->
     Dict.get [(slot_top, "AB"); (slot_bot, "BA"); (slot_mid, "BAB")] y
     = Some w -> x = y) /\
  consistent (zigzag [slot_top; slot_mid; slot_bot] tie_vocabulary)
    [(slot_top, "AB"); (slot_bot, "BA"); (slot_mid, "BAB")] = Ok true.
Proof.
  apply (solve_sound (zigzag [slot_top; slot_mid; slot_bot] tie_vocabulary)
           (init_domains (zigzag [slot_top; slot_mid; slot_bot] tie_vocabulary))).
  vm_compute. reflexivity.
Defined.

(** C3 (the undo after a failed branch), at the failing input.  On the grid
    with the store [stuck_domains], the search started by [solve] extends the
    empty dictionary with [slot_top := "AB"], which passes [consistent]; the
    recursive call fails and leaves the keys [slot_top] and [slot_bot].  The
    next candidate, "CD", is tried in that dictionary with the entry of
    [slot_top] overwritten by the empty string: it is not the dictionary
    before the extension, [consistent] rejects there every word for
    [slot_top] though it accepts "CD" in the dictionary before the extension,
    and the loop fails where, run in the dictionary before the extension, it
    returns a solution. *)
Theorem undo_state_survives :
  consistent (zigzag [slot_top; slot_mid; slot_bot] stuck_vocabulary)
    (Dict.set [] slot_top "AB") = Ok true /\
  backtrack (zigzag [slot_top; slot_mid; slot_bot] stuck_vocabulary)
    stuck_domains 3 (Dict.set [] slot_top "AB")
  = Ok (Failure [(slot_top, "AB"); (slot_bot, "")]) /\
  try_values (zigzag [slot_top; slot_mid; slot_bot] stuck_vocabulary)
    (backtrack (zigzag [slot_top; slot_mid; slot_bot] stuck_vocabulary)
       stuck_domains 3) slot_top ["AB"; "CD"] []
  = try_values (zigzag [slot_top; slot_mid; slot_bot] stuck_vocabulary)
      (backtrack (zigzag [slot_top; slot_mid; slot_bot] stuck_vocabulary)
         stuck_domains 3) slot_top ["CD"]
      [(slot_top, ""); (slot_bot, "")] /\
  Dict.set [(slot_top, "AB"); (slot_bot, "")] slot_top ""
  = [(slot_top, ""); (slot_bot, "")] /\
  [(slot_top, ""); (slot_bot, "")] <> @nil (Var * string) /\
  consistent (zigzag [slot_top; slot_mid; slot_bot] stuck_vocabulary)
    (Dict.set [] slot_top "CD") = Ok true /\
  (forall w,
     consistent (zigzag [slot_top; slot_mid; slot_bot] stuck_vocabulary)
       (Dict.set [(slot_top, ""); (slot_bot, "")] slot_top w) <> Ok true) /\
  try_values (zigzag [slot_top; slot_mid; slot_bot] stuck_vocabulary)
    (backtrack (zigzag [slot_top; slot_mid; slot_bot] stuck_vocabulary)
       stuck_domains 3) slot_top ["CD"] [(slot_top, ""); (slot_bot, "")]
  = Ok (Failure [(slot_top, ""); (slot_bot, "")]) /\
  try_values (zigzag [slot_top; slot_mid; slot_bot] stuck_vocabulary)
    (backtrack (zigzag [slot_top; slot_mid; slot_bot] stuck_vocabulary)
       stuck_domains 3) slot_top ["CD"] []
  = Ok (Solution [(slot_top, "CD"); (slot_bot, "EF"); (slot_mid, "DIE")]).
Proof.
  split; [vm_compute; reflexivity|].
  split; [vm_compute; reflexivity|].
  split; [vm_compute; reflexivity|].
  split; [vm_compute; reflexivity|].
  split; [discriminate|].
  split; [vm_compute; reflexivity|].
  split; [|split; vm_compute; reflexivity].
  intros w Hcons.
  destruct (consistent_true _ _ Hcons) as (Hlen & _ & _).
  specialize (Hlen slot_bot "").
  assert (E : String.length "" = var_length slot_bot).
  { apply Hlen. rewrite get_set_ne by discriminate. reflexivity. }
  discriminate E.
Qed.

(** ** The search gives up on a solvable puzzle *)

Lemma stuck_solution_satisfying :
  satisfying (zigzag [slot_top; slot_mid; slot_bot] stuck_vocabulary)
    stuck_solution.
Proof.
  split; [|split].
  - intros x [<-|[<-|[<-|[]]]]; eexists;
      (split; [reflexivity|split; [simpl; tauto|reflexivity]]).
  - intros x y i j wx wy Hx Hy.
    destruct Hx as [<-|[<-|[<-|[]]]]; destruct Hy as [<-|[<-|[<-|[]]]];
      vm_compute; intros Hov Hgx Hgy; try discriminate;
      injection Hov as <- <-; injection Hgx as <-; injection Hgy as <-;
      eexists; split; reflexivity.
  - intros x y w Hx Hy.
    destruct Hx as [<-|[<-|[<-|[]]]]; destruct Hy as [<-|[<-|[<-|[]]]];
      vm_compute; intros Hgx Hgy; try reflexivity;
      injection Hgx as <-; discriminate.
Qed.

(** C1 (completeness of the solver), at the failing input.  On the grid with
    the vocabulary AB, CD, EF, GH, BAA, BOA, BRA, DIE, DIG node and arc
    consistency leave [stuck_domains]; [solve] returns [None]; yet
    [stuck_solution] (CD across the top, DIE down, EF across the bottom) is
    complete, length-matching, overlap-agreeing and reuses no word, and
    passes [consistent]. *)
Theorem solve_misses_solution :
  (d1 <- enforce_node_consistency
           (zigzag [slot_top; slot_mid; slot_bot] stuck_vocabulary)
           (init_domains (zigzag [slot_top; slot_mid; slot_bot] stuck_vocabulary)) ;;
   ac3 (zigzag [slot_top; slot_mid; slot_bot] stuck_vocabulary) d1 None)
  = Ok (stuck_domains, true) /\
  solve (zigzag [slot_top; slot_mid; slot_bot] stuck_vocabulary)
        (init_domains (zigzag [slot_top; slot_mid; slot_bot] stuck_vocabulary))
  = Ok None /\
  satisfying (zigzag [slot_top; slot_mid; slot_bot] stuck_vocabulary)
    stuck_solution /\
  consistent (zigzag [slot_top; slot_mid; slot_bot] stuck_vocabulary)
    stuck_solution = Ok true.
Proof.
  split; [vm_compute; reflexivity|].
  split; [vm_compute; reflexivity|].
  split; [exact stuck_solution_satisfying | vm_compute; reflexivity].
Qed.

(** ** A failed AC-3 and the search that follows *)

Section Ac3Failure.
Variable cw : Crossword.

(** A run of the loop that reports success has emptied no domain. *)
Lemma ac3_loop_true (fuel : nat) :
  forall d arcs d',
  ac3_loop cw fuel d arcs = Ok (d', true) ->
  forall v, Dict.get d v <> Some [] -> Dict.get d' v <> Some [].
Proof.
  induction fuel as [|fuel IH]; intros d arcs d' H v Hv;
    destruct arcs as [|[x y] rest]; simpl in H;
    try discriminate; try (injection H as <-; exact Hv).
  inv_bind H as st Hrev. destruct st as [d1 revised]; simpl in H.
  destruct revised.
  - inv_bind H as xs Hxs. apply lookup_Ok in Hxs.
    destruct xs as [|w xs]; [discriminate|].
    destruct (in_dec Var_eq_dec y (neighbors cw x)); [|discriminate].
    apply (IH _ _ _ H).
    destruct (Var_eq_dec v x) as [->|Hne]; [congruence|].
    rewrite (revise_frame cw _ _ _ _ _ Hrev v Hne). exact Hv.
  - destruct (revise_monotone cw x y _ _ _ Hrev) as (_ & Hf & _).
    rewrite (Hf eq_refl) in H. exact (IH _ _ _ H v Hv).
Qed.

Hypothesis neighbors_closed : forall x y,
  In x (variables cw) -> In y (neighbors cw x) -> In y (variables cw).

(** A run of the loop that reports failure leaves a slot of the graph with
    an empty domain. *)
Lemma ac3_loop_false (fuel : nat) :
  forall d arcs d',
  (forall x y, In (x, y) arcs -> In x (variables cw)) ->
  ac3_loop cw fuel d arcs = Ok (d', false) ->
  exists x, In x (variables cw) /\ Dict.get d' x = Some [].
Proof.
  induction fuel as [|fuel IH]; intros d arcs d' Harcs H;
    destruct arcs as [|[x y] rest]; simpl in H; try discriminate.
  inv_bind H as st Hrev. destruct st as [d1 revised]; simpl in H.
  assert (Hx : In x (variables cw)) by (apply (Harcs x y); left; reflexivity).
  destruct revised.
  - inv_bind H as xs Hxs. apply lookup_Ok in Hxs. destruct xs as [|w xs].
    + injection H as <-. exists x; auto.
    + destruct (in_dec Var_eq_dec y (neighbors cw x)); [|discriminate].
      apply (IH _ _ _ ) in H; [exact H|].
      intros a c Hin. apply in_app_or in Hin. destruct Hin as [Hin|Hin].
      * apply (Harcs a c); right; exact Hin.
      * apply in_map_iff in Hin. destruct Hin as (z & Heq & Hz).
        injection Heq as <- <-. apply in_remove in Hz.
        apply (neighbors_closed x z Hx); tauto.
  - apply (IH _ _ _) in H; [exact H|].
    intros a c Hin; apply (Harcs a c); right; exact Hin.
Qed.

Lemma ac3_false (d d' : domains) :
  ac3 cw d None = Ok (d', false) ->
  exists x, In x (variables cw) /\ Dict.get d' x = Some [].
Proof.
  unfold ac3; apply ac3_loop_false.
  intros x y Hin. unfold all_arcs in Hin. apply in_flat_map in Hin.
  destruct Hin as (v & Hv & Hin). apply in_map_iff in Hin.
  destruct Hin as (n & Heq & _). injection Heq as <- _. exact Hv.
Qed.

End Ac3Failure.

Section EmptyDomain.
Variable cw : Crossword.

(** A run of [enforce_node_consistency] that ends has found a domain for
    every slot. *)
Lemma enforce_covers (vs : list Var) :
  forall d d', foldM prune_var vs d = Ok d' ->
  shrinks d d' /\ forall x, In x vs -> Dict.get d x <> None.
Proof.
  induction vs as [|var vs IH]; intros d d' H; simpl in H.
  - injection H as <-. split; [apply shrinks_refl | intros x []].
  - inv_bind H as d1 Hd1.
    assert (Hget : exists ws, Dict.get d var = Some ws).
    { unfold prune_var in Hd1. inv_bind Hd1 as ws Hws.
      exists ws; apply lookup_Ok; exact Hws. }
    destruct Hget as [ws Hget].
    destruct (prune_var_spec d var ws Hget) as (d1' & Hrun & Hs & _).
    rewrite Hrun in Hd1; injection Hd1 as ->.
    destruct (IH _ _ H) as [Hs' Hcov].
    split; [eapply shrinks_trans; eassumption|].
    intros x [<-|Hx]; [congruence|].
    apply get_In_keys. rewrite <- (proj1 Hs). apply get_In_keys. auto.
Qed.

Lemma enforce_node_consistency_covers (d d1 : domains) :
  enforce_node_consistency cw d = Ok d1 -> covers cw d1.
Proof.
  intros H. destruct (enforce_covers _ _ _ H) as [Hs Hcov].
  eapply shrinks_covers; [exact Hs | exact Hcov].
Qed.

(** With a slot whose domain is empty, the search started from the empty
    dictionary selects a slot with an empty domain, tries no value and
    fails. *)
Lemma backtrack_empty_domain (d : domains) (fuel : nat) (x : Var) :
  covers cw d -> In x (variables cw) -> Dict.get d x = Some [] ->
  backtrack cw d (S fuel) [] = Ok (Failure []).
Proof.
  intros Hcov Hx Hempty. simpl.
  assert (Hinc : assignment_complete cw [] = false).
  { apply assignment_complete_false. exists x; split; [exact Hx|].
    left; reflexivity. }
  rewrite Hinc.
  destruct (select_total cw d [] Hcov) as [[e|] Hsel].
  - rewrite Hsel; simpl.
    destruct (select_some cw d [] e Hsel) as (He & _ & _).
    destruct (select_minimises cw d [] e x Hsel Hx) as [Hle _];
      [left; reflexivity|].
    unfold domain_size in Hle. rewrite Hempty in Hle; simpl in Hle.
    unfold order_domain_values, lookup.
    destruct (Dict.get d e) as [[|w ws]|] eqn:Hge.
    + reflexivity.
    + simpl in Hle; lia.
    + exfalso; exact (Hcov e He Hge).
  - apply select_none in Hsel. congruence.
Qed.

End EmptyDomain.

(** C4 as stated fails: on the vocabulary AB, CDE the domain of [slot_top]
    becomes empty during AC-3, [ac3] returns [False], and [solve] goes on to
    call [backtrack]. *)
Lemma ac3_failure_search_runs :
  (d1 <- enforce_node_consistency
           (zigzag [slot_top; slot_mid; slot_bot] clash_vocabulary)
           (init_domains (zigzag [slot_top; slot_mid; slot_bot] clash_vocabulary)) ;;
   ac3 (zigzag [slot_top; slot_mid; slot_bot] clash_vocabulary) d1 None)
  = Ok ([(slot_top, []); (slot_mid, ["CDE"]); (slot_bot, ["AB"])], false) /\
  solve_trace (zigzag [slot_top; slot_mid; slot_bot] clash_vocabulary)
    (init_domains (zigzag [slot_top; slot_mid; slot_bot] clash_vocabulary))
  = Ok ([CallEnforceNodeConsistency; CallAc3 false; CallBacktrack None], None).
Proof. split; vm_compute; reflexivity. Qed.

(** C4, amended (a failed propagation).  Let [ac3()] run on the store left
    by node consistency, on a graph whose neighbors are slots of the graph.
    If it returns [True], no domain has become empty.  If it returns
    [False], a slot of the graph is left with an empty domain; [solve]
    discards the value returned and calls [backtrack], which fails, and
    [solve] returns [None]. *)
Theorem ac3_failure_then_search (cw : Crossword) (d d1 d2 : domains)
  (ok : bool) :
  (forall x y, In x (variables cw) -> In y (neighbors cw x) ->
               In y (variables cw)) ->
  enforce_node_consistency cw d = Ok d1 ->
  ac3 cw d1 None = Ok (d2, ok) ->
  (ok = true ->
   forall x, Dict.get d1 x <> Some [] -> Dict.get d2 x <> Some []) /\
  (ok = false ->
   (exists x, In x (variables cw) /\ Dict.get d2 x = Some []) /\
   solve_trace cw d
   = Ok ([CallEnforceNodeConsistency; CallAc3 false; CallBacktrack None],
         None) /\
   solve cw d = Ok None).
Proof.
  intros Hclosed Henf Hac. split; intros ->.
  - unfold ac3 in Hac. exact (ac3_loop_true cw _ _ _ _ Hac).
  - destruct (ac3_false cw Hclosed d1 d2 Hac) as (x & Hx & Hempty).
    assert (Hcov : covers cw d2).
    { eapply shrinks_covers; [eapply ac3_shrinks; exact Hac|].
      eapply enforce_node_consistency_covers; exact Henf. }
    pose proof (backtrack_empty_domain cw d2 (List.length (variables cw)) x
                  Hcov Hx Hempty) as Hb.
    split; [exists x; auto|].
    unfold solve_trace, solve. rewrite Henf; cbn [bind]. rewrite Hac; cbn [bind].
    rewrite Hb; cbn [bind returned]. auto.
Qed.

Lemma ac3_failure_then_search_witness :
  (false = true ->
   forall x,
     Dict.get [(slot_top, ["AB"]); (slot_mid, ["CDE"]); (slot_bot, ["AB"])] x
     <> Some [] ->
     Dict.get [(slot_top, []); (slot_mid, ["CDE"]); (slot_bot, ["AB"])] x
     <> Some []) /\
  (false = false ->
   (exists x,
      In x (variables (zigzag [slot_top; slot_mid; slot_bot] clash_vocabulary)) /\
      Dict.get [(slot_top, []); (slot_mid, ["CDE"]); (slot_bot, ["AB"])] x
      = Some []) /\
   solve_trace (zigzag [slot_top; slot_mid; slot_bot] clash_vocabulary)
     (init_domains (zigzag [slot_top; slot_mid; slot_bot] clash_vocabulary))
   = Ok ([CallEnforceNodeConsistency; CallAc3 false; CallBacktrack None],
         None) /\
   solve (zigzag [slot_top; slot_mid; slot_bot] clash_vocabulary)
     (init_domains (zigzag [slot_top; slot_mid; slot_bot] clash_vocabulary))
   = Ok None).
Proof.
  apply (ac3_failure_then_search
           (zigzag [slot_top; slot_mid; slot_bot] clash_vocabulary)
           (init_domains (zigzag [slot_top; slot_mid; slot_bot] clash_vocabulary))
           [(slot_top, ["AB"]); (slot_mid, ["CDE"]); (slot_bot, ["AB"])]
           [(slot_top, []); (slot_mid, ["CDE"]); (slot_bot, ["AB"])] false).
  - intros x y [<-|[<-|[<-|[]]]]; simpl; tauto.
  - vm_compute; reflexivity.
  - vm_compute; reflexivity.
Defined.

(** ** The recursion of the search is bounded *)

Lemma filter_length_mono {A : Type} (f g : A -> bool) (l : list A) :
  (forall a, In a l -> g a = true -> f a = true) ->
  List.length (filter g l) <= List.length (filter f l).
Proof.
  induction l as [|a l IH]; intros H; simpl; [lia|].
  assert (IH' : List.length (filter g l) <= List.length (filter f l))
    by (apply IH; intros; apply H; [right|]; assumption).
  destruct (g a) eqn:Hg.
  - rewrite (H a (or_introl eq_refl) Hg); simpl; lia.
  - destruct (f a); simpl; lia.
Qed.

Lemma filter_length_strict {A : Type} (f g : A -> bool) (l : list A) (x : A) :
  (forall a, In a l -> g a = true -> f a = true) ->
  In x l -> f x = true -> g x = false ->
  List.length (filter g l) < List.length (filter f l).
Proof.
  induction l as [|a l IH]; intros H Hin Hf Hg; simpl; [contradiction|].
  assert (Hmono : List.length (filter g l) <= List.length (filter f l))
    by (apply filter_length_mono; intros; apply H; [right|]; assumption).
  destruct Hin as [->|Hin].
  - rewrite Hf, Hg; simpl; lia.
  - assert (IH' : List.length (filter g l) < List.length (filter f l))
      by (apply IH; auto; intros; apply H; [right|]; assumption).
    destruct (g a) eqn:Hga.
    + rewrite (H a (or_introl eq_refl) Hga); simpl; lia.
    + destruct (f a); simpl; lia.
Qed.

Section SearchBound.
Variable cw : Crossword.
Variable d : domains.

Lemma count_unassigned_same (a' a : assignment) :
  same_words a' a -> count_unassigned cw a' = count_unassigned cw a.
Proof.
  intros H. unfold count_unassigned. f_equal.
  apply filter_ext; intros v. rewrite (same_words_truthy a' a v H); reflexivity.
Qed.

Lemma count_unassigned_set (a : assignment) (var : Var) (value : string) :
  In var (variables cw) -> unassigned a var -> value <> "" ->
  count_unassigned cw (Dict.set a var value) < count_unassigned cw a.
Proof.
  intros Hin Hu Hne. unfold count_unassigned.
  apply filter_length_strict with (x := var); auto.
  - intros v _. rewrite get_set.
    destruct (Var_eq_dec var v) as [<-|_]; [|auto].
    destruct value; [congruence|discriminate].
  - apply negb_true_iff, truthy_false; exact Hu.
  - rewrite get_set_eq. destruct value; [congruence|reflexivity].
Qed.

Lemma count_unassigned_le (a : assignment) :
  count_unassigned cw a <= List.length (variables cw).
Proof. apply filter_length_le. Qed.

Lemma check_neighbors_not_OutOfFuel (a : assignment) (key : Var)
  (value : string) (ns : list Var) :
  check_neighbors cw a key value ns <> OutOfFuel.
Proof.
  induction ns as [|n ns IH]; simpl; [discriminate|].
  destruct (overlaps cw key n) as [[i j]|]; [|exact IH].
  destruct (truthy (Dict.get a n)); [|exact IH].
  destruct (Dict.get a n) as [nv|]; [|exact IH].
  apply bind_not_OutOfFuel; [apply index_not_OutOfFuel|]. intros c1 _.
  apply bind_not_OutOfFuel; [apply index_not_OutOfFuel|]. intros c2 _.
  destruct (Ascii.eqb c1 c2); [exact IH|discriminate].
Qed.

Lemma consistent_not_OutOfFuel (a : assignment) :
  consistent cw a <> OutOfFuel.
Proof.
  unfold consistent. generalize (@nil string). generalize a at 2.
  intros todo. induction todo as [|[k v] todo IH]; intros items; simpl;
    [discriminate|].
  destruct (Nat.eqb (String.length v) (var_length k)); [|discriminate].
  apply bind_not_OutOfFuel; [apply check_neighbors_not_OutOfFuel|].
  intros [|] _; [apply IH|discriminate].
Qed.

Lemma select_not_OutOfFuel (a : assignment) :
  select_unassigned_variable cw d a <> OutOfFuel.
Proof.
  unfold select_unassigned_variable.
  apply bind_not_OutOfFuel; [|discriminate].
  apply mapM_not_OutOfFuel. intros x. unfold select_key.
  apply bind_not_OutOfFuel; [apply lookup_not_OutOfFuel|discriminate].
Qed.

Lemma order_domain_values_not_OutOfFuel (var : Var) (a : assignment) :
  order_domain_values cw d var a <> OutOfFuel.
Proof.
  unfold order_domain_values.
  apply bind_not_OutOfFuel; [apply lookup_not_OutOfFuel|]. intros ws _.
  apply bind_not_OutOfFuel; [|discriminate].
  apply mapM_not_OutOfFuel. intros value. unfold least_constraning.
  apply foldM_not_OutOfFuel. intros n z.
  destruct (overlaps cw var z) as [[i j]|]; [|discriminate].
  apply bind_not_OutOfFuel; [apply lookup_not_OutOfFuel|]. intros zs _.
  apply foldM_not_OutOfFuel. intros m word. unfold count_conflict.
  apply bind_not_OutOfFuel; [apply index_not_OutOfFuel|]. intros c1 _.
  apply bind_not_OutOfFuel; [apply index_not_OutOfFuel|]. discriminate.
Qed.

(** The values tried for a slot are the words of its domain. *)
Lemma order_domain_values_In (var : Var) (a : assignment)
  (vals : list string) :
  order_domain_values cw d var a = Ok vals ->
  exists ws, Dict.get d var = Some ws /\ forall v, In v vals <-> In v ws.
Proof.
  unfold order_domain_values. intros H.
  inv_bind H as ws Hws. apply lookup_Ok in Hws.
  inv_bind H as ks Hks. injection H as <-.
  pose proof (mapM_length _ _ _ Hks) as Hlen.
  exists ws; split; [exact Hws|]. intros v. rewrite in_map_iff. split.
  - intros ([k v'] & Heq & Hin); simpl in Heq; subst v'.
    apply In_sorted in Hin. eapply in_combine_r; exact Hin.
  - intros Hin. destruct (mapM_combine _ _ _ Hks) as [_ Hc].
    destruct (Hc v Hin) as (k & _ & Hkv).
    exists (k, v); split; [reflexivity | apply In_sorted; exact Hkv].
Qed.

Hypothesis no_empty_word : forall x ws,
  In x (variables cw) -> Dict.get d x = Some ws -> ~ In "" ws.

Lemma try_values_bounded (fuel : nat) (var : Var) :
  (forall a0, count_unassigned cw a0 < fuel ->
              backtrack cw d fuel a0 <> OutOfFuel) ->
  In var (variables cw) ->
  forall vals a,
  (forall v, In v vals -> v <> "") -> unassigned a var ->
  count_unassigned cw a <= fuel ->
  try_values cw (backtrack cw d fuel) var vals a <> OutOfFuel.
Proof.
  intros Hrec Hvar. induction vals as [|value rest IH];
    intros a Hvals Hu Hcount; simpl; [discriminate|].
  assert (Hrest : forall v, In v rest -> v <> "")
    by (intros; apply Hvals; right; assumption).
  apply bind_not_OutOfFuel; [apply consistent_not_OutOfFuel|].
  intros [|] _; [|apply IH; assumption].
  assert (Hlt : count_unassigned cw (Dict.set a var value) < fuel).
  { pose proof (count_unassigned_set a var value Hvar Hu
                  (Hvals value (or_introl eq_refl))). lia. }
  apply bind_not_OutOfFuel; [apply Hrec; exact Hlt|].
  intros r Hr. pose proof (backtrack_outcome cw d fuel _ _ Hr) as Hout.
  destruct r as [s|a2].
  - destruct s as [|kv s]; simpl; [|discriminate].
    exfalso. apply Hout; [apply set_nonempty | reflexivity].
  - pose proof (same_words_undo a a2 var value Hu Hout) as Hs.
    apply IH; [exact Hrest | |].
    + apply assigned_word_unassigned. rewrite (Hs var).
      apply assigned_word_unassigned; exact Hu.
    + rewrite (count_unassigned_same _ _ Hs). exact Hcount.
Qed.

(** Fuel above the number of slots without a word is enough. *)
Lemma backtrack_bounded (fuel : nat) :
  forall a, count_unassigned cw a < fuel ->
  backtrack cw d fuel a <> OutOfFuel.
Proof.
  induction fuel as [|fuel IH]; intros a Hcount; [lia|]. simpl.
  destruct (assignment_complete cw a); [discriminate|].
  apply bind_not_OutOfFuel; [apply select_not_OutOfFuel|].
  intros [var|] Hsel; [|discriminate].
  destruct (select_some cw d a var Hsel) as (Hvar & Hu & _).
  apply bind_not_OutOfFuel; [apply order_domain_values_not_OutOfFuel|].
  intros vals Hvals.
  destruct (order_domain_values_In var a vals Hvals) as (ws & Hws & Hin).
  apply try_values_bounded; auto; [|lia].
  intros v Hv ->. apply (no_empty_word var ws Hvar Hws). apply Hin; exact Hv.
Qed.

End SearchBound.

(** [solve] ends on every graph whose slots have a positive length: the fuel
    it gives the two loops is never used up. *)
Lemma solve_terminates (cw : Crossword) (d : domains) :
  (forall x, In x (variables cw) -> 1 <= var_length x) ->
  solve cw d <> OutOfFuel.
Proof.
  intros Hpos. unfold solve.
  apply bind_not_OutOfFuel.
  { unfold enforce_node_consistency. apply foldM_not_OutOfFuel.
    intros d0 var. unfold prune_var.
    apply bind_not_OutOfFuel; [apply lookup_not_OutOfFuel|]. intros ws _.
    apply foldM_not_OutOfFuel. intros d1 word. unfold prune_word.
    destruct (Nat.eqb (String.length word) (var_length var)); [discriminate|].
    apply bind_not_OutOfFuel; [apply lookup_not_OutOfFuel|discriminate]. }
  intros d1 Hd1.
  apply bind_not_OutOfFuel; [apply ac3_terminates|].
  intros [d2 ok] Hac.
  apply bind_not_OutOfFuel; [|discriminate].
  apply backtrack_bounded.
  - intros x ws Hx Hget Hin.
    pose proof (enforce_node_consistency_covers cw d d1 Hd1) as Hcov.
    destruct (enforce_covers _ _ _ Hd1) as [_ Hkeys].
    destruct (enforce_node_consistency_spec cw d Hkeys) as (d1' & Hrun & _ & Hnc).
    rewrite Hrun in Hd1; injection Hd1 as ->.
    pose proof (shrinks_node_consistent cw d1 d2
                  (ac3_shrinks cw _ _ _ _ Hac) Hnc x ws "" Hx Hget Hin) as Hlen.
    specialize (Hpos x Hx). simpl in Hlen. lia.
  - pose proof (count_unassigned_le cw []). lia.
Qed.

(** The outcome at the failing input does not depend on the order in which
    the set of slots or the vocabulary is enumerated: the six orders of the
    slots, with the vocabulary in its order and reversed, all end in
    [None]. *)
Lemma solve_misses_solution_any_order :
  forallb
    (fun vars =>
       forallb
         (fun vocabulary =>
            match solve (zigzag vars vocabulary)
                        (init_domains (zigzag vars vocabulary)) with
            | Ok None => true
            | _ => false
            end)
         [stuck_vocabulary; rev stuck_vocabulary])
    [[slot_top; slot_mid; slot_bot]; [slot_top; slot_bot; slot_mid];
     [slot_mid; slot_top; slot_bot]; [slot_mid; slot_bot; slot_top];
     [slot_bot; slot_top; slot_mid]; [slot_bot; slot_mid; slot_top]]
  = true.
Proof. vm_compute. reflexivity. Qed.

(** * Further properties of the code *)

(** ** The initial store and node consistency *)

Lemma init_domains_get (cw : Crossword) (vs : list Var) :
  forall (d : domains) x,
  Dict.get (fold_left (fun d var => Dict.set d var (words cw)) vs d) x
  = if in_dec Var_eq_dec x vs then Some (words cw) else Dict.get d x.
Proof.
  induction vs as [|v vs IH]; intros d x; simpl; [reflexivity|].
  rewrite IH, get_set.
  destruct (in_dec Var_eq_dec x vs) as [Hin|Hnin].
  - destruct (Var_eq_dec v x); reflexivity.
  - destruct (Var_eq_dec v x) as [->|Hne]; reflexivity.
Qed.

Lemma init_domains_keys (cw : Crossword) (vs : list Var) :
  forall d : domains, NoDup (Dict.keys d ++ vs) ->
  Dict.keys (fold_left (fun d var => Dict.set d var (words cw)) vs d)
  = Dict.keys d ++ vs.
Proof.
  induction vs as [|v vs IH]; intros d Hnd; simpl; [symmetry; apply app_nil_r|].
  assert (Hv : ~ In v (Dict.keys d)).
  { intros Hin. apply NoDup_remove_2 in Hnd. apply Hnd.
    apply in_or_app; left; exact Hin. }
  rewrite IH; rewrite keys_set_absent by exact Hv.
  - rewrite <- app_assoc; reflexivity.
  - rewrite <- app_assoc; exact Hnd.
Qed.

(** The store of the model is one of the stores [__init__] may build. *)
Lemma init_domains_init_store (cw : Crossword) :
  init_store cw (init_domains cw).
Proof.
  unfold init_store, init_domains. split.
  - intros x. rewrite <- get_In_keys, init_domains_get.
    destruct (in_dec Var_eq_dec x (variables cw)); simpl; split; intros H;
      try assumption; try discriminate; try contradiction; congruence.
  - intros x ws. rewrite init_domains_get.
    destruct (in_dec Var_eq_dec x (variables cw)); simpl; intros H;
      [|discriminate].
    injection H as <-. apply Permutation_refl.
Qed.

Section NodeExact.
Variable cw : Crossword.

(** [prune_var] writes the domain of its slot only. *)
Lemma prune_var_frame (d d1 : domains) (var : Var) :
  prune_var d var = Ok d1 ->
  forall v, v <> var -> Dict.get d1 v = Dict.get d v.
Proof.
  unfold prune_var. intros H v Hv. inv_bind H as ws Hws.
  pose (P := fun d0 : domains => Dict.get d0 v = Dict.get d v).
  change (P d1). eapply (foldM_invariant _ P); [| |exact H].
  - intros da word db _ HP Hstep. unfold P in *. unfold prune_word in Hstep.
    destruct (Nat.eqb (String.length word) (var_length var)).
    + injection Hstep as <-. exact HP.
    + inv_bind Hstep as cur Hcur. injection Hstep as <-.
      rewrite get_set_ne by congruence. exact HP.
  - reflexivity.
Qed.

(** The loop over the slots: a slot of the list keeps the words that fit it,
    in their order; any other key keeps its value. *)
Lemma enforce_loop_exact (vs : list Var) :
  forall d, (forall x, In x vs -> Dict.get d x <> None) ->
  exists d',
    foldM prune_var vs d = Ok d' /\
    forall x,
      Dict.get d' x
      = if in_dec Var_eq_dec x vs
        then option_map (filter (fits x)) (Dict.get d x)
        else Dict.get d x.
Proof.
  induction vs as [|var vs IH]; intros d Hcov; simpl.
  - exists d; split; reflexivity.
  - destruct (Dict.get d var) as [ws|] eqn:Hget;
      [|exfalso; apply (Hcov var); [left; reflexivity | assumption]].
    destruct (prune_var_spec d var ws Hget) as (d1 & Hrun & Hs1 & Hd1).
    pose proof (prune_var_frame d d1 var Hrun) as Hframe.
    rewrite Hrun; simpl.
    destruct (IH d1) as (d' & Hrun' & Hd').
    { intros x Hx. apply get_In_keys. rewrite (proj1 Hs1).
      apply get_In_keys. apply Hcov; right; assumption. }
    exists d'. split; [exact Hrun'|]. intros x. rewrite Hd'.
    destruct (Var_eq_dec var x) as [<-|Hne].
    + rewrite Hd1, Hget.
      destruct (in_dec Var_eq_dec var vs); simpl; [|reflexivity].
      f_equal. rewrite filter_filter. apply filter_ext; intros w.
      apply andb_diag.
    + rewrite (Hframe x) by congruence.
      destruct (in_dec Var_eq_dec x vs); reflexivity.
Qed.

Lemma enforce_raises (vs : list Var) :
  forall d x, In x vs -> Dict.get d x = None ->
  foldM prune_var vs d = Raise KeyError.
Proof.
  induction vs as [|var vs IH]; intros d x Hx Hnone; simpl; [contradiction|].
  destruct (Dict.get d var) as [ws|] eqn:Hget.
  - destruct (prune_var_spec d var ws Hget) as (d1 & Hrun & Hs1 & _).
    rewrite Hrun; simpl. apply (IH d1 x).
    + destruct Hx as [->|Hx]; [congruence|exact Hx].
    + destruct (Dict.get d1 x) eqn:E; [|reflexivity].
      exfalso. apply get_Some_In_keys in E. rewrite (proj1 Hs1) in E.
      apply get_In_keys in E. contradiction.
  - unfold prune_var, lookup. rewrite Hget. reflexivity.
Qed.

(** On a node-consistent store nothing is removed and nothing is written. *)
Lemma enforce_loop_fixed (vs : list Var) (d : domains) :
  (forall x, In x vs -> Dict.get d x <> None) ->
  (forall x ws w, In x vs -> Dict.get d x = Some ws -> In w ws ->
     String.length w = var_length x) ->
  foldM prune_var vs d = Ok d.
Proof.
  intros Hcov Hnc. induction vs as [|var vs IH]; simpl; [reflexivity|].
  destruct (Dict.get d var) as [ws|] eqn:Hget;
    [|exfalso; apply (Hcov var); [left; reflexivity | assumption]].
  assert (Hvar : prune_var d var = Ok d).
  { unfold prune_var, lookup. rewrite Hget; simpl.
    assert (G : forall l, incl l ws -> foldM (prune_word var) l d = Ok d).
    { induction l as [|w l IHl]; intros Hincl; simpl; [reflexivity|].
      unfold prune_word at 1.
      rewrite (proj2 (Nat.eqb_eq _ _)
                 (Hnc var ws w (or_introl eq_refl) Hget
                    (Hincl w (or_introl eq_refl)))); simpl.
      apply IHl. intros u Hu; apply Hincl; right; exact Hu. }
    apply G, incl_refl. }
  rewrite Hvar; simpl. apply IH.
  - intros; apply Hcov; right; assumption.
  - intros x ws' w Hx; apply Hnc; right; assumption.
Qed.

End NodeExact.

(** X2 ([enforce_node_consistency], exact result).  On a store with a domain
    for every slot the call returns normally; afterwards the domain of a
    slot holds exactly its former words of the length of the slot, in their
    former order, and every key that is not a slot of the graph has its
    former value. *)
Theorem enforce_node_consistency_exact (cw : Crossword) (d : domains) :
  covers cw d ->
  exists d',
    enforce_node_consistency cw d = Ok d' /\
    (forall x ws, In x (variables cw) -> Dict.get d x = Some ws ->
       Dict.get d' x
       = Some (filter (fun w => Nat.eqb (String.length w) (var_length x)) ws)) /\
    (forall x, ~ In x (variables cw) -> Dict.get d' x = Dict.get d x).
Proof.
  intros Hcov. destruct (enforce_loop_exact (variables cw) d Hcov)
    as (d' & Hrun & Hd').
  exists d'. split; [exact Hrun|]. split.
  - intros x ws Hx Hget. rewrite Hd', Hget.
    destruct (in_dec Var_eq_dec x (variables cw)); [reflexivity|contradiction].
  - intros x Hx. rewrite Hd'.
    destruct (in_dec Var_eq_dec x (variables cw)); [contradiction|reflexivity].
Qed.

Lemma enforce_node_consistency_exact_witness :
  exists d',
    enforce_node_consistency
      (zigzag [slot_top; slot_mid; slot_bot] stuck_vocabulary)
      (init_domains (zigzag [slot_top; slot_mid; slot_bot] stuck_vocabulary))
    = Ok d' /\
    (forall x ws,
       In x [slot_top; slot_mid; slot_bot] ->
       Dict.get (init_domains
                   (zigzag [slot_top; slot_mid; slot_bot] stuck_vocabulary)) x
       = Some ws ->
       Dict.get d' x
       = Some (filter (fun w => Nat.eqb (String.length w) (var_length x)) ws)) /\
    (forall x, ~ In x [slot_top; slot_mid; slot_bot] ->
       Dict.get d' x
       = Dict.get (init_domains
                     (zigzag [slot_top; slot_mid; slot_bot] stuck_vocabulary)) x).
Proof.
  apply (enforce_node_consistency_exact
           (zigzag [slot_top; slot_mid; slot_bot] stuck_vocabulary)).
  intros x [<-|[<-|[<-|[]]]]; vm_compute; discriminate.
Defined.

(** X3 ([enforce_node_consistency], missing domain).  The call raises
    [KeyError] exactly when some slot of the graph has no domain in the
    store, and raises nothing else. *)
Theorem enforce_node_consistency_KeyError (cw : Crossword) (d : domains) :
  (enforce_node_consistency cw d = Raise KeyError <->
   exists x, In x (variables cw) /\ Dict.get d x = None) /\
  (forall e, enforce_node_consistency cw d = Raise e -> e = KeyError).
Proof.
  assert (Hdec : covers cw d \/
                 exists x, In x (variables cw) /\ Dict.get d x = None).
  { unfold covers. induction (variables cw) as [|v vs IH].
    - left; intros x [].
    - destruct (Dict.get d v) eqn:E.
      + destruct IH as [IH|(x & Hx & Hn)].
        * left. intros x [<-|Hx]; [congruence|auto].
        * right; exists x; split; [right; exact Hx|exact Hn].
      + right; exists v; split; [left; reflexivity|exact E]. }
  split; [split|].
  - intros Hraise. destruct Hdec as [Hcov|Hex]; [|exact Hex].
    destruct (enforce_loop_exact (variables cw) d Hcov) as (d' & Hrun & _).
    unfold enforce_node_consistency in Hraise. congruence.
  - intros (x & Hx & Hn). exact (enforce_raises (variables cw) d x Hx Hn).
  - intros e He. destruct Hdec as [Hcov|(x & Hx & Hn)].
    + destruct (enforce_loop_exact (variables cw) d Hcov) as (d' & Hrun & _).
      unfold enforce_node_consistency in He. congruence.
    + unfold enforce_node_consistency in He.
      rewrite (enforce_raises (variables cw) d x Hx Hn) in He. congruence.
Qed.

Lemma enforce_node_consistency_KeyError_witness :
  enforce_node_consistency (zigzag [slot_top; slot_mid; slot_bot] tie_vocabulary)
    [(slot_top, ["AB"]); (slot_bot, ["BA"])] = Raise KeyError.
Proof.
  apply (proj2 (proj1 (enforce_node_consistency_KeyError
           (zigzag [slot_top; slot_mid; slot_bot] tie_vocabulary)
           [(slot_top, ["AB"]); (slot_bot, ["BA"])]))).
  exists slot_mid. split; [simpl; auto | reflexivity].
Defined.

(** X4 ([enforce_node_consistency], idempotence).  A second call after one
    that returned leaves the store exactly as the first call left it. *)
Theorem enforce_node_consistency_idempotent (cw : Crossword) (d d1 : domains) :
  enforce_node_consistency cw d = Ok d1 ->
  enforce_node_consistency cw d1 = Ok d1.
Proof.
  intros H.
  pose proof (enforce_node_consistency_covers cw d d1 H) as Hcov1.
  destruct (enforce_covers _ _ _ H) as [_ Hcov].
  destruct (enforce_node_consistency_spec cw d Hcov) as (d1' & Hrun & _ & Hnc).
  rewrite Hrun in H; injection H as ->.
  apply enforce_loop_fixed; [exact Hcov1|].
  intros x ws w Hx Hget Hin. exact (Hnc x ws w Hx Hget Hin).
Qed.

Lemma enforce_node_consistency_idempotent_witness :
  enforce_node_consistency
    (zigzag [slot_top; slot_mid; slot_bot] stuck_vocabulary)
    [(slot_top, ["AB"; "CD"; "EF"; "GH"]);
     (slot_mid, ["BAA"; "BOA"; "BRA"; "DIE"; "DIG"]);
     (slot_bot, ["AB"; "CD"; "EF"; "GH"])]
  = Ok [(slot_top, ["AB"; "CD"; "EF"; "GH"]);
        (slot_mid, ["BAA"; "BOA"; "BRA"; "DIE"; "DIG"]);
        (slot_bot, ["AB"; "CD"; "EF"; "GH"])].
Proof.
  apply (enforce_node_consistency_idempotent
           (zigzag [slot_top; slot_mid; slot_bot] stuck_vocabulary)
           (init_domains (zigzag [slot_top; slot_mid; slot_bot] stuck_vocabulary))).
  vm_compute. reflexivity.
Defined.

(** ** Arc revision, again *)

Section ReviseAgain.
Variable cw : Crossword.

(** A word with a support in the domain of [y] survives [revise x y]. *)
Lemma revise_keeps (d d' : domains) (x y : Var) (b : bool) (i j : nat)
  (wx wy : string) :
  x <> y -> revise cw d x y = Ok (d', b) -> overlaps cw x y = Some (i, j) ->
  In wx (domain_of d x) -> In wy (domain_of d y) -> char_agree i j wx wy ->
  In wx (domain_of d' x).
Proof.
  intros Hxy Hrev Hov Hwx Hwy Hagree.
  unfold revise in Hrev. rewrite Hov in Hrev.
  inv_bind Hrev as xs Hxs. apply lookup_Ok in Hxs.
  destruct (revise_loop_Ok x y i j xs Hxy d false xs d' b Hxs Hrev) as [_ Hget].
  unfold domain_of in Hwx |- *. rewrite Hxs in Hwx. rewrite Hget.
  apply filter_In. split; [exact Hwx|].
  assert (Hs : supportedb i j (domain_of d y) wx = true)
    by (apply supportedb_spec; exists wy; auto).
  rewrite Hs. apply orb_true_r.
Qed.

(** Every turn of a loop of [revise] that ends has read the word at [i], the
    domain of [y], and compared down that domain without raising. *)
Lemma revise_loop_reads (x y : Var) (i j : nat) (l : list string) :
  x <> y ->
  forall d0 b0 st,
  foldM (revise_word x y i j) l (d0, b0) = Ok st ->
  forall w, In w l ->
  exists c ys u,
    index w i = Ok c /\ lookup d0 y = Ok ys /\ all_differ j c ys = Ok u.
Proof.
  intros Hxy. induction l as [|w0 l IH]; intros d0 b0 st H w Hin;
    simpl in *; [contradiction|].
  inv_bind H as st1 Hst1. destruct st1 as [d1 b1].
  assert (Hy : lookup d1 y = lookup d0 y).
  { apply revise_word_cases in Hst1.
    destruct Hst1 as [[-> _]|(_ & cur & _ & ->)]; [reflexivity|].
    unfold lookup. rewrite get_set_ne by exact Hxy. reflexivity. }
  destruct Hin as [<-|Hin].
  - unfold revise_word in Hst1; simpl in Hst1.
    inv_bind Hst1 as c Hc. inv_bind Hst1 as ys Hys. inv_bind Hst1 as u Hu.
    exists c, ys, u. auto.
  - destruct (IH d1 b1 st H w Hin) as (c & ys & u & Hc & Hys & Hu).
    exists c, ys, u. rewrite <- Hy. auto.
Qed.

(** A loop over supported words that the first run has read changes
    nothing. *)
Lemma revise_loop_again (x y : Var) (i j : nat) (ys : list string)
  (d1 : domains) (l : list string) :
  lookup d1 y = Ok ys ->
  (forall w, In w l ->
     supportedb i j ys w = true /\
     exists c u, index w i = Ok c /\ all_differ j c ys = Ok u) ->
  foldM (revise_word x y i j) l (d1, false) = Ok (d1, false).
Proof.
  intros Hys. induction l as [|w l IH]; intros Hl; simpl; [reflexivity|].
  destruct (Hl w (or_introl eq_refl)) as (Hs & c & u & Hc & Hu).
  unfold revise_word at 1; simpl. rewrite Hc; simpl. rewrite Hys; simpl.
  rewrite Hu; simpl.
  pose proof (all_differ_Ok _ _ _ _ Hu) as Hval.
  unfold supportedb in Hs. rewrite (proj1 (index_Ok _ _ _) Hc) in Hs.
  rewrite Hs in Hval; simpl in Hval. subst u.
  apply IH. intros w' Hw'; apply Hl; right; exact Hw'.
Qed.

End ReviseAgain.

(** X5 ([revise], idempotence).  After a call [revise x y] on two distinct
    slots has returned, a second call returns [False] and leaves the store
    as the first call left it. *)
Theorem revise_idempotent (cw : Crossword) (d d1 : domains) (x y : Var)
  (b : bool) :
  x <> y -> revise cw d x y = Ok (d1, b) ->
  revise cw d1 x y = Ok (d1, false).
Proof.
  intros Hxy Hrev. pose proof Hrev as Hrun.
  unfold revise in Hrun |- *.
  destruct (overlaps cw x y) as [[i j]|] eqn:Hov; [|reflexivity].
  inv_bind Hrun as xs Hxs. apply lookup_Ok in Hxs.
  destruct (revise_loop_Ok x y i j xs Hxy d false xs d1 b Hxs Hrun) as [_ Hget].
  rewrite (proj2 (lookup_Ok _ _ _) Hget); simpl.
  destruct xs as [|w0 xs0]; [reflexivity|].
  destruct (revise_loop_reads x y i j (w0 :: xs0) Hxy d false _ Hrun w0
              (or_introl eq_refl)) as (_ & ys & _ & _ & Hys & _).
  assert (Hys1 : lookup d1 y = Ok ys).
  { unfold lookup. rewrite (revise_frame cw d d1 x y b Hrev y) by congruence.
    exact Hys. }
  assert (Hdom : domain_of d y = ys).
  { unfold domain_of. rewrite (proj1 (lookup_Ok _ _ _) Hys). reflexivity. }
  apply (revise_loop_again x y i j ys d1 _ Hys1).
  intros w Hw. apply filter_In in Hw. destruct Hw as [Hin Hkeep].
  rewrite (proj2 (memb_In _ _) Hin), Hdom in Hkeep. simpl in Hkeep.
  split; [exact Hkeep|].
  destruct (revise_loop_reads x y i j (w0 :: xs0) Hxy d false _ Hrun w Hin)
    as (c & ys' & u & Hc & Hys' & Hu).
  rewrite Hys in Hys'; injection Hys' as <-. eauto.
Qed.

Lemma revise_idempotent_witness :
  revise (zigzag [slot_top; slot_mid; slot_bot] [])
    [(slot_top, ["AB"; "CD"]); (slot_mid, ["BAA"; "DIE"])] slot_top slot_mid
  = Ok ([(slot_top, ["AB"; "CD"]); (slot_mid, ["BAA"; "DIE"])], false).
Proof.
  apply (revise_idempotent (zigzag [slot_top; slot_mid; slot_bot] [])
           [(slot_top, ["AB"; "CD"; "EF"]); (slot_mid, ["BAA"; "DIE"])]
           _ slot_top slot_mid true).
  - discriminate.
  - vm_compute. reflexivity.
Defined.

(** X6 ([revise] never removes a supported word).  A word of the domain of
    [x] for which the domain of [y] holds a word with the same character at
    the overlap is still in the domain of [x] after [revise x y]. *)
Theorem revise_keeps_supported (cw : Crossword) (d d' : domains) (x y : Var)
  (b : bool) (i j : nat) (wx wy : string) :
  x <> y -> revise cw d x y = Ok (d', b) -> overlaps cw x y = Some (i, j) ->
  In wx (domain_of d x) -> In wy (domain_of d y) ->
  String.get i wx = String.get j wy -> i < String.length wx ->
  In wx (domain_of d' x).
Proof.
  intros Hxy Hrev Hov Hwx Hwy Heq Hlt.
  apply (revise_keeps cw d d' x y b i j wx wy); auto.
  destruct (get_in_range wx i Hlt) as [c Hc].
  exists c. split; [exact Hc | congruence].
Qed.

Lemma revise_keeps_supported_witness :
  In "CD" (domain_of
             [(slot_top, ["AB"; "CD"]); (slot_mid, ["BAA"; "DIE"])] slot_top).
Proof.
  apply (revise_keeps_supported (zigzag [slot_top; slot_mid; slot_bot] [])
           [(slot_top, ["AB"; "CD"; "EF"]); (slot_mid, ["BAA"; "DIE"])]
           _ slot_top slot_mid true 1 0 "CD" "DIE").
  - discriminate.
  - vm_compute. reflexivity.
  - reflexivity.
  - simpl; auto.
  - simpl; auto.
  - reflexivity.
  - simpl; lia.
Defined.

(** ** AC-3, again *)

Section Ac3Again.
Variable cw : Crossword.

(** A run of the loop that ends is the same with more fuel. *)
Lemma ac3_loop_more_fuel (fuel : nat) :
  forall d arcs fuel',
  ac3_loop cw fuel d arcs <> OutOfFuel -> fuel <= fuel' ->
  ac3_loop cw fuel' d arcs = ac3_loop cw fuel d arcs.
Proof.
  induction fuel as [|fuel IH]; intros d arcs fuel' Hend Hle.
  - destruct arcs as [|[x y] rest]; simpl in *; [|congruence].
    destruct fuel'; reflexivity.
  - destruct arcs as [|[x y] rest]; [destruct fuel'; reflexivity|].
    destruct fuel' as [|fuel']; [lia|]. simpl in *.
    destruct (revise cw d x y) as [[d1 revised]| |]; simpl in *;
      try reflexivity.
    destruct revised.
    + destruct (lookup d1 x) as [[|w xs]| |]; simpl in *; try reflexivity.
      destruct (in_dec Var_eq_dec y (neighbors cw x)); [|reflexivity].
      apply IH; [exact Hend | lia].
    + apply IH; [exact Hend | lia].
Qed.

(** On a queue of arcs whose revision changes nothing the loop changes
    nothing. *)
Lemma ac3_loop_unchanged (d : domains) (arcs : list (Var * Var)) :
  (forall x y, In (x, y) arcs -> revise cw d x y = Ok (d, false)) ->
  forall fuel, List.length arcs <= fuel ->
  ac3_loop cw fuel d arcs = Ok (d, true).
Proof.
  induction arcs as [|[x y] rest IH]; intros Hrev fuel Hfuel.
  - destruct fuel; reflexivity.
  - destruct fuel as [|fuel]; simpl in *; [lia|].
    rewrite (Hrev x y (or_introl eq_refl)); simpl.
    apply IH; [|lia]. intros a c Hin; apply Hrev; right; exact Hin.
Qed.

Lemma ac3_unchanged (d : domains) :
  (forall x y, In (x, y) (all_arcs cw) -> revise cw d x y = Ok (d, false)) ->
  ac3 cw d None = Ok (d, true).
Proof.
  intros H. unfold ac3. apply ac3_loop_unchanged; [exact H|].
  unfold ac3_fuel. lia.
Qed.

(** The loop keeps every word of a solution that lies within the store, and
    then cannot report failure. *)
Lemma ac3_loop_keeps_solution (a : assignment) (fuel : nat) :
  (forall x y, In x (variables cw) -> In y (neighbors cw x) ->
               In y (variables cw) /\ x <> y) ->
  forall d arcs d' b,
  (forall x y, In (x, y) arcs ->
               In x (variables cw) /\ In y (variables cw) /\ x <> y) ->
  solution_within cw d a ->
  ac3_loop cw fuel d arcs = Ok (d', b) ->
  solution_within cw d' a /\ b = true.
Proof.
  intros Hgraph. induction fuel as [|fuel IH]; intros d arcs d' b Harcs Hsol H;
    destruct arcs as [|[x y] rest]; simpl in H; try discriminate;
    try (injection H as <- <-; auto).
  inv_bind H as st Hrev. destruct st as [d1 revised]; simpl in H.
  destruct (Harcs x y (or_introl eq_refl)) as (Hx & Hy & Hxy).
  assert (Hsol1 : solution_within cw d1 a).
  { destruct Hsol as [Hwords Hagree]. split; [|exact Hagree].
    intros v Hv. destruct (Hwords v Hv) as (w & Hget & Hin).
    exists w; split; [exact Hget|].
    destruct (Var_eq_dec v x) as [->|Hne].
    - destruct (overlaps cw x y) as [[i j]|] eqn:Hov.
      + destruct (Hwords y Hy) as (wy & Hgy & Hiny).
        apply (revise_keeps cw d d1 x y revised i j w wy); auto.
        exact (Hagree x y i j w wy Hx Hy Hov Hget Hgy).
      + unfold revise in Hrev. rewrite Hov in Hrev.
        injection Hrev as <- _. exact Hin.
    - unfold domain_of. rewrite (revise_frame cw d d1 x y revised Hrev v Hne).
      exact Hin. }
  destruct revised.
  - inv_bind H as xs Hxs. apply lookup_Ok in Hxs.
    destruct xs as [|w xs].
    + exfalso. destruct (proj1 Hsol1 x Hx) as (wx & _ & Hin).
      unfold domain_of in Hin. rewrite Hxs in Hin. exact Hin.
    + destruct (in_dec Var_eq_dec y (neighbors cw x)); [|discriminate].
      apply (IH _ _ _ _ ) in H; [exact H| |exact Hsol1].
      intros u v Hin. apply in_app_or in Hin. destruct Hin as [Hin|Hin].
      * apply Harcs; right; exact Hin.
      * apply in_map_iff in Hin. destruct Hin as (z & Heq & Hz).
        injection Heq as <- <-. apply in_remove in Hz. destruct Hz as [Hz _].
        destruct (Hgraph x z Hx Hz) as [Hzv Hxz].
        split; [exact Hzv|]. split; [exact Hx | congruence].
  - apply (IH _ _ _ _) in H; [exact H| |exact Hsol1].
    intros u v Hin; apply Harcs; right; exact Hin.
Qed.

End Ac3Again.

(** X7 ([ac3] terminates).  For every store and every initial list of arcs,
    the caller's or the graph's, the [while] loop ends within
    [len(arcs) + words * degree] turns, [words] the number of words in the
    store and [degree] the largest neighbor count of a key of the store:
    with that many turns or more allowed the loop gives the outcome of
    [ac3], which is a value or an exception. *)
Theorem ac3_runs_to_completion (cw : Crossword) (d : domains)
  (arcs : option (list (Var * Var))) (fuel : nat) :
  ac3_fuel cw d (match arcs with None => all_arcs cw | Some l => l end)
  <= fuel ->
  ac3_loop cw fuel d (match arcs with None => all_arcs cw | Some l => l end)
  = ac3 cw d arcs /\
  ac3 cw d arcs <> OutOfFuel.
Proof.
  intros Hfuel. split; [|apply ac3_terminates].
  unfold ac3. apply ac3_loop_more_fuel; [|exact Hfuel].
  apply ac3_loop_terminates. apply le_n.
Qed.

Lemma ac3_runs_to_completion_witness :
  ac3_loop (zigzag [slot_top; slot_mid; slot_bot] []) 100
    [(slot_top, ["AB"; "CD"; "EF"]); (slot_mid, ["BAA"; "DIE"; "FIG"]);
     (slot_bot, ["AB"; "EF"])]
    [(slot_bot, slot_mid); (slot_top, slot_mid)]
  = ac3 (zigzag [slot_top; slot_mid; slot_bot] [])
      [(slot_top, ["AB"; "CD"; "EF"]); (slot_mid, ["BAA"; "DIE"; "FIG"]);
       (slot_bot, ["AB"; "EF"])]
      (Some [(slot_bot, slot_mid); (slot_top, slot_mid)]) /\
  ac3 (zigzag [slot_top; slot_mid; slot_bot] [])
    [(slot_top, ["AB"; "CD"; "EF"]); (slot_mid, ["BAA"; "DIE"; "FIG"]);
     (slot_bot, ["AB"; "EF"])]
    (Some [(slot_bot, slot_mid); (slot_top, slot_mid)]) <> OutOfFuel.
Proof.
  apply (ac3_runs_to_completion (zigzag [slot_top; slot_mid; slot_bot] [])
           _ (Some [(slot_bot, slot_mid); (slot_top, slot_mid)]) 100).
  vm_compute. repeat constructor.
Defined.

(** X8 ([ac3] loses no solution).  On a graph whose neighbors are other
    slots of the graph, let an assignment give every slot a word of its
    domain and agree at every overlap.  Then [ac3()], if it returns, returns
    [True], and every word of the assignment is still in the domain of its
    slot. *)
Theorem ac3_keeps_solutions (cw : Crossword) (d d' : domains) (b : bool)
  (a : assignment) :
  (forall x y, In x (variables cw) -> In y (neighbors cw x) ->
               In y (variables cw) /\ x <> y) ->
  solution_within cw d a ->
  ac3 cw d None = Ok (d', b) ->
  b = true /\ solution_within cw d' a.
Proof.
  intros Hgraph Hsol Hac. unfold ac3 in Hac.
  destruct (ac3_loop_keeps_solution cw a (ac3_fuel cw d (all_arcs cw)) Hgraph
              d (all_arcs cw) d' b) as [Hsol' Hb];
    [|exact Hsol|exact Hac|auto].
  intros x y Hin. unfold all_arcs in Hin. apply in_flat_map in Hin.
  destruct Hin as (v & Hv & Hin). apply in_map_iff in Hin.
  destruct Hin as (n & Heq & Hn). injection Heq as <- <-.
  destruct (Hgraph v n Hv Hn). auto.
Qed.

Lemma stuck_solution_within :
  solution_within (zigzag [slot_top; slot_mid; slot_bot] stuck_vocabulary)
    [(slot_top, ["AB"; "CD"; "EF"; "GH"]);
     (slot_mid, ["BAA"; "BOA"; "BRA"; "DIE"; "DIG"]);
     (slot_bot, ["AB"; "CD"; "EF"; "GH"])]
    stuck_solution.
Proof.
  split.
  - intros x [<-|[<-|[<-|[]]]]; eexists; (split; [reflexivity|simpl; tauto]).
  - intros x y i j wx wy Hx Hy.
    destruct Hx as [<-|[<-|[<-|[]]]]; destruct Hy as [<-|[<-|[<-|[]]]];
      vm_compute; intros Hov Hgx Hgy; try discriminate;
      injection Hov as <- <-; injection Hgx as <-; injection Hgy as <-;
      eexists; split; reflexivity.
Defined.

Lemma ac3_keeps_solutions_witness :
  true = true /\
  solution_within (zigzag [slot_top; slot_mid; slot_bot] stuck_vocabulary)
    stuck_domains stuck_solution.
Proof.
  apply (ac3_keeps_solutions
           (zigzag [slot_top; slot_mid; slot_bot] stuck_vocabulary)
           [(slot_top, ["AB"; "CD"; "EF"; "GH"]);
            (slot_mid, ["BAA"; "BOA"; "BRA"; "DIE"; "DIG"]);
            (slot_bot, ["AB"; "CD"; "EF"; "GH"])]
           stuck_domains true stuck_solution).
  - intros x y [<-|[<-|[<-|[]]]]; simpl;
      intros Hy; repeat (destruct Hy as [<-|Hy]; [split; [auto|discriminate]|]);
      contradiction.
  - exact stuck_solution_within.
  - vm_compute. reflexivity.
Defined.

(** X9 ([ac3], idempotence).  On a well-formed graph and a node-consistent
    store with a domain for every slot, a call [ac3()] after one that
    returned [True] returns [True] and leaves the store as it found it. *)
Theorem ac3_idempotent (cw : Crossword) (d d1 : domains) :
  well_formed cw -> covers cw d -> node_consistent cw d ->
  ac3 cw d None = Ok (d1, true) ->
  ac3 cw d1 None = Ok (d1, true).
Proof.
  intros Hwf Hcov Hnc Hac.
  destruct (ac3_closure cw Hwf d Hcov Hnc) as (d' & b & Hrun & Hs & Harc).
  rewrite Hrun in Hac; injection Hac as -> ->.
  specialize (Harc eq_refl).
  pose proof (shrinks_covers cw d d1 Hs Hcov) as Hcov1.
  pose proof (shrinks_node_consistent cw d d1 Hs Hnc) as Hnc1.
  apply ac3_unchanged. intros x y Hin.
  apply (all_arcs_spec cw x y) in Hin. destruct Hin as [Hx Hyn].
  destruct (neighbor_facts cw Hwf x y Hx Hyn)
    as (Hy & Hxy & _ & i & j & Hov & _ & Hi & Hj).
  destruct (Dict.get d1 x) as [xs|] eqn:Hgx; [|exfalso; exact (Hcov1 x Hx Hgx)].
  destruct (Dict.get d1 y) as [ys|] eqn:Hgy; [|exfalso; exact (Hcov1 y Hy Hgy)].
  destruct (revise_overlap_spec cw d1 x y i j xs ys Hov Hxy Hgx Hgy)
    as (d2 & b & xs' & Hrev & _ & Hmem & _ & _ & Hb).
  { intros w Hw. rewrite (Hnc1 x xs w Hx Hgx Hw); exact Hi. }
  { intros u Hu. rewrite (Hnc1 y ys u Hy Hgy Hu); exact Hj. }
  destruct b.
  - exfalso. destruct (proj1 Hb eq_refl) as (w & Hw & Hnot).
    apply Hnot, Hmem. split; [exact Hw|].
    exact (Harc x y Hx Hyn i j xs ys Hov Hgx Hgy w Hw).
  - rewrite Hrev. f_equal. f_equal.
    apply (revise_monotone cw x y d1 d2 false Hrev). reflexivity.
Qed.

Lemma ac3_idempotent_witness :
  ac3 (zigzag [slot_top; slot_mid; slot_bot] stuck_vocabulary)
    stuck_domains None = Ok (stuck_domains, true).
Proof.
  apply (ac3_idempotent
           (zigzag [slot_top; slot_mid; slot_bot] stuck_vocabulary)
           [(slot_top, ["AB"; "CD"; "EF"; "GH"]);
            (slot_mid, ["BAA"; "BOA"; "BRA"; "DIE"; "DIG"]);
            (slot_bot, ["AB"; "CD"; "EF"; "GH"])]).
  - apply well_formedb_sound; reflexivity.
  - intros x [<-|[<-|[<-|[]]]]; vm_compute; discriminate.
  - intros x ws w [<-|[<-|[<-|[]]]] Hget Hin; vm_compute in Hget;
      inversion Hget; subst ws; simpl in Hin;
      repeat (destruct Hin as [<-|Hin]; [reflexivity|]); contradiction.
  - vm_compute. reflexivity.
Defined.

(** X10 ([ac3] with arcs of the caller).  On a well-formed graph and a
    node-consistent store with a domain for every slot, let [arcs] hold arcs
    of the graph, and let every arc of the graph outside [arcs] be supported
    already.  Then [ac3(arcs)] returns normally, only removes words, and
    when it returns [True] every arc of the graph is supported. *)
Theorem ac3_given_arcs (cw : Crossword) (d : domains)
  (arcs : list (Var * Var)) :
  well_formed cw -> covers cw d -> node_consistent cw d ->
  (forall x y, In (x, y) arcs -> In x (variables cw) /\ In y (neighbors cw x)) ->
  (forall x y, In x (variables cw) -> In y (neighbors cw x) ->
               ~ In (x, y) arcs -> arc_supported cw d x y) ->
  exists d' b,
    ac3 cw d (Some arcs) = Ok (d', b) /\ shrinks d d' /\
    (b = true -> arc_consistent cw d').
Proof.
  intros Hwf Hcov Hnc Harcs Hrest.
  assert (Hinv : ac3_invariant cw d arcs).
  { constructor; auto. intros x y Hx Hy.
    destruct (in_dec arc_eq_dec (x, y) arcs) as [Hin|Hnin]; auto. }
  pose proof (ac3_loop_closure cw Hwf (ac3_fuel cw d arcs) d arcs Hinv) as H.
  pose proof (ac3_terminates cw d (Some arcs)) as Hfuel.
  unfold ac3 in *.
  destruct (ac3_loop cw (ac3_fuel cw d arcs) d arcs) as [[d' b]| |] eqn:E;
    [|contradiction|congruence].
  exists d', b. split; [reflexivity|].
  split; [eapply ac3_loop_shrinks; exact E|].
  intros ->; exact H.
Qed.

Lemma ac3_given_arcs_witness :
  exists d' b,
    ac3 (zigzag [slot_top; slot_mid; slot_bot] stuck_vocabulary)
      [(slot_top, ["AB"; "CD"]);
       (slot_mid, ["BAA"; "BOA"; "BRA"; "DIE"]);
       (slot_bot, ["AB"; "EF"; "GH"])]
      (Some [(slot_bot, slot_mid)]) = Ok (d', b) /\
    shrinks [(slot_top, ["AB"; "CD"]);
             (slot_mid, ["BAA"; "BOA"; "BRA"; "DIE"]);
             (slot_bot, ["AB"; "EF"; "GH"])] d' /\
    (b = true ->
     arc_consistent (zigzag [slot_top; slot_mid; slot_bot] stuck_vocabulary) d').
Proof.
  apply ac3_given_arcs.
  - apply well_formedb_sound; reflexivity.
  - intros x [<-|[<-|[<-|[]]]]; vm_compute; discriminate.
  - intros x ws w [<-|[<-|[<-|[]]]] Hget Hin; vm_compute in Hget;
      inversion Hget; subst ws; simpl in Hin;
      repeat (destruct Hin as [<-|Hin]; [reflexivity|]); contradiction.
  - intros x y [Heq|[]]. injection Heq as <- <-. simpl; auto.
  - intros x y Hx Hy Hnot i j xs ys Hov Hgx Hgy w Hw.
    destruct Hx as [<-|[<-|[<-|[]]]]; simpl in Hy;
      repeat (destruct Hy as [<-|Hy]);
      try contradiction;
      try (exfalso; apply Hnot; left; reflexivity);
      vm_compute in Hov, Hgx, Hgy;
      injection Hov as <- <-; injection Hgx as <-; injection Hgy as <-;
      simpl in Hw;
      repeat (destruct Hw as [<-|Hw];
              [first [ exists "BAA"; split; [simpl; tauto|eexists; split; reflexivity]
                     | exists "DIE"; split; [simpl; tauto|eexists; split; reflexivity]
                     | exists "AB"; split; [simpl; tauto|eexists; split; reflexivity]
                     | exists "CD"; split; [simpl; tauto|eexists; split; reflexivity]
                     | exists "EF"; split; [simpl; tauto|eexists; split; reflexivity] ]|]);
      contradiction.
Defined.

(** X11 ([ac3] on empty domains).  When the domain of every slot of the
    graph is empty, [ac3()] returns [True] and leaves the store as it is:
    the value returned reports the domains the call has emptied, not the
    domains that are empty. *)
Theorem ac3_all_empty (cw : Crossword) (d : domains) :
  (forall x, In x (variables cw) -> Dict.get d x = Some []) ->
  ac3 cw d None = Ok (d, true).
Proof.
  intros Hempty. apply ac3_unchanged. intros x y Hin.
  unfold all_arcs in Hin. apply in_flat_map in Hin.
  destruct Hin as (v & Hv & Hin). apply in_map_iff in Hin.
  destruct Hin as (n & Heq & _). injection Heq as <- _.
  unfold revise. destruct (overlaps cw v y) as [[i j]|]; [|reflexivity].
  unfold lookup. rewrite (Hempty v Hv). reflexivity.
Qed.

Lemma ac3_all_empty_witness :
  ac3 (zigzag [slot_top; slot_mid; slot_bot] [])
    [(slot_top, []); (slot_mid, []); (slot_bot, [])] None
  = Ok ([(slot_top, []); (slot_mid, []); (slot_bot, [])], true).
Proof.
  apply ac3_all_empty.
  intros x [<-|[<-|[<-|[]]]]; reflexivity.
Defined.

(** ** The consistency check, exactly *)

Lemma NoDup_add_all_length (l : list string) :
  forall items, NoDup l -> (forall v, In v l -> ~ In v items) ->
  List.length (add_all l items) = List.length items + List.length l.
Proof.
  unfold add_all. induction l as [|v l IH]; intros items Hnd Hdisj; simpl; [lia|].
  inversion Hnd as [|? ? Hnotin Hnd']; subst.
  rewrite IH; [| exact Hnd' |].
  - rewrite set_add_length.
    destruct (in_dec string_dec v items) as [Hin|_]; [|lia].
    exfalso; apply (Hdisj v); [left; reflexivity | exact Hin].
  - intros u Hu Hin. apply set_add_elim in Hin. destruct Hin as [->|Hin].
    + contradiction.
    + apply (Hdisj u); [right; exact Hu | exact Hin].
Qed.

Section ConsistentExact.
Variable cw : Crossword.

Lemma check_neighbors_passes (a : assignment) (key : Var) (value : string)
  (ns : list Var) :
  (forall n i j w, In n ns -> overlaps cw key n = Some (i, j) ->
     Dict.get a n = Some w -> w <> "" -> char_agree i j value w) ->
  check_neighbors cw a key value ns = Ok true.
Proof.
  induction ns as [|n ns IH]; intros H; simpl; [reflexivity|].
  assert (IH' : check_neighbors cw a key value ns = Ok true)
    by (apply IH; intros n0 i j w Hin; apply H; right; exact Hin).
  destruct (overlaps cw key n) as [[i j]|] eqn:Hov; [|exact IH'].
  destruct (Dict.get a n) as [[|c w]|] eqn:Hget; simpl; try exact IH'.
  destruct (H n i j (String c w) (or_introl eq_refl) Hov Hget)
    as (c0 & H1 & H2); [discriminate|].
  rewrite (proj2 (index_Ok _ _ _) H1); simpl.
  rewrite (proj2 (index_Ok _ _ _) H2); simpl.
  rewrite Ascii.eqb_refl. exact IH'.
Qed.

Lemma consistent_loop_passes (a : assignment) (todo : list (Var * string)) :
  (forall key value, In (key, value) todo ->
     String.length value = var_length key /\
     check_neighbors cw a key value (neighbors cw key) = Ok true) ->
  forall items,
  consistent_loop cw a todo items
  = Ok (Nat.eqb (List.length (add_all (Dict.values todo) items))
                (List.length (Dict.values a))).
Proof.
  induction todo as [|[k v] todo IH]; intros H items; simpl; [reflexivity|].
  destruct (H k v (or_introl eq_refl)) as [Hlen Hcheck].
  rewrite (proj2 (Nat.eqb_eq _ _) Hlen), Hcheck; simpl.
  apply IH. intros key value Hin; apply H; right; exact Hin.
Qed.

End ConsistentExact.

(** X12 ([consistent], exactly).  [consistent] returns [True] iff every
    entry has a word of the length of its slot; for every entry and every
    neighbor of its slot with an overlap descriptor and a non-empty word,
    the two words have the same character at the overlap; and no two
    entries have the same word.  Entries with the empty string take part in
    the first and the third condition. *)
Theorem consistent_exactly (cw : Crossword) (a : assignment) :
  consistent cw a = Ok true <->
  (forall x w, In (x, w) a -> String.length w = var_length x) /\
  (forall x wx y i j wy,
     In (x, wx) a -> In y (neighbors cw x) -> overlaps cw x y = Some (i, j) ->
     Dict.get a y = Some wy -> wy <> "" -> char_agree i j wx wy) /\
  NoDup (Dict.values a).
Proof.
  unfold consistent. split.
  - intros H. destruct (consistent_loop_true cw a a [] H) as [Hall Hcount].
    split; [|split].
    + intros x w Hin. apply (Hall x w Hin).
    + intros x wx y i j wy Hin Hy Hov Hgy Hne.
      destruct (Hall x wx Hin) as [_ Hcheck].
      exact (check_neighbors_true cw a x wx _ Hcheck y i j wy Hy Hov Hgy Hne).
    + apply (add_all_length_eq (Dict.values a) []). simpl. exact Hcount.
  - intros (Hlen & Hagree & Hnd).
    rewrite consistent_loop_passes.
    + rewrite NoDup_add_all_length; [|exact Hnd|intros v _ []].
      simpl. rewrite Nat.eqb_refl. reflexivity.
    + intros key value Hin. split; [exact (Hlen key value Hin)|].
      apply check_neighbors_passes. intros n i j w Hn Hov Hget Hne.
      exact (Hagree key value n i j w Hin Hn Hov Hget Hne).
Qed.

Lemma consistent_exactly_witness :
  consistent (zigzag [slot_top; slot_mid; slot_bot] stuck_vocabulary)
    stuck_solution = Ok true.
Proof.
  apply (proj2 (consistent_exactly
                  (zigzag [slot_top; slot_mid; slot_bot] stuck_vocabulary)
                  stuck_solution)).
  split; [|split].
  - intros x w [H|[H|[H|[]]]]; injection H as <- <-; reflexivity.
  - intros x wx y i j wy [H|[H|[H|[]]]] Hy; injection H as <- <-;
      simpl in Hy; repeat (destruct Hy as [<-|Hy]); try contradiction;
      vm_compute; intros Hov Hget _;
      injection Hov as <- <-; injection Hget as <-;
      eexists; split; reflexivity.
  - unfold stuck_solution; simpl.
    repeat constructor; simpl; intuition discriminate.
Defined.

(** X13 ([consistent] and cleared entries).  A dictionary with an entry that
    [backtrack] has reset to the empty string, for a slot of positive
    length, never passes [consistent], whatever its other entries. *)
Theorem consistent_rejects_cleared (cw : Crossword) (a : assignment)
  (x : Var) :
  Dict.get a x = Some "" -> 1 <= var_length x ->
  consistent cw a <> Ok true.
Proof.
  intros Hget Hpos Hcons.
  destruct (consistent_true cw a Hcons) as (Hlen & _ & _).
  specialize (Hlen x "" Hget). simpl in Hlen. lia.
Qed.

Lemma consistent_rejects_cleared_witness :
  consistent (zigzag [slot_top; slot_mid; slot_bot] stuck_vocabulary)
    [(slot_top, "CD"); (slot_bot, "")] <> Ok true.
Proof.
  apply (consistent_rejects_cleared
           (zigzag [slot_top; slot_mid; slot_bot] stuck_vocabulary)
           [(slot_top, "CD"); (slot_bot, "")] slot_bot).
  - reflexivity.
  - simpl; lia.
Defined.

(** ** The two heuristics, again *)

Lemma mapM_raises {A B : Type} (f : A -> result B) (e : exn) (l : list A) :
  (forall a, In a l -> (exists b, f a = Ok b) \/ f a = Raise e) ->
  (exists x, In x l /\ f x = Raise e) ->
  mapM f l = Raise e.
Proof.
  induction l as [|a l IH]; intros Hall (x & Hx & Hr); simpl; [contradiction|].
  destruct (Hall a (or_introl eq_refl)) as [[b Hb]|Ha].
  - rewrite Hb; simpl. rewrite IH; [reflexivity| |].
    + intros a' Ha'; apply Hall; right; exact Ha'.
    + destruct Hx as [->|Hx]; [congruence|]. exists x; auto.
  - rewrite Ha; reflexivity.
Qed.

(** X14 ([select_unassigned_variable], what is returned).  The slot returned
    is a slot of the graph without a word in the assignment (no entry, or
    the empty string); no such slot has fewer words in its domain, and among
    such slots with as few words none has fewer neighbors. *)
Theorem select_unassigned_variable_minimal (cw : Crossword) (d : domains)
  (a : assignment) (e : Var) :
  select_unassigned_variable cw d a = Ok (Some e) ->
  In e (variables cw) /\
  (Dict.get a e = None \/ Dict.get a e = Some "") /\
  forall v, In v (variables cw) ->
    Dict.get a v = None \/ Dict.get a v = Some "" ->
    domain_size d e <= domain_size d v /\
    (domain_size d e = domain_size d v -> degree cw e <= degree cw v).
Proof.
  intros Hsel. destruct (select_some cw d a e Hsel) as (He & Hu & _).
  split; [exact He|]. split; [exact Hu|].
  intros v Hv Huv. exact (select_minimises cw d a e v Hsel Hv Huv).
Qed.

Lemma select_unassigned_variable_minimal_witness :
  In slot_bot [slot_top; slot_mid; slot_bot] /\
  (Dict.get [(slot_top, "AB"); (slot_bot, "")] slot_bot = None \/
   Dict.get [(slot_top, "AB"); (slot_bot, "")] slot_bot = Some "") /\
  forall v, In v [slot_top; slot_mid; slot_bot] ->
    Dict.get [(slot_top, "AB"); (slot_bot, "")] v = None \/
    Dict.get [(slot_top, "AB"); (slot_bot, "")] v = Some "" ->
    domain_size stuck_domains slot_bot <= domain_size stuck_domains v /\
    (domain_size stuck_domains slot_bot = domain_size stuck_domains v ->
     degree (zigzag [slot_top; slot_mid; slot_bot] stuck_vocabulary) slot_bot
     <= degree (zigzag [slot_top; slot_mid; slot_bot] stuck_vocabulary) v).
Proof.
  apply (select_unassigned_variable_minimal
           (zigzag [slot_top; slot_mid; slot_bot] stuck_vocabulary)
           stuck_domains [(slot_top, "AB"); (slot_bot, "")] slot_bot).
  vm_compute. reflexivity.
Defined.

(** X15 ([select_unassigned_variable], [None] and [KeyError]).  When every
    slot has a domain the call returns, and it returns [None] iff the
    assignment is complete.  When some slot has no domain it raises
    [KeyError], also on a complete assignment: the sort key of every slot is
    computed before the assignment is read. *)
Theorem select_unassigned_variable_outcomes (cw : Crossword) (d : domains)
  (a : assignment) :
  (covers cw d ->
   exists r, select_unassigned_variable cw d a = Ok r /\
             (r = None <-> assignment_complete cw a = true)) /\
  ((exists x, In x (variables cw) /\ Dict.get d x = None) ->
   select_unassigned_variable cw d a = Raise KeyError).
Proof.
  split.
  - intros Hcov. destruct (select_total cw d a Hcov) as [r Hr].
    exists r. split; [exact Hr|]. split.
    + intros ->. exact (select_none cw d a Hr).
    + intros Hcomplete. destruct r as [e|]; [|reflexivity].
      destruct (select_some cw d a e Hr) as (He & Hu & _).
      assert (assignment_complete cw a = false)
        by (apply assignment_complete_false; exists e; auto).
      congruence.
  - intros (x & Hx & Hnone). unfold select_unassigned_variable.
    rewrite (mapM_raises (select_key cw d) KeyError); [reflexivity| |].
    + intros v _. unfold select_key, lookup.
      destruct (Dict.get d v); simpl; eauto.
    + exists x. split; [exact Hx|]. unfold select_key, lookup.
      rewrite Hnone. reflexivity.
Qed.

Lemma select_unassigned_variable_outcomes_witness :
  (exists r,
     select_unassigned_variable
       (zigzag [slot_top; slot_mid; slot_bot] stuck_vocabulary) stuck_domains
       stuck_solution = Ok r /\
     (r = None <->
      assignment_complete
        (zigzag [slot_top; slot_mid; slot_bot] stuck_vocabulary)
        stuck_solution = true)) /\
  select_unassigned_variable
    (zigzag [slot_top; slot_mid; slot_bot] stuck_vocabulary)
    [(slot_top, ["AB"])] stuck_solution = Raise KeyError.
Proof.
  split.
  - apply (proj1 (select_unassigned_variable_outcomes
             (zigzag [slot_top; slot_mid; slot_bot] stuck_vocabulary)
             stuck_domains stuck_solution)).
    intros x [<-|[<-|[<-|[]]]]; vm_compute; discriminate.
  - apply (proj2 (select_unassigned_variable_outcomes
             (zigzag [slot_top; slot_mid; slot_bot] stuck_vocabulary)
             [(slot_top, ["AB"])] stuck_solution)).
    exists slot_mid. split; [simpl; auto | reflexivity].
Defined.

Section PermutationFacts.
Context {K A : Type} (leb : K -> K -> bool).

Lemma insert_sorted_perm (x : K * A) (l : list (K * A)) :
  Permutation (x :: l) (insert_sorted leb x l).
Proof.
  induction l as [|y l IH]; simpl; [apply Permutation_refl|].
  destruct (leb (fst x) (fst y)); [apply Permutation_refl|].
  eapply perm_trans; [apply perm_swap|]. apply perm_skip. exact IH.
Qed.

Lemma sorted_perm (l : list (K * A)) : Permutation l (sorted leb l).
Proof.
  induction l as [|x l IH]; simpl; [apply perm_nil|].
  eapply perm_trans; [apply perm_skip; exact IH | apply insert_sorted_perm].
Qed.

End PermutationFacts.

Lemma map_snd_combine {A B : Type} (ks : list A) (l : list B) :
  List.length ks = List.length l -> map snd (combine ks l) = l.
Proof.
  revert l; induction ks as [|k ks IH]; intros [|b l] H; simpl in *;
    try discriminate; [reflexivity|].
  f_equal. apply IH. lia.
Qed.

Lemma StronglySorted_map {A B : Type} (R : A -> A -> Prop)
  (R' : B -> B -> Prop) (f : A -> B) (l : list A) :
  (forall p q, In p l -> In q l -> R p q -> R' (f p) (f q)) ->
  StronglySorted R l -> StronglySorted R' (map f l).
Proof.
  intros H Hs. induction Hs as [|p l Hs IH Hp]; simpl; [constructor|].
  constructor.
  - apply IH. intros; apply H; auto; right; assumption.
  - rewrite Forall_forall in *. intros b Hb. apply in_map_iff in Hb.
    destruct Hb as (q & <- & Hq). apply H; [left; reflexivity | right; exact Hq |].
    exact (Hp q Hq).
Qed.

Lemma nat_leb_total (a b : nat) : Nat.leb a b = true \/ Nat.leb b a = true.
Proof. rewrite !Nat.leb_le. lia. Qed.

Lemma nat_leb_trans (a b c : nat) :
  Nat.leb a b = true -> Nat.leb b c = true -> Nat.leb a c = true.
Proof. rewrite !Nat.leb_le. lia. Qed.

(** X16 ([order_domain_values], what is returned).  The list returned is a
    rearrangement of the domain of the slot, each word as often as in the
    domain, in nondecreasing order of the score that [least_constraning]
    gives the words. *)
Theorem order_domain_values_sorted (cw : Crossword) (d : domains) (var : Var)
  (a : assignment) (vals : list string) :
  order_domain_values cw d var a = Ok vals ->
  exists ws,
    Dict.get d var = Some ws /\ Permutation ws vals /\
    StronglySorted
      (fun v1 v2 =>
         exists n1 n2,
           least_constraning cw d var v1 = Ok n1 /\
           least_constraning cw d var v2 = Ok n2 /\ n1 <= n2) vals.
Proof.
  unfold order_domain_values. intros H.
  inv_bind H as ws Hws. apply lookup_Ok in Hws.
  inv_bind H as ks Hks. injection H as <-.
  pose proof (mapM_length _ _ _ Hks) as Hlen.
  destruct (mapM_combine _ _ _ Hks) as [Hscore _].
  exists ws. split; [exact Hws|]. split.
  - rewrite <- (map_snd_combine ks ws Hlen) at 1.
    apply Permutation_map. apply sorted_perm.
  - apply (StronglySorted_map
             (fun p q : nat * string => Nat.leb (fst p) (fst q) = true)).
    + intros [k1 v1] [k2 v2] H1 H2 Hle; simpl in *.
      apply In_sorted in H1, H2.
      destruct (Hscore _ _ H1) as [_ E1]. destruct (Hscore _ _ H2) as [_ E2].
      exists k1, k2. apply Nat.leb_le in Hle. auto.
    + exact (sorted_ordered Nat.leb nat_leb_total nat_leb_trans _).
Qed.

Lemma order_domain_values_sorted_witness :
  exists ws,
    Dict.get stuck_domains slot_bot = Some ws /\
    Permutation ws ["AB"; "EF"; "GH"] /\
    StronglySorted
      (fun v1 v2 =>
         exists n1 n2,
           least_constraning
             (zigzag [slot_top; slot_mid; slot_bot] stuck_vocabulary)
             stuck_domains slot_bot v1 = Ok n1 /\
           least_constraning
             (zigzag [slot_top; slot_mid; slot_bot] stuck_vocabulary)
             stuck_domains slot_bot v2 = Ok n2 /\ n1 <= n2)
      ["AB"; "EF"; "GH"].
Proof.
  apply (order_domain_values_sorted
           (zigzag [slot_top; slot_mid; slot_bot] stuck_vocabulary)
           stuck_domains slot_bot []).
  vm_compute. reflexivity.
Defined.

Section ScoreFacts.
Variable cw : Crossword.

Lemma count_conflict_loop (value : string) (i j : nat) (ws : list string) :
  i < String.length value ->
  (forall w, In w ws -> j < String.length w) ->
  forall n,
  foldM (count_conflict value i j) ws n = Ok (n + conflicts i j value ws).
Proof.
  intros Hi. unfold conflicts.
  induction ws as [|w ws IH]; intros Hj n; simpl; [f_equal; lia|].
  destruct (index_in_range value i Hi) as (c1 & Hc1 & Hg1).
  destruct (index_in_range w j (Hj w (or_introl eq_refl))) as (c2 & Hc2 & Hg2).
  unfold count_conflict at 1. rewrite Hc1; simpl. rewrite Hc2; simpl.
  rewrite IH by (intros; apply Hj; right; assumption).
  rewrite Hg1, Hg2. destruct (Ascii.eqb c1 c2); simpl; f_equal; lia.
Qed.

End ScoreFacts.

Lemma least_constraning_score (cw : Crossword) (d : domains) (var : Var)
  (value : string) :
  (forall z, In z (neighbors cw var) ->
     exists i j ws,
       overlaps cw var z = Some (i, j) /\ Dict.get d z = Some ws /\
       i < String.length value /\
       forall w, In w ws -> j < String.length w) ->
  least_constraning cw d var value = Ok (ruled_out cw d var value).
Proof.
  unfold least_constraning, ruled_out.
  generalize (neighbors cw var) as ns. intros ns Hns.
  assert (G : forall n,
    foldM (fun n z =>
             match overlaps cw var z with
             | Some (i, j) =>
                 ws <- lookup d z ;; foldM (count_conflict value i j) ws n
             | None => Raise TypeError
             end) ns n
    = Ok (n + list_sum
                (map (fun z =>
                        match overlaps cw var z with
                        | Some (i, j) => conflicts i j value (domain_of d z)
                        | None => 0
                        end) ns))).
  { induction ns as [|z ns IH]; intros n; simpl; [f_equal; lia|].
    destruct (Hns z (or_introl eq_refl)) as (i & j & ws & Hov & Hget & Hi & Hj).
    rewrite Hov. rewrite (proj2 (lookup_Ok _ _ _) Hget); simpl.
    rewrite (count_conflict_loop value i j ws Hi Hj); simpl.
    rewrite IH by (intros; apply Hns; right; assumption).
    unfold domain_of. rewrite Hget. f_equal; lia. }
  exact (G 0).
Qed.

(** X17 ([least_constraning], the score).  When every neighbor of the slot
    has an overlap descriptor with it and a domain, and the indices of the
    descriptor are inside the value and inside the words of that domain, the
    score of the value is the number of words, over the neighbors' domains,
    whose character at the overlap differs from the value's. *)
Theorem least_constraning_counts (cw : Crossword) (d : domains) (var : Var)
  (value : string) :
  (forall z, In z (neighbors cw var) ->
     exists i j ws,
       overlaps cw var z = Some (i, j) /\ Dict.get d z = Some ws /\
       i < String.length value /\
       forall w, In w ws -> j < String.length w) ->
  least_constraning cw d var value = Ok (ruled_out cw d var value).
Proof. exact (least_constraning_score cw d var value). Qed.

Lemma least_constraning_counts_witness :
  least_constraning (zigzag [slot_top; slot_mid; slot_bot] stuck_vocabulary)
    stuck_domains slot_mid "DIE" = Ok 3.
Proof.
  apply (least_constraning_counts
           (zigzag [slot_top; slot_mid; slot_bot] stuck_vocabulary)
           stuck_domains slot_mid "DIE").
  simpl. intros z [<-|[<-|[]]].
  - exists 0, 1, ["AB"; "CD"]. repeat split; simpl; try lia.
    intros w [<-|[<-|[]]]; simpl; lia.
  - exists 2, 0, ["AB"; "EF"; "GH"]. repeat split; simpl; try lia.
    intros w [<-|[<-|[<-|[]]]]; simpl; lia.
Defined.

(** ** The search, again *)

Lemma shrinks_domain_of (d d' : domains) (x : Var) (w : string) :
  shrinks d d' -> In w (domain_of d' x) -> In w (domain_of d x).
Proof.
  intros [_ Hs]. unfold domain_of. destruct (Dict.get d' x) as [ws'|] eqn:E;
    [|intros []].
  destruct (Hs x ws' E) as (ws & -> & Hincl). apply Hincl.
Qed.

Section SearchInvariants.
Variable cw : Crossword.
Variable d : domains.

(** A property of dictionaries that every write at a slot of the graph
    keeps holds of the dictionary a call returns or leaves. *)
Lemma try_values_preserves (J : assignment -> Prop)
  (rec : assignment -> result search) (var : Var) :
  (forall a value, J a -> J (Dict.set a var value)) ->
  (forall a0 r, rec a0 = Ok r -> J a0 -> J (search_dict r)) ->
  forall vals a r,
  try_values cw rec var vals a = Ok r -> J a -> J (search_dict r).
Proof.
  intros Hset Hrec. induction vals as [|value rest IH]; intros a r H Ha;
    simpl in H.
  - injection H as <-. exact Ha.
  - inv_bind H as ok Hok. destruct ok; [|eauto].
    inv_bind H as r0 Hr0.
    pose proof (Hrec _ _ Hr0 (Hset a value Ha)) as H0.
    destruct r0 as [s|a2]; simpl in H0.
    + destruct (nonempty s); [injection H as <-; exact H0|].
      apply (IH _ _ H). apply Hset; exact H0.
    + apply (IH _ _ H). apply Hset; exact H0.
Qed.

Lemma backtrack_preserves (J : assignment -> Prop) :
  (forall a var value, In var (variables cw) -> J a ->
                       J (Dict.set a var value)) ->
  forall fuel a r,
  backtrack cw d fuel a = Ok r -> J a -> J (search_dict r).
Proof.
  intros Hset. induction fuel as [|fuel IH]; intros a r H Ha; simpl in H;
    [discriminate|].
  destruct (assignment_complete cw a).
  - injection H as <-. exact Ha.
  - inv_bind H as selected Hsel. destruct selected as [var|]; [|discriminate].
    inv_bind H as vals Hvals.
    destruct (select_some cw d a var Hsel) as (Hvar & _ & _).
    apply (try_values_preserves J (backtrack cw d fuel) var) with (3 := H);
      auto.
Qed.

(** The words of a dictionary returned come from the domains, when those of
    the dictionary given did. *)
Lemma try_values_from_store (fuel : nat) (var : Var) (ws : list string) :
  In var (variables cw) -> Dict.get d var = Some ws ->
  (forall a0 s, backtrack cw d fuel a0 = Ok (Solution s) ->
                from_store cw d a0 -> from_store cw d s) ->
  forall vals a s,
  incl vals ws -> from_store cw d a ->
  try_values cw (backtrack cw d fuel) var vals a = Ok (Solution s) ->
  from_store cw d s.
Proof.
  intros Hvar Hws Hrec.
  assert (Hset : forall a value, In value ws -> from_store cw d a ->
                                 from_store cw d (Dict.set a var value)).
  { intros a value Hin Ha x w. rewrite assigned_word_set.
    destruct (Var_eq_dec var x) as [<-|Hne]; [|apply Ha].
    destruct value as [|c v]; [discriminate|]. intros E; injection E as <-.
    split; [exact Hvar|]. unfold domain_of. rewrite Hws. exact Hin. }
  assert (Hclear : forall a, from_store cw d a ->
                             from_store cw d (Dict.set a var "")).
  { intros a Ha x w. rewrite assigned_word_set.
    destruct (Var_eq_dec var x); [discriminate|apply Ha]. }
  induction vals as [|value rest IH]; intros a s Hincl Ha H; simpl in H;
    [discriminate|].
  assert (Hrest : incl rest ws) by (intros v Hv; apply Hincl; right; exact Hv).
  pose proof (Hset a value (Hincl value (or_introl eq_refl)) Ha) as Hext.
  inv_bind H as ok Hok. destruct ok; [|eauto].
  inv_bind H as r Hr. destruct r as [s0|a2].
  - pose proof (Hrec _ _ Hr Hext) as Hs0.
    destruct (nonempty s0); [injection H as <-; exact Hs0|].
    apply (IH _ _ Hrest (Hclear s0 Hs0) H).
  - apply (IH (Dict.set a2 var "") s Hrest); [|exact H].
    apply Hclear. intros x w E. apply Hext.
    rewrite <- (backtrack_outcome cw d fuel _ _ Hr x). exact E.
Qed.

Lemma backtrack_from_store (fuel : nat) :
  forall a s, backtrack cw d fuel a = Ok (Solution s) ->
  from_store cw d a -> from_store cw d s.
Proof.
  induction fuel as [|fuel IH]; intros a s H Ha; simpl in H; [discriminate|].
  destruct (assignment_complete cw a).
  - injection H as <-. exact Ha.
  - inv_bind H as selected Hsel. destruct selected as [var|]; [|discriminate].
    inv_bind H as vals Hvals.
    destruct (select_some cw d a var Hsel) as (Hvar & _ & _).
    destruct (order_domain_values_In cw d var a vals Hvals) as (ws & Hws & Hin).
    apply (try_values_from_store fuel var ws Hvar Hws IH vals a s); auto.
    intros v Hv; apply Hin; exact Hv.
Qed.

(** The search changes no word of the dictionary it is given. *)
Lemma try_values_extends (fuel : nat) (var : Var) (a0 : assignment) :
  (forall a1 s, backtrack cw d fuel a1 = Ok (Solution s) ->
     forall v w, assigned_word a1 v = Some w -> assigned_word s v = Some w) ->
  forall vals a s,
  unassigned a var -> same_words a a0 ->
  try_values cw (backtrack cw d fuel) var vals a = Ok (Solution s) ->
  forall v w, assigned_word a0 v = Some w -> assigned_word s v = Some w.
Proof.
  intros Hrec. induction vals as [|value rest IH]; intros a s Hu Hsame H v w Hv;
    simpl in H; [discriminate|].
  inv_bind H as ok Hok. destruct ok; [|eauto].
  inv_bind H as r Hr. destruct r as [s0|a2].
  - destruct s0 as [|kv s1]; simpl in H.
    + exfalso. apply (backtrack_outcome cw d fuel _ _ Hr);
        [apply set_nonempty | reflexivity].
    + injection H as <-. apply (Hrec _ _ Hr).
      rewrite assigned_word_set. destruct (Var_eq_dec var v) as [<-|Hne].
      * exfalso. apply assigned_word_unassigned in Hu.
        rewrite (Hsame var) in Hu. congruence.
      * rewrite (Hsame v). exact Hv.
  - pose proof (same_words_undo a a2 var value Hu
                  (backtrack_outcome cw d fuel _ _ Hr)) as Hs.
    apply (IH (Dict.set a2 var "") s); auto.
    + apply assigned_word_unassigned. rewrite (Hs var).
      apply assigned_word_unassigned; exact Hu.
    + intros x. rewrite (Hs x). apply Hsame.
Qed.

Lemma backtrack_extends (fuel : nat) :
  forall a s, backtrack cw d fuel a = Ok (Solution s) ->
  forall v w, assigned_word a v = Some w -> assigned_word s v = Some w.
Proof.
  induction fuel as [|fuel IH]; intros a s H v w Hv; simpl in H; [discriminate|].
  destruct (assignment_complete cw a).
  - injection H as <-. exact Hv.
  - inv_bind H as selected Hsel. destruct selected as [var|]; [|discriminate].
    inv_bind H as vals Hvals.
    destruct (select_some cw d a var Hsel) as (_ & Hu & _).
    apply (try_values_extends fuel var a IH vals a s Hu); auto.
    intros x; reflexivity.
Qed.

End SearchInvariants.

Lemma solve_stages (cw : Crossword) (d : domains) (a : assignment) :
  solve cw d = Ok (Some a) ->
  exists d1 d2 ok,
    enforce_node_consistency cw d = Ok d1 /\ ac3 cw d1 None = Ok (d2, ok) /\
    backtrack cw d2 (S (List.length (variables cw))) [] = Ok (Solution a).
Proof.
  unfold solve. intros H. inv_bind H as d1 Hd1. inv_bind H as st Hac.
  destruct st as [d2 ok]; simpl in H. inv_bind H as r Hr.
  destruct r as [s|a']; simpl in H; [|discriminate]. injection H as ->.
  exists d1, d2, ok. auto.
Qed.

Lemma solve_result_satisfying (cw : Crossword) (a : assignment) :
  well_formed cw ->
  solve cw (init_domains cw) = Ok (Some a) ->
  satisfying cw a.
Proof.
  intros Hwf H.
  destruct (solve_stages cw _ a H) as (d1 & d2 & ok & Hd1 & Hac & Hb).
  destruct (backtrack_sound cw d2 _ [] a eq_refl Hb) as [Hcomplete Hcons].
  destruct (consistent_true cw a Hcons) as (Hlen & Hagree & Huniq).
  pose proof (proj1 (assignment_complete_true cw a) Hcomplete) as Hall.
  assert (Hfrom : from_store cw d2 a).
  { apply (backtrack_from_store cw d2 _ [] a Hb). intros x w E; discriminate. }
  split; [|split].
  - intros x Hx. destruct (Hall x Hx) as (w & Hget & Hne).
    exists w. split; [exact Hget|]. split; [|exact (Hlen x w Hget)].
    destruct (Hfrom x w) as [_ Hin].
    { unfold assigned_word. rewrite Hget. destruct w; congruence. }
    apply (shrinks_domain_of d1 d2 x w (ac3_shrinks cw _ _ _ _ Hac)) in Hin.
    apply (shrinks_domain_of _ d1 x w
             (proj1 (enforce_covers _ _ _ Hd1))) in Hin.
    unfold domain_of, init_domains in Hin. rewrite init_domains_get in Hin.
    destruct (in_dec Var_eq_dec x (variables cw)); [exact Hin|contradiction].
  - intros x y i j wx wy Hx Hy Hov Hgx Hgy.
    destruct (Hall y Hy) as (w & Hget & Hne).
    rewrite Hgy in Hget; injection Hget as <-.
    apply (Hagree x y i j wx wy); auto.
    apply (wf_neighbors cw Hwf x y Hx). split; [exact Hy|congruence].
  - intros x y w _ _. apply Huniq.
Qed.

(** X18 ([solve] returns a solution of the puzzle).  On a well-formed graph,
    a dictionary returned by [solve] on the store of [__init__] gives every
    slot a word of the vocabulary of the length of the slot, the words of any
    two slots with an overlap descriptor agree at the overlap, and no word
    is used twice. *)
Theorem solve_satisfying (cw : Crossword) (a : assignment) :
  well_formed cw ->
  solve cw (init_domains cw) = Ok (Some a) ->
  satisfying cw a.
Proof. exact (solve_result_satisfying cw a). Qed.

Lemma solve_satisfying_witness :
  satisfying (zigzag [slot_top; slot_mid; slot_bot] tie_vocabulary)
    [(slot_top, "AB"); (slot_bot, "BA"); (slot_mid, "BAB")].
Proof.
  apply solve_satisfying.
  - apply well_formedb_sound; reflexivity.
  - vm_compute. reflexivity.
Defined.

Lemma solve_result_keys (cw : Crossword) (d : domains) (a : assignment) :
  solve cw d = Ok (Some a) ->
  (forall k, In k (Dict.keys a) <-> In k (variables cw)) /\
  NoDup (Dict.keys a).
Proof.
  intros H.
  destruct (solve_stages cw d a H) as (d1 & d2 & ok & _ & _ & Hb).
  destruct (backtrack_sound cw d2 _ [] a eq_refl Hb) as [Hcomplete _].
  pose proof (proj1 (assignment_complete_true cw a) Hcomplete) as Hall.
  pose proof (backtrack_preserves cw d2
    (fun a0 : assignment => incl (Dict.keys a0) (variables cw)
                            /\ NoDup (Dict.keys a0))) as HJ.
  destruct (HJ) with (2 := Hb) as [Hincl Hnd].
  - intros a0 var value Hvar [Hi Hn]. split.
    + intros k Hk. apply In_keys_set in Hk. destruct Hk as [->|Hk]; auto.
    + apply NoDup_keys_set; exact Hn.
  - split; [intros k [] | constructor].
  - split; [|exact Hnd]. intros k. split; [apply Hincl|].
    intros Hk. destruct (Hall k Hk) as (w & Hget & _).
    eapply get_Some_In_keys; exact Hget.
Qed.

(** X19 ([solve], the keys of the result).  A dictionary returned by [solve]
    has exactly the slots of the graph as keys, each once. *)
Theorem solve_keys (cw : Crossword) (d : domains) (a : assignment) :
  solve cw d = Ok (Some a) ->
  (forall k, In k (Dict.keys a) <-> In k (variables cw)) /\
  NoDup (Dict.keys a).
Proof. exact (solve_result_keys cw d a). Qed.

Lemma solve_keys_witness :
  (forall k,
     In k (Dict.keys [(slot_top, "AB"); (slot_bot, "BA"); (slot_mid, "BAB")])
     <-> In k [slot_top; slot_mid; slot_bot]) /\
  NoDup (Dict.keys [(slot_top, "AB"); (slot_bot, "BA"); (slot_mid, "BAB")]).
Proof.
  apply (solve_keys (zigzag [slot_top; slot_mid; slot_bot] tie_vocabulary)
           (init_domains (zigzag [slot_top; slot_mid; slot_bot] tie_vocabulary))).
  vm_compute. reflexivity.
Defined.

(** X20 ([backtrack] keeps the words it is given).  In a dictionary returned
    by [backtrack] every slot that had a non-empty word in the dictionary
    given has that word: the search writes only slots without a word. *)
Theorem backtrack_keeps_words (cw : Crossword) (d : domains) (fuel : nat)
  (a s : assignment) :
  backtrack cw d fuel a = Ok (Solution s) ->
  forall v w, Dict.get a v = Some w -> w <> "" -> Dict.get s v = Some w.
Proof.
  intros H v w Hget Hne.
  assert (E : assigned_word a v = Some w).
  { unfold assigned_word. rewrite Hget. destruct w; congruence. }
  pose proof (backtrack_extends cw d fuel a s H v w E) as Es.
  unfold assigned_word in Es.
  destruct (Dict.get s v) as [[|c u]|]; congruence.
Qed.

Lemma backtrack_keeps_words_witness :
  backtrack (zigzag [slot_top; slot_mid; slot_bot] stuck_vocabulary)
    stuck_domains 4 [(slot_mid, "DIE")]
  = Ok (Solution [(slot_mid, "DIE"); (slot_top, "CD"); (slot_bot, "EF")]) /\
  Dict.get [(slot_mid, "DIE"); (slot_top, "CD"); (slot_bot, "EF")] slot_mid
  = Some "DIE".
Proof.
  split; [vm_compute; reflexivity|].
  apply (backtrack_keeps_words
           (zigzag [slot_top; slot_mid; slot_bot] stuck_vocabulary)
           stuck_domains 4 [(slot_mid, "DIE")]).
  - vm_compute. reflexivity.
  - reflexivity.
  - discriminate.
Defined.

(** X21 ([solve] ends).  On a graph whose slots have a positive length the
    recursion of [backtrack] below [solve] is never deeper than the number
    of slots plus one, and the loop of [ac3] ends: [solve] returns a value
    or raises. *)
Theorem solve_returns_or_raises (cw : Crossword) (d : domains) :
  (forall x, In x (variables cw) -> 1 <= var_length x) ->
  (exists r, solve cw d = Ok r) \/ (exists e, solve cw d = Raise e).
Proof.
  intros Hpos. pose proof (solve_terminates cw d Hpos) as H.
  destruct (solve cw d) as [r|e|]; [left; eauto | right; eauto | congruence].
Qed.

Lemma solve_returns_or_raises_witness :
  (exists r,
     solve (zigzag [slot_top; slot_mid; slot_bot] stuck_vocabulary)
       (init_domains (zigzag [slot_top; slot_mid; slot_bot] stuck_vocabulary))
     = Ok r) \/
  (exists e,
     solve (zigzag [slot_top; slot_mid; slot_bot] stuck_vocabulary)
       (init_domains (zigzag [slot_top; slot_mid; slot_bot] stuck_vocabulary))
     = Raise e).
Proof.
  apply solve_returns_or_raises.
  intros x [<-|[<-|[<-|[]]]]; simpl; lia.
Defined.

(** X22 ([solve] on a graph without slots).  Whatever the store, [solve]
    returns the empty dictionary, not [None]. *)
Theorem solve_no_slots (cw : Crossword) (d : domains) :
  variables cw = [] -> solve cw d = Ok (Some []).
Proof.
  intros Hvars.
  unfold solve, enforce_node_consistency, ac3, all_arcs, ac3_fuel.
  rewrite Hvars. simpl.
  assert (E : forall n, ac3_loop cw n d [] = Ok (d, true))
    by (intros [|n]; reflexivity).
  rewrite E. simpl. unfold assignment_complete. rewrite Hvars. reflexivity.
Qed.

Lemma solve_no_slots_witness :
  solve (mkCrossword [] tie_vocabulary zigzag_overlaps zigzag_neighbors) []
  = Ok (Some []).
Proof. apply solve_no_slots. reflexivity. Defined.

(** X23 ([solve] without a word for a slot).  On a well-formed graph, when
    the vocabulary has no word of the length of some slot, [solve] returns
    [None]. *)
Theorem solve_no_fitting_word (cw : Crossword) (x : Var) :
  well_formed cw -> In x (variables cw) ->
  (forall w, In w (words cw) -> String.length w <> var_length x) ->
  solve cw (init_domains cw) = Ok None.
Proof.
  intros Hwf Hx Hnone.
  destruct (enforce_loop_exact (variables cw) (init_domains cw)
              (init_domains_covers cw)) as (d1 & Hd1 & Hget1).
  destruct (enforce_node_consistency_spec cw (init_domains cw)
              (init_domains_covers cw)) as (d1' & Hd1' & _ & Hnc).
  unfold enforce_node_consistency in Hd1'. rewrite Hd1 in Hd1'.
  injection Hd1' as <-.
  pose proof (enforce_node_consistency_covers cw _ d1 Hd1) as Hcov1.
  destruct (ac3_closure cw Hwf d1 Hcov1 Hnc) as (d2 & ok & Hac & Hs & _).
  assert (Hempty1 : Dict.get d1 x = Some []).
  { rewrite Hget1. destruct (in_dec Var_eq_dec x (variables cw));
      [|contradiction].
    unfold init_domains. rewrite init_domains_get.
    destruct (in_dec Var_eq_dec x (variables cw)); [|contradiction].
    simpl. f_equal.
    induction (words cw) as [|w ws IH]; simpl; [reflexivity|].
    unfold fits at 1.
    destruct (Nat.eqb (String.length w) (var_length x)) eqn:E.
    - apply Nat.eqb_eq in E. exfalso. exact (Hnone w (or_introl eq_refl) E).
    - apply IH. intros u Hu; apply Hnone; right; exact Hu. }
  assert (Hempty2 : Dict.get d2 x = Some []).
  { pose proof (shrinks_covers cw d1 d2 Hs Hcov1 x Hx) as Hc.
    destruct (Dict.get d2 x) as [ws2|] eqn:E; [|congruence].
    destruct (proj2 Hs x ws2 E) as (ws1 & E1 & Hincl).
    rewrite Hempty1 in E1; injection E1 as <-.
    destruct ws2 as [|w ws2]; [reflexivity|].
    destruct (Hincl w (or_introl eq_refl)). }
  unfold solve. unfold enforce_node_consistency. rewrite Hd1; cbn [bind].
  rewrite Hac; cbn [bind].
  rewrite (backtrack_empty_domain cw d2 _ x
             (shrinks_covers cw d1 d2 Hs Hcov1) Hx Hempty2).
  reflexivity.
Qed.

Lemma solve_no_fitting_word_witness :
  solve (zigzag [slot_top; slot_mid; slot_bot] ["AB"; "BA"; "ABBA"])
    (init_domains (zigzag [slot_top; slot_mid; slot_bot] ["AB"; "BA"; "ABBA"]))
  = Ok None.
Proof.
  apply (solve_no_fitting_word
           (zigzag [slot_top; slot_mid; slot_bot] ["AB"; "BA"; "ABBA"]) slot_mid).
  - apply well_formedb_sound; reflexivity.
  - simpl; auto.
  - simpl. intros w [<-|[<-|[<-|[]]]]; simpl; lia.
Defined.

Lemma propagation_keeps (cw : Crossword) (a : assignment) :
  well_formed cw -> satisfying cw a ->
  exists d1 d2,
    enforce_node_consistency cw (init_domains cw) = Ok d1 /\
    ac3 cw d1 None = Ok (d2, true) /\
    solution_within cw d2 a.
Proof.
  intros Hwf (Hwords & Hagree & _).
  destruct (enforce_loop_exact (variables cw) (init_domains cw)
              (init_domains_covers cw)) as (d1 & Hd1 & Hget1).
  destruct (enforce_node_consistency_spec cw (init_domains cw)
              (init_domains_covers cw)) as (d1' & Hd1' & _ & Hnc).
  unfold enforce_node_consistency in Hd1'. rewrite Hd1 in Hd1'.
  injection Hd1' as <-.
  pose proof (enforce_node_consistency_covers cw _ d1 Hd1) as Hcov1.
  destruct (ac3_closure cw Hwf d1 Hcov1 Hnc) as (d2 & ok & Hac & _ & _).
  assert (Hsol1 : solution_within cw d1 a).
  { split; [|exact Hagree]. intros x Hx.
    destruct (Hwords x Hx) as (w & Hget & Hin & Hlen).
    exists w. split; [exact Hget|].
    unfold domain_of. rewrite Hget1.
    destruct (in_dec Var_eq_dec x (variables cw)); [|contradiction].
    unfold init_domains. rewrite init_domains_get.
    destruct (in_dec Var_eq_dec x (variables cw)); [|contradiction].
    simpl. apply filter_In. split; [exact Hin|].
    unfold fits. apply Nat.eqb_eq; exact Hlen. }
  unfold ac3 in Hac.
  destruct (ac3_loop_keeps_solution cw a (ac3_fuel cw d1 (all_arcs cw))
              (fun x y Hx Hy =>
                 match neighbor_facts cw Hwf x y Hx Hy with
                 | conj Hyv (conj Hxy _) => conj Hyv Hxy
                 end)
              d1 (all_arcs cw) d2 ok) as [Hsol2 ->];
    [|exact Hsol1|exact Hac|].
  - intros x y Hin. apply (all_arcs_spec cw x y) in Hin.
    destruct Hin as [Hx Hy].
    destruct (neighbor_facts cw Hwf x y Hx Hy) as (Hyv & Hxy & _). auto.
  - exists d1, d2. auto.
Qed.

(** X24 (propagation loses no solution).  On a well-formed graph, when the
    puzzle has a solution -- a word of the vocabulary of the right length for
    every slot, agreeing at the overlaps, none used twice -- node consistency
    on the store of [__init__] followed by [ac3()] returns [True] and leaves
    every word of that solution in the domain of its slot. *)
Theorem propagation_keeps_solutions (cw : Crossword) (a : assignment) :
  well_formed cw -> satisfying cw a ->
  exists d1 d2,
    enforce_node_consistency cw (init_domains cw) = Ok d1 /\
    ac3 cw d1 None = Ok (d2, true) /\
    solution_within cw d2 a.
Proof. exact (propagation_keeps cw a). Qed.

Lemma propagation_keeps_solutions_witness :
  exists d1 d2,
    enforce_node_consistency
      (zigzag [slot_top; slot_mid; slot_bot] stuck_vocabulary)
      (init_domains (zigzag [slot_top; slot_mid; slot_bot] stuck_vocabulary))
    = Ok d1 /\
    ac3 (zigzag [slot_top; slot_mid; slot_bot] stuck_vocabulary) d1 None
    = Ok (d2, true) /\
    solution_within (zigzag [slot_top; slot_mid; slot_bot] stuck_vocabulary)
      d2 stuck_solution.
Proof.
  apply propagation_keeps_solutions.
  - apply well_formedb_sound; reflexivity.
  - exact stuck_solution_satisfying.
Defined.

(** ** Rendering *)

Lemma foldM_map {A B C : Type} (f : A -> B -> result A) (h : C -> B)
  (l : list C) :
  forall a, foldM f (map h l) a = foldM (fun a c => f a (h c)) l a.
Proof.
  induction l as [|c l IH]; intros a; simpl; [reflexivity|].
  destruct (f a (h c)); simpl; auto.
Qed.

Lemma foldM_flat_map {A B C : Type} (f : A -> B -> result A)
  (h : C -> list B) (l : list C) :
  forall a, foldM (fun a c => foldM f (h c) a) l a = foldM f (flat_map h l) a.
Proof.
  induction l as [|c l IH]; intros a; simpl; [reflexivity|].
  rewrite foldM_app. destruct (foldM f (h c) a); simpl; auto.
Qed.

Lemma replace_nth_length {A : Type} (n : nat) (x : A) (l : list A) :
  List.length (replace_nth n x l) = List.length l.
Proof.
  revert n; induction l as [|y l IH]; intros [|n]; simpl; auto.
Qed.

Lemma nth_error_replace_nth {A : Type} (n m : nat) (x : A) (l : list A) :
  nth_error (replace_nth n x l) m
  = if Nat.eq_dec n m
    then match nth_error l m with Some _ => Some x | None => None end
    else nth_error l m.
Proof.
  revert n m; induction l as [|y l IH]; intros n m.
  - destruct n, m; cbn [replace_nth nth_error];
      destruct (Nat.eq_dec _ _); reflexivity.
  - destruct n as [|n], m as [|m]; cbn [replace_nth nth_error].
    + destruct (Nat.eq_dec 0 0); [reflexivity|lia].
    + destruct (Nat.eq_dec 0 (S m)); [lia|reflexivity].
    + destruct (Nat.eq_dec (S n) 0); [lia|reflexivity].
    + rewrite IH. destruct (Nat.eq_dec n m), (Nat.eq_dec (S n) (S m));
        try reflexivity; lia.
Qed.

Lemma In_replace_nth {A : Type} (n : nat) (x y : A) (l : list A) :
  In y (replace_nth n x l) -> y = x \/ In y l.
Proof.
  revert n; induction l as [|z l IH]; intros n; destruct n as [|n]; simpl;
    try tauto.
  - intros [H|H]; auto.
  - intros [H|H]; [auto|]. destruct (IH n H); auto.
Qed.

Lemma blank_grid_shape (height width : nat) :
  has_shape height width (blank_grid height width).
Proof.
  unfold has_shape, blank_grid. split; [apply repeat_length|].
  intros row Hrow. apply repeat_spec in Hrow. subst. apply repeat_length.
Qed.

Lemma nth_error_repeat_None {A : Type} (n m : nat) (x : A) :
  nth_error (repeat x n) m = if Nat.ltb m n then Some x else None.
Proof.
  revert m; induction n as [|n IH]; intros [|m]; simpl; try reflexivity.
  rewrite IH. reflexivity.
Qed.

Lemma blank_grid_cell (height width : nat) (p : nat * nat) :
  cell_at (blank_grid height width) p = None.
Proof.
  unfold cell_at, blank_grid. rewrite nth_error_repeat_None.
  destruct (Nat.ltb (fst p) height); [|reflexivity].
  rewrite nth_error_repeat_None. destruct (Nat.ltb (snd p) width); reflexivity.
Qed.

Section GridFacts.
Variables height width : nat.

(** A write inside the array changes the cell written and nothing else. *)
Lemma set_cell_inside (g : letters_grid) (i j : nat) (c : ascii) :
  has_shape height width g -> i < height -> j < width ->
  exists g',
    set_cell g i j c = Ok g' /\ has_shape height width g' /\
    forall p, cell_at g' p = if cell_eq_dec (i, j) p then Some c else cell_at g p.
Proof.
  intros [Hlen Hrows] Hi Hj. unfold set_cell.
  destruct (nth_error g i) as [row|] eqn:Hrow;
    [|apply nth_error_None in Hrow; lia].
  assert (Hw : List.length row = width)
    by (apply Hrows; eapply nth_error_In; exact Hrow).
  rewrite (proj2 (Nat.ltb_lt _ _)) by lia.
  eexists. split; [reflexivity|]. split.
  - split; [rewrite replace_nth_length; exact Hlen|].
    intros r Hr. apply In_replace_nth in Hr. destruct Hr as [->|Hr]; [|auto].
    rewrite replace_nth_length. exact Hw.
  - intros [pi pj]. unfold cell_at; simpl. rewrite nth_error_replace_nth.
    destruct (Nat.eq_dec i pi) as [<-|Hne].
    + rewrite Hrow. rewrite nth_error_replace_nth.
      destruct (Nat.eq_dec j pj) as [<-|Hnej].
      * destruct (cell_eq_dec (i, j) (i, j)); [|congruence].
        destruct (nth_error row j) eqn:E; [reflexivity|].
        apply nth_error_None in E; lia.
      * destruct (cell_eq_dec (i, j) (i, pj)) as [E|_]; [congruence|reflexivity].
    + destruct (cell_eq_dec (i, j) (pi, pj)) as [E|_]; [congruence|reflexivity].
Qed.

(** A write outside the array raises [IndexError]. *)
Lemma set_cell_outside (g : letters_grid) (i j : nat) (c : ascii) :
  has_shape height width g -> ~ (i < height /\ j < width) ->
  set_cell g i j c = Raise IndexError.
Proof.
  intros [Hlen Hrows] Hout. unfold set_cell.
  destruct (nth_error g i) as [row|] eqn:Hrow; [|reflexivity].
  assert (Hi : i < height).
  { rewrite <- Hlen. apply nth_error_Some. congruence. }
  assert (Hw : List.length row = width)
    by (apply Hrows; eapply nth_error_In; exact Hrow).
  destruct (Nat.ltb j (List.length row)) eqn:E; [|reflexivity].
  apply Nat.ltb_lt in E. lia.
Qed.

(** A sequence of writes that ends leaves the shape and, in every cell, the
    letter written there last. *)
Lemma writes_Ok (ws : list (nat * nat * option ascii)) :
  forall g g', has_shape height width g -> foldM put ws g = Ok g' ->
  has_shape height width g' /\
  (forall p, cell_at g' p = last_write ws p (cell_at g p)) /\
  (forall w, In w ws ->
     fst (fst w) < height /\ snd (fst w) < width /\ snd w <> None).
Proof.
  induction ws as [|[[i j] oc] ws IH]; intros g g' Hg H; simpl in H.
  - injection H as <-. split; [exact Hg|]. split; [reflexivity|]. intros w [].
  - inv_bind H as g1 Hput. unfold put in Hput; simpl in Hput.
    destruct oc as [c|]; [|discriminate].
    destruct (Nat.lt_ge_cases i height) as [Hi|Hi];
      [destruct (Nat.lt_ge_cases j width) as [Hj|Hj]|].
    + destruct (set_cell_inside g i j c Hg Hi Hj) as (g1' & E & Hg1 & Hcell).
      rewrite E in Hput; injection Hput as <-.
      destruct (IH _ _ Hg1 H) as (Hg' & Hcont & Hin).
      split; [exact Hg'|]. split.
      * intros p. rewrite Hcont, Hcell. unfold last_write; simpl. reflexivity.
      * intros w [<-|Hw]; [simpl; repeat split; auto; discriminate | auto].
    + rewrite set_cell_outside in Hput by (auto; lia). discriminate.
    + rewrite set_cell_outside in Hput by (auto; lia). discriminate.
Qed.

Lemma writes_inside (ws : list (nat * nat * option ascii)) :
  forall g, has_shape height width g ->
  (forall w, In w ws ->
     fst (fst w) < height /\ snd (fst w) < width /\ snd w <> None) ->
  exists g', foldM put ws g = Ok g'.
Proof.
  induction ws as [|[[i j] oc] ws IH]; intros g Hg Hin; simpl; [eauto|].
  destruct (Hin _ (or_introl eq_refl)) as (Hi & Hj & Hoc); simpl in *.
  destruct oc as [c|]; [|congruence].
  destruct (set_cell_inside g i j c Hg Hi Hj) as (g1 & E & Hg1 & _).
  unfold put at 1; simpl. rewrite E; simpl.
  apply IH; [exact Hg1|]. intros w Hw; apply Hin; right; exact Hw.
Qed.

Lemma writes_raise (ws : list (nat * nat * option ascii)) :
  forall g e, has_shape height width g -> foldM put ws g = Raise e ->
  e = IndexError.
Proof.
  induction ws as [|[[i j] oc] ws IH]; intros g e Hg H; simpl in H;
    [discriminate|].
  unfold put at 1 in H; simpl in H.
  destruct oc as [c|]; [|simpl in H; congruence].
  destruct (Nat.lt_ge_cases i height) as [Hi|Hi];
    [destruct (Nat.lt_ge_cases j width) as [Hj|Hj]|].
  - destruct (set_cell_inside g i j c Hg Hi Hj) as (g1 & E & Hg1 & _).
    rewrite E in H; simpl in H. exact (IH _ _ Hg1 H).
  - rewrite set_cell_outside in H by (auto; lia). simpl in H; congruence.
  - rewrite set_cell_outside in H by (auto; lia). simpl in H; congruence.
Qed.

End GridFacts.

Lemma put_not_OutOfFuel (ws : list (nat * nat * option ascii)) :
  forall g, foldM put ws g <> OutOfFuel.
Proof.
  apply foldM_not_OutOfFuel. intros g [[i j] [c|]]; unfold put, set_cell; simpl;
    [|discriminate].
  destruct (nth_error g i); [|discriminate].
  destruct (Nat.ltb j (List.length l)); discriminate.
Qed.

(** [letter_grid] is the sequence of its writes. *)
Lemma letter_grid_writes (height width : nat) (a : assignment) :
  letter_grid height width a = foldM put (writes a) (blank_grid height width).
Proof.
  unfold letter_grid, writes. rewrite <- foldM_flat_map.
  apply foldM_ext. intros g [x word] _. unfold write_word, word_writes; simpl.
  rewrite foldM_map. apply foldM_ext. intros g0 k _.
  unfold write_letter, put, index; simpl.
  destruct (String.get k word); reflexivity.
Qed.

Lemma In_writes (a : assignment) (w : nat * nat * option ascii) :
  In w (writes a) <->
  exists x word k,
    In (x, word) a /\ k < String.length word /\
    w = (cell x k, String.get k word).
Proof.
  unfold writes, word_writes. rewrite in_flat_map. split.
  - intros ([x word] & Hin & Hw). apply in_map_iff in Hw.
    destruct Hw as (k & <- & Hk). apply in_seq in Hk.
    simpl in Hk. exists x, word, k. simpl. split; [exact Hin|].
    split; [lia|reflexivity].
  - intros (x & word & k & Hin & Hk & ->). exists (x, word).
    split; [exact Hin|]. apply in_map_iff. exists k.
    split; [reflexivity|]. apply in_seq. simpl. lia.
Qed.

Lemma last_write_cases (ws : list (nat * nat * option ascii)) (p : nat * nat) :
  forall b,
  (last_write ws p b = b /\ forall w, In w ws -> fst w <> p) \/
  (exists w, In w ws /\ fst w = p /\ last_write ws p b = snd w).
Proof.
  unfold last_write.
  induction ws as [|w0 ws IH]; intros b; simpl; [left; split; [reflexivity|tauto]|].
  destruct (IH (if cell_eq_dec (fst w0) p then snd w0 else b))
    as [[Hres Hnone]|(w & Hin & Hp & Hres)].
  - destruct (cell_eq_dec (fst w0) p) as [E|Hne].
    + right. exists w0. auto.
    + left. split; [exact Hres|]. intros w [<-|Hw]; auto.
  - right. exists w. auto.
Qed.

(** The letters of a slot lie in different cells. *)
Lemma cell_inj (x : Var) (k k' : nat) : cell x k = cell x k' -> k = k'.
Proof.
  unfold cell. destruct (var_direction x); intros H; injection H; lia.
Qed.

Lemma last_write_app (ws1 ws2 : list (nat * nat * option ascii))
  (p : nat * nat) (b : option ascii) :
  last_write (ws1 ++ ws2) p b = last_write ws2 p (last_write ws1 p b).
Proof. unfold last_write. apply fold_left_app. Qed.

Lemma last_write_none (ws : list (nat * nat * option ascii)) (p : nat * nat)
  (b : option ascii) :
  (forall w, In w ws -> fst w <> p) -> last_write ws p b = b.
Proof.
  intros Hnone. destruct (last_write_cases ws p b) as [[E _]|(w & Hin & Hp & _)];
    [exact E|]. destruct (Hnone w Hin Hp).
Qed.

Lemma writes_app (a1 a2 : assignment) : writes (a1 ++ a2) = writes a1 ++ writes a2.
Proof. unfold writes. apply flat_map_app. Qed.

(** What a run of [letter_grid] that ends has done. *)
Lemma letter_grid_content (height width : nat) (a : assignment)
  (g : letters_grid) :
  letter_grid height width a = Ok g ->
  has_shape height width g /\
  (forall p, cell_at g p = last_write (writes a) p None) /\
  (forall x word k, In (x, word) a -> k < String.length word ->
     fst (cell x k) < height /\ snd (cell x k) < width).
Proof.
  rewrite letter_grid_writes. intros H.
  destruct (writes_Ok height width _ _ _ (blank_grid_shape height width) H)
    as (Hshape & Hcont & Hin).
  split; [exact Hshape|]. split.
  - intros p. rewrite Hcont, blank_grid_cell. reflexivity.
  - intros x word k Hx Hk.
    destruct (Hin (cell x k, String.get k word)) as (Hi & Hj & _); [|auto].
    apply In_writes. exists x, word, k. auto.
Qed.

Lemma letter_grid_inside (height width : nat) (a : assignment) :
  (forall x word k, In (x, word) a -> k < String.length word ->
     fst (cell x k) < height /\ snd (cell x k) < width) ->
  exists g, letter_grid height width a = Ok g.
Proof.
  intros Hin. rewrite letter_grid_writes.
  apply (writes_inside height width); [apply blank_grid_shape|].
  intros w Hw. apply In_writes in Hw.
  destruct Hw as (x & word & k & Hx & Hk & ->). simpl.
  destruct (Hin x word k Hx Hk) as [Hi Hj].
  destruct (get_in_range word k Hk) as [c Hc]. rewrite Hc.
  repeat split; auto; discriminate.
Qed.

(** Where the letters written to a shared cell agree, every word is read
    back from the array. *)
Lemma letter_grid_agreeing (height width : nat) (a : assignment)
  (g : letters_grid) :
  letter_grid height width a = Ok g ->
  (forall x wx kx y wy ky,
     In (x, wx) a -> In (y, wy) a ->
     kx < String.length wx -> ky < String.length wy ->
     cell x kx = cell y ky -> String.get kx wx = String.get ky wy) ->
  forall x word k, In (x, word) a -> k < String.length word ->
    cell_at g (cell x k) = String.get k word.
Proof.
  intros H Hagree x word k Hx Hk.
  destruct (letter_grid_content _ _ _ _ H) as (_ & Hcont & _).
  rewrite Hcont.
  destruct (last_write_cases (writes a) (cell x k) None)
    as [[_ Hnone]|(w & Hin & Hp & ->)].
  - destruct (Hnone (cell x k, String.get k word)); [|reflexivity].
    apply In_writes. exists x, word, k. auto.
  - apply In_writes in Hin. destruct Hin as (y & wy & ky & Hy & Hky & ->).
    simpl in *. symmetry. apply (Hagree x word k y wy ky); auto.
Qed.

(** X25 ([letter_grid], bounds).  [letter_grid] returns an array, of [height]
    rows of [width] cells, exactly when every letter of every entry of the
    dictionary falls inside the array; otherwise it raises [IndexError]. *)
Theorem letter_grid_bounds (height width : nat) (a : assignment) :
  ((exists g, letter_grid height width a = Ok g) <->
   (forall x word k, In (x, word) a -> k < String.length word ->
      fst (cell x k) < height /\ snd (cell x k) < width)) /\
  (forall g, letter_grid height width a = Ok g -> has_shape height width g) /\
  ((forall g, letter_grid height width a <> Ok g) ->
   letter_grid height width a = Raise IndexError).
Proof.
  split; [|split].
  - split; [|apply letter_grid_inside].
    intros [g H]. exact (proj2 (proj2 (letter_grid_content _ _ _ _ H))).
  - intros g H. exact (proj1 (letter_grid_content _ _ _ _ H)).
  - intros Hno. destruct (letter_grid height width a) as [g|e|] eqn:E.
    + destruct (Hno g eq_refl).
    + rewrite letter_grid_writes in E.
      apply (writes_raise height width) in E; [|apply blank_grid_shape].
      congruence.
    + rewrite letter_grid_writes in E. destruct (put_not_OutOfFuel _ _ E).
Qed.

(** X26 ([letter_grid], the cells).  In the array returned, a cell that no
    entry covers holds [None], and a cell covered by an entry holds the
    letter of that entry unless an entry later in the dictionary covers the
    cell too: the last entry written wins. *)
Theorem letter_grid_cells (height width : nat) (a : assignment)
  (g : letters_grid) :
  letter_grid height width a = Ok g ->
  (forall p,
     (forall x word k, In (x, word) a -> k < String.length word ->
        cell x k <> p) ->
     cell_at g p = None) /\
  (forall a1 x word a2 k c,
     a = a1 ++ (x, word) :: a2 ->
     String.get k word = Some c ->
     (forall y wy ky, In (y, wy) a2 -> ky < String.length wy ->
        cell y ky <> cell x k) ->
     cell_at g (cell x k) = Some c).
Proof.
  intros H. destruct (letter_grid_content _ _ _ _ H) as (_ & Hcont & _).
  split.
  - intros p Hnone. rewrite Hcont. apply last_write_none.
    intros w Hw. apply In_writes in Hw.
    destruct Hw as (x & word & k & Hx & Hk & ->). simpl.
    exact (Hnone x word k Hx Hk).
  - intros a1 x word a2 k c -> Hc Hlater. rewrite Hcont.
    change ((x, word) :: a2) with ([(x, word)] ++ a2).
    rewrite !writes_app, !last_write_app.
    rewrite (last_write_none (writes a2)).
    + unfold writes at 1; simpl. rewrite app_nil_r.
      pose proof (get_Some_lt _ _ _ Hc) as Hk.
      destruct (last_write_cases (word_writes (x, word)) (cell x k)
                  (last_write (writes a1) (cell x k) None))
        as [[_ Hnone]|(w & Hin & Hp & ->)].
      * destruct (Hnone (cell x k, String.get k word)); [|reflexivity].
        unfold word_writes. apply in_map_iff. exists k.
        split; [reflexivity|]. apply in_seq. simpl. lia.
      * unfold word_writes in Hin. apply in_map_iff in Hin.
        destruct Hin as (k' & <- & _). simpl in *.
        apply cell_inj in Hp. subst k'. exact Hc.
    + intros w Hw. apply In_writes in Hw.
      destruct Hw as (y & wy & ky & Hy & Hky & ->). simpl.
      exact (Hlater y wy ky Hy Hky).
Qed.

Lemma letter_grid_cells_witness :
  (forall p,
     (forall x word k,
        In (x, word) [(slot_top, "AB"); (slot_mid, "CDE")] ->
        k < String.length word -> cell x k <> p) ->
     cell_at [[Some "A"%char; Some "C"%char; None];
              [None; Some "D"%char; None];
              [None; Some "E"%char; None]] p = None) /\
  (forall a1 x word a2 k c,
     [(slot_top, "AB"); (slot_mid, "CDE")] = a1 ++ (x, word) :: a2 ->
     String.get k word = Some c ->
     (forall y wy ky, In (y, wy) a2 -> ky < String.length wy ->
        cell y ky <> cell x k) ->
     cell_at [[Some "A"%char; Some "C"%char; None];
              [None; Some "D"%char; None];
              [None; Some "E"%char; None]] (cell x k) = Some c).
Proof.
  apply (letter_grid_cells 3 3 [(slot_top, "AB"); (slot_mid, "CDE")]).
  vm_compute. reflexivity.
Defined.

(** X27 ([letter_grid], reading the words back).  When the entries of the
    dictionary agree on the letter of every cell two of them cover, reading
    the array returned along a slot gives back the word of the slot, letter
    by letter. *)
Theorem letter_grid_reads_back (height width : nat) (a : assignment)
  (g : letters_grid) :
  letter_grid height width a = Ok g ->
  (forall x wx kx y wy ky,
     In (x, wx) a -> In (y, wy) a ->
     kx < String.length wx -> ky < String.length wy ->
     cell x kx = cell y ky -> String.get kx wx = String.get ky wy) ->
  forall x word k, In (x, word) a -> k < String.length word ->
    cell_at g (cell x k) = String.get k word.
Proof. exact (letter_grid_agreeing height width a g). Qed.

Lemma letter_grid_reads_back_witness :
  letter_grid 3 3 [(slot_top, "AB"); (slot_bot, "BA"); (slot_mid, "BAB")]
  = Ok [[Some "A"%char; Some "B"%char; None];
        [None; Some "A"%char; None];
        [None; Some "B"%char; Some "A"%char]] /\
  forall x word k,
    In (x, word) [(slot_top, "AB"); (slot_bot, "BA"); (slot_mid, "BAB")] ->
    k < String.length word ->
    cell_at [[Some "A"%char; Some "B"%char; None];
             [None; Some "A"%char; None];
             [None; Some "B"%char; Some "A"%char]] (cell x k)
    = String.get k word.
Proof.
  split; [vm_compute; reflexivity|].
  apply (letter_grid_reads_back 3 3
           [(slot_top, "AB"); (slot_bot, "BA"); (slot_mid, "BAB")]).
  - vm_compute. reflexivity.
  - intros x wx kx y wy ky Hx Hy Hkx Hky Hc. simpl in Hx, Hy.
    destruct Hx as [Hx|[Hx|[Hx|[]]]]; injection Hx as <- <-;
      destruct Hy as [Hy|[Hy|[Hy|[]]]]; injection Hy as <- <-;
      simpl in Hkx, Hky;
      destruct kx as [|[|[|kx]]]; try lia;
      destruct ky as [|[|[|ky]]]; try lia;
      vm_compute in Hc; try discriminate Hc; reflexivity.
Defined.

(** The words of a solution agree on every shared cell, when the overlap
    descriptors of the graph are those of the geometry. *)
Lemma satisfying_agrees (cw : Crossword) (a : assignment) :
  satisfying cw a ->
  NoDup (Dict.keys a) ->
  (forall x, In x (Dict.keys a) -> In x (variables cw)) ->
  (forall x y kx ky,
     In x (variables cw) -> In y (variables cw) -> x <> y ->
     kx < var_length x -> ky < var_length y ->
     cell x kx = cell y ky -> overlaps cw x y = Some (kx, ky)) ->
  forall x wx kx y wy ky,
    In (x, wx) a -> In (y, wy) a ->
    kx < String.length wx -> ky < String.length wy ->
    cell x kx = cell y ky -> String.get kx wx = String.get ky wy.
Proof.
  intros (Hall & Hagree & _) Hnd Hkeys Hgeo x wx kx y wy ky Hx Hy Hkx Hky Hc.
  pose proof (DictFacts.In_get_Some _ _ _ Hnd Hx) as Hgx.
  pose proof (DictFacts.In_get_Some _ _ _ Hnd Hy) as Hgy.
  pose proof (Hkeys x (DictFacts.get_Some_In_keys _ _ _ Hgx)) as Hvx.
  pose proof (Hkeys y (DictFacts.get_Some_In_keys _ _ _ Hgy)) as Hvy.
  destruct (Var_eq_dec x y) as [->|Hne].
  - apply cell_inj in Hc. congruence.
  - destruct (Hall x Hvx) as (wx' & Ex & _ & Hlx).
    destruct (Hall y Hvy) as (wy' & Ey & _ & Hly).
    rewrite Hgx in Ex; injection Ex as <-.
    rewrite Hgy in Ey; injection Ey as <-.
    assert (Hov : overlaps cw x y = Some (kx, ky))
      by (apply Hgeo; auto; lia).
    destruct (Hagree x y kx ky wx wy Hvx Hvy Hov Hgx Hgy) as (c & -> & ->).
    reflexivity.
Qed.

(** X28 ([solve] then [letter_grid]).  On a well-formed graph whose overlap
    descriptors are those of the geometry of the slots, all inside an array
    of [height] rows and [width] columns, [letter_grid] on a dictionary
    returned by [solve] returns an array of that shape, in which every slot
    reads, letter by letter, a word of its length: the word the dictionary
    gives it. *)
Theorem solve_renders (cw : Crossword) (height width : nat) (a : assignment) :
  well_formed cw ->
  (forall x y kx ky,
     In x (variables cw) -> In y (variables cw) -> x <> y ->
     kx < var_length x -> ky < var_length y ->
     cell x kx = cell y ky -> overlaps cw x y = Some (kx, ky)) ->
  (forall x k, In x (variables cw) -> k < var_length x ->
     fst (cell x k) < height /\ snd (cell x k) < width) ->
  solve cw (init_domains cw) = Ok (Some a) ->
  exists g,
    letter_grid height width a = Ok g /\ has_shape height width g /\
    forall x, In x (variables cw) ->
      exists word,
        Dict.get a x = Some word /\ String.length word = var_length x /\
        forall k, k < var_length x ->
          cell_at g (cell x k) = String.get k word.
Proof.
  intros Hwf Hgeo Hinside H.
  pose proof (solve_result_satisfying cw a Hwf H) as Hsat.
  destruct (solve_result_keys cw _ a H) as [Hkeys Hnd].
  assert (Hlen : forall x word, In (x, word) a ->
            In x (variables cw) /\ String.length word = var_length x).
  { intros x word Hx.
    pose proof (DictFacts.In_get_Some _ _ _ Hnd Hx) as Hg.
    assert (Hv : In x (variables cw))
      by (apply Hkeys; eapply DictFacts.get_Some_In_keys; exact Hg).
    split; [exact Hv|].
    destruct (proj1 Hsat x Hv) as (w' & E & _ & Hl). congruence. }
  destruct (letter_grid_inside height width a) as [g Hg].
  { intros x word k Hx Hk. destruct (Hlen x word Hx) as [Hv Hl].
    apply Hinside; [exact Hv|lia]. }
  exists g. split; [exact Hg|].
  split; [exact (proj1 (letter_grid_content _ _ _ _ Hg))|].
  intros x Hv. destruct (proj1 Hsat x Hv) as (word & E & _ & Hl).
  exists word. split; [exact E|]. split; [exact Hl|].
  intros k Hk.
  apply (letter_grid_agreeing height width a g Hg).
  - apply (satisfying_agrees cw a Hsat Hnd); [|exact Hgeo].
    intros y Hy. apply Hkeys. exact Hy.
  - apply DictFacts.get_Some_In. exact E.
  - lia.
Qed.

Lemma solve_renders_witness :
  exists g,
    letter_grid 3 3 [(slot_top, "AB"); (slot_bot, "BA"); (slot_mid, "BAB")]
      = Ok g /\
    has_shape 3 3 g /\
    forall x, In x [slot_top; slot_mid; slot_bot] ->
      exists word,
        Dict.get [(slot_top, "AB"); (slot_bot, "BA"); (slot_mid, "BAB")] x
          = Some word /\
        String.length word = var_length x /\
        forall k, k < var_length x ->
          cell_at g (cell x k) = String.get k word.
Proof.
  apply (solve_renders (zigzag [slot_top; slot_mid; slot_bot] tie_vocabulary)
           3 3).
  - apply well_formedb_sound; reflexivity.
  - intros x y kx ky Hx Hy Hne Hkx Hky Hc. simpl in Hx, Hy.
    destruct Hx as [<-|[<-|[<-|[]]]]; destruct Hy as [<-|[<-|[<-|[]]]];
      try congruence; simpl in Hkx, Hky;
      destruct kx as [|[|[|kx]]]; try lia;
      destruct ky as [|[|[|ky]]]; try lia;
      vm_compute in Hc; try discriminate Hc; reflexivity.
  - intros x k Hx Hk. simpl in Hx.
    destruct Hx as [<-|[<-|[<-|[]]]]; simpl in Hk;
      destruct k as [|[|[|k]]]; try lia; vm_compute; split; lia.
  - vm_compute. reflexivity.
Defined.

(** ** The search on graphs of at most two slots *)

Lemma set_set {V : Type} (d : Dict.t V) (k : Var) (v w : V) :
  Dict.set (Dict.set d k v) k w = Dict.set d k w.
Proof.
  induction d as [|[k' v'] d IH]; simpl.
  - destruct (Var_eq_dec k k); [reflexivity|congruence].
  - destruct (Var_eq_dec k k') as [->|Hne]; simpl.
    + destruct (Var_eq_dec k' k'); [reflexivity|congruence].
    + destruct (Var_eq_dec k k'); [congruence|]. rewrite IH. reflexivity.
Qed.

Lemma In_set {V : Type} (d : Dict.t V) (k x : Var) (v w : V) :
  In (x, w) (Dict.set d k v) -> (x = k /\ w = v) \/ In (x, w) d.
Proof.
  induction d as [|[k' v'] d IH]; simpl.
  - intros [H|[]]. injection H as <- <-. auto.
  - destruct (Var_eq_dec k k') as [->|Hne]; simpl.
    + intros [H|H]; [injection H as <- <-; auto | auto].
    + intros [H|H]; [auto|]. destruct (IH H); auto.
Qed.

Lemma NoDup_values (a : assignment) :
  NoDup (Dict.keys a) ->
  (forall x y w, In (x, w) a -> In (y, w) a -> x = y) ->
  NoDup (Dict.values a).
Proof.
  induction a as [|[k v] a IH]; simpl; intros Hnd Hinj; [constructor|].
  inversion Hnd as [|? ? Hnotin Hnd']; subst. constructor.
  - intros Hin. unfold Dict.values in Hin. apply in_map_iff in Hin.
    destruct Hin as ([k' v'] & E & Hin); simpl in E; subst v'.
    assert (k' = k) by (apply (Hinj k' k v); auto). subst k'.
    apply Hnotin. unfold Dict.keys. apply in_map_iff. exists (k, v). auto.
  - apply IH; [exact Hnd'|]. intros x y w Hx Hy. apply (Hinj x y w); auto.
Qed.

Section SmallSearch.
Variable cw : Crossword.
Hypothesis Hwf : well_formed cw.
Variable d : domains.
Hypothesis Hcov : covers cw d.
Hypothesis Hnc : node_consistent cw d.

Lemma domain_length (x : Var) (w : string) :
  In x (variables cw) -> In w (domain_of d x) ->
  String.length w = var_length x.
Proof.
  unfold domain_of. intros Hx Hin.
  destruct (Dict.get d x) as [ws|] eqn:E; [|destruct Hin].
  exact (Hnc x ws w Hx E Hin).
Qed.

Lemma domain_word_truthy (a : assignment) (x : Var) (w : string) :
  In x (variables cw) -> In w (domain_of d x) ->
  truthy (Dict.get (Dict.set a x w) x) = true.
Proof.
  intros Hx Hin. rewrite get_set_eq.
  pose proof (domain_length x w Hx Hin) as Hl.
  pose proof (wf_length cw Hwf x Hx) as Hp.
  destruct w; simpl in *; [lia|reflexivity].
Qed.

Lemma sized_set (a : assignment) (x : Var) (w : string) :
  sized cw a -> In x (variables cw) -> In w (domain_of d x) ->
  sized cw (Dict.set a x w).
Proof.
  intros Ha Hx Hin y u Hy. apply In_set in Hy.
  destruct Hy as [[-> ->]|Hy]; [|exact (Ha y u Hy)].
  split; [exact Hx | exact (domain_length x w Hx Hin)].
Qed.

(** [order_domain_values] returns the domain of a slot of the graph, in some
    order. *)
Lemma order_total (var : Var) (a : assignment) :
  In var (variables cw) ->
  exists vals,
    order_domain_values cw d var a = Ok vals /\
    forall v, In v vals <-> In v (domain_of d var).
Proof.
  intros Hvar. unfold order_domain_values.
  destruct (Dict.get d var) as [ws|] eqn:Hget; [|destruct (Hcov var Hvar Hget)].
  destruct (mapM_total (least_constraning cw d var) ws) as [ks Hks].
  { intros value Hvalue. eexists. apply least_constraning_score.
    intros z Hz.
    destruct (proj1 (wf_neighbors cw Hwf var z Hvar) Hz) as [Hzv Hov].
    destruct (overlaps cw var z) as [[i j]|] eqn:E; [|congruence].
    destruct (Dict.get d z) as [wz|] eqn:Hgz; [|destruct (Hcov z Hzv Hgz)].
    destruct (wf_index cw Hwf var z i j Hvar Hzv E) as [Hi Hj].
    exists i, j, wz. split; [reflexivity|]. split; [reflexivity|].
    split.
    - rewrite (Hnc var ws value Hvar Hget Hvalue). exact Hi.
    - intros w Hw. rewrite (Hnc z wz w Hzv Hgz Hw). exact Hj. }
  assert (E : order_domain_values cw d var a
              = Ok (map snd (sorted Nat.leb (combine ks ws)))).
  { unfold order_domain_values, lookup. rewrite Hget; simpl.
    rewrite Hks; reflexivity. }
  eexists. split.
  - unfold lookup. rewrite Hget; simpl. rewrite Hks; simpl. reflexivity.
  - destruct (order_domain_values_In cw d var a _ E) as (ws' & Hws' & Hin).
    unfold domain_of. rewrite Hget. rewrite Hget in Hws'.
    injection Hws' as <-. exact Hin.
Qed.

(** [consistent] raises nothing on entries of the right lengths. *)
Lemma check_neighbors_total (a : assignment) (key : Var) (value : string)
  (ns : list Var) :
  sized cw a -> In key (variables cw) ->
  String.length value = var_length key ->
  exists b, check_neighbors cw a key value ns = Ok b.
Proof.
  intros Ha Hkey Hlen. induction ns as [|n ns IH]; simpl; [eauto|].
  destruct (overlaps cw key n) as [[i j]|] eqn:Hov; [|exact IH].
  destruct (Dict.get a n) as [[|c w]|] eqn:Hget; simpl; try exact IH.
  destruct (Ha n (String c w) (get_Some_In _ _ _ Hget)) as [Hn Hl].
  destruct (wf_index cw Hwf key n i j Hkey Hn Hov) as [Hi Hj].
  destruct (index_in_range value i) as (c1 & E1 & _); [lia|].
  destruct (index_in_range (String c w) j) as (c2 & E2 & _); [lia|].
  rewrite E1; simpl. rewrite E2; simpl.
  destruct (Ascii.eqb c1 c2); [exact IH | eauto].
Qed.

Lemma consistent_total (a : assignment) :
  sized cw a -> exists b, consistent cw a = Ok b.
Proof.
  intros Ha. unfold consistent.
  assert (G : forall todo items, incl todo a ->
            exists b, consistent_loop cw a todo items = Ok b).
  { induction todo as [|[key value] todo IH]; intros items Hincl; simpl;
      [eauto|].
    destruct (Ha key value (Hincl _ (or_introl eq_refl))) as [Hkey Hlen].
    rewrite (proj2 (Nat.eqb_eq _ _) Hlen).
    destruct (check_neighbors_total a key value (neighbors cw key)
                Ha Hkey Hlen) as [b Hb].
    rewrite Hb; simpl. destruct b; [|eauto].
    apply IH. intros e He. apply Hincl. right; exact He. }
  apply G. apply incl_refl.
Qed.

Section WithSolution.
Variable s : assignment.
Hypothesis Hsat : satisfying cw s.
Hypothesis Hwithin : forall x, In x (variables cw) ->
  exists w, Dict.get s x = Some w /\ In w (domain_of d x).

(** A part of a solution passes [consistent]. *)
Lemma consistent_part (a : assignment) :
  NoDup (Dict.keys a) -> sized cw a -> part_of s a ->
  consistent cw a = Ok true.
Proof.
  intros Hnd Ha Hpart. destruct Hsat as (Hall & Hagree & Hinj).
  unfold consistent. rewrite consistent_loop_passes.
  - rewrite NoDup_add_all_length; [simpl; rewrite Nat.eqb_refl; reflexivity
                                  | | intros v _ []].
    apply NoDup_values; [exact Hnd|]. intros x y w Hx Hy.
    apply (Hinj x y w);
      [exact (proj1 (Ha x w Hx)) | exact (proj1 (Ha y w Hy))
      | exact (Hpart x w Hx) | exact (Hpart y w Hy)].
  - intros key value Hin. destruct (Ha key value Hin) as [Hkey Hlen].
    split; [exact Hlen|].
    apply check_neighbors_passes. intros n i j w Hn Hov Hget _.
    pose proof (get_Some_In _ _ _ Hget) as Hinn.
    apply (Hagree key n i j value w);
      [exact Hkey | exact (proj1 (Ha n w Hinn)) | exact Hov
      | exact (Hpart key value Hin) | exact (Hpart n w Hinn)].
Qed.

Lemma part_of_set (a : assignment) (x : Var) (w : string) :
  part_of s a -> Dict.get s x = Some w -> part_of s (Dict.set a x w).
Proof.
  intros Hpart Hx y u Hy. apply In_set in Hy.
  destruct Hy as [[-> ->]|Hy]; [exact Hx | exact (Hpart y u Hy)].
Qed.

End WithSolution.

(** One open slot: the loop returns the dictionary with the first word of
    the domain that passes [consistent], or leaves the dictionary as it
    was. *)
Lemma try_last (fuel : nat) (a : assignment) (q : Var) :
  sized cw a -> In q (variables cw) ->
  (forall x, In x (variables cw) -> x <> q ->
     truthy (Dict.get a x) = true) ->
  forall vals, (forall v, In v vals -> In v (domain_of d q)) ->
  (try_values cw (backtrack cw d (S fuel)) q vals a = Ok (Failure a) /\
   forall v, In v vals -> consistent cw (Dict.set a q v) = Ok false) \/
  (exists v, try_values cw (backtrack cw d (S fuel)) q vals a
             = Ok (Solution (Dict.set a q v))).
Proof.
  intros Ha Hq Hothers.
  induction vals as [|v vals IH]; intros Hvals.
  - left. split; [reflexivity | intros v []].
  - cbn [try_values].
    assert (Hv : In v (domain_of d q)) by (apply Hvals; left; reflexivity).
    destruct (consistent_total _ (sized_set a q v Ha Hq Hv)) as [b Hb].
    rewrite Hb; cbn [bind]. destruct b.
    + right. exists v.
      assert (Hc : assignment_complete cw (Dict.set a q v) = true).
      { unfold assignment_complete. apply forallb_forall. intros x Hx.
        destruct (Var_eq_dec x q) as [->|Hne].
        - apply domain_word_truthy; assumption.
        - rewrite get_set_ne by congruence. auto. }
      cbn [backtrack]. rewrite Hc; cbn [bind].
      destruct (Dict.set a q v) eqn:E; [destruct (set_nonempty _ _ _ E)|].
      reflexivity.
    + destruct IH as [[Hf Hall]|[v' Hs]];
        [intros u Hu; apply Hvals; right; exact Hu | |].
      * left. split; [exact Hf|]. intros u [<-|Hu]; auto.
      * right. exists v'. exact Hs.
Qed.

Lemma backtrack_last (fuel : nat) (a : assignment) (q : Var) :
  sized cw a -> In q (variables cw) -> Dict.get a q = None ->
  (forall x, In x (variables cw) -> x <> q ->
     truthy (Dict.get a x) = true) ->
  (backtrack cw d (S (S fuel)) a = Ok (Failure a) /\
   forall v, In v (domain_of d q) ->
     consistent cw (Dict.set a q v) = Ok false) \/
  (exists v, backtrack cw d (S (S fuel)) a = Ok (Solution (Dict.set a q v))).
Proof.
  intros Ha Hq Hnone Hothers.
  assert (Hu : unassigned a q) by (left; exact Hnone).
  assert (Hc : assignment_complete cw a = false).
  { apply assignment_complete_false. exists q. auto. }
  destruct (select_total cw d a Hcov) as [r Hr].
  assert (r = Some q).
  { destruct r as [var|].
    - destruct (select_some cw d a var Hr) as (Hvar & Hvu & _).
      destruct (Var_eq_dec var q) as [->|Hne]; [reflexivity|].
      apply truthy_false in Hvu. rewrite (Hothers var Hvar Hne) in Hvu.
      discriminate.
    - apply select_none in Hr. congruence. }
  subst r.
  destruct (order_total q a Hq) as (vals & Hvals & Hin).
  change (backtrack cw d (S (S fuel)) a)
    with (if assignment_complete cw a then Ok (Solution a)
          else
            selected <- select_unassigned_variable cw d a ;;
            match selected with
            | Some var =>
                vals <- order_domain_values cw d var a ;;
                try_values cw (backtrack cw d (S fuel)) var vals a
            | None => Raise KeyError
            end).
  rewrite Hc, Hr; cbn [bind]. rewrite Hvals; cbn [bind].
  destruct (try_last fuel a q Ha Hq Hothers vals (fun v Hv => proj1 (Hin v) Hv))
    as [[Hf Hall]|[v Hs]].
  - left. split; [exact Hf|]. intros v Hv. apply Hall. apply Hin. exact Hv.
  - right. exists v. exact Hs.
Qed.

Section TwoOpen.
Variable s : assignment.
Hypothesis Hsat : satisfying cw s.
Hypothesis Hwithin : forall x, In x (variables cw) ->
  exists w, Dict.get s x = Some w /\ In w (domain_of d x).
Variable a : assignment.
Hypothesis Hnd : NoDup (Dict.keys a).
Hypothesis Ha : sized cw a.
Hypothesis Hpart : part_of s a.

(** One open slot and a solution that extends the dictionary: the search
    succeeds. *)
Lemma backtrack_last_complete (fuel : nat) (q : Var) :
  In q (variables cw) -> Dict.get a q = None ->
  (forall x, In x (variables cw) -> x <> q ->
     truthy (Dict.get a x) = true) ->
  exists s', backtrack cw d (S (S fuel)) a = Ok (Solution s').
Proof.
  intros Hq Hnone Hothers.
  destruct (backtrack_last fuel a q Ha Hq Hnone Hothers)
    as [[_ Hall]|[v Hs]]; [|eauto].
  destruct (Hwithin q Hq) as (u & Hsu & Hu).
  pose proof (Hall u Hu) as Hfalse.
  rewrite (consistent_part s Hsat (Dict.set a q u)) in Hfalse;
    [discriminate | apply NoDup_keys_set; exact Hnd
    | apply sized_set; assumption | apply part_of_set; assumption].
Qed.

(** Two open slots, the loop over the words of the first: the dictionary is
    the one given or has the empty string at the slot; either way the
    dictionary tested is the one given with the word at the slot. *)
Lemma try_first_of_two (fuel : nat) (p q : Var) (vp : string) :
  In p (variables cw) -> In q (variables cw) -> p <> q ->
  Dict.get a p = None -> Dict.get a q = None ->
  (forall x, In x (variables cw) -> x <> p -> x <> q ->
     truthy (Dict.get a x) = true) ->
  Dict.get s p = Some vp ->
  forall vals, (forall v, In v vals -> In v (domain_of d p)) ->
  forall cur, cur = a \/ cur = Dict.set a p "" ->
  (exists s', try_values cw (backtrack cw d (S (S fuel))) p vals cur
              = Ok (Solution s')) \/
  ((exists a', try_values cw (backtrack cw d (S (S fuel))) p vals cur
               = Ok (Failure a')) /\ ~ In vp vals).
Proof.
  intros Hp Hq Hpq Hnp Hnq Hothers Hvp.
  induction vals as [|v vals IH]; intros Hvals cur Hcur.
  - right. split; [exists cur; reflexivity | intros []].
  - assert (Hv : In v (domain_of d p)) by (apply Hvals; left; reflexivity).
    assert (Et : Dict.set cur p v = Dict.set a p v).
    { destruct Hcur as [->| ->]; [reflexivity | apply set_set]. }
    assert (Hrest : forall u, In u vals -> In u (domain_of d p))
      by (intros u Hu; apply Hvals; right; exact Hu).
    cbn [try_values]. rewrite Et.
    pose proof (sized_set a p v Ha Hp Hv) as Hsz.
    destruct (consistent_total _ Hsz) as [b Hb].
    rewrite Hb; cbn [bind]. destruct b.
    + destruct (backtrack_last fuel (Dict.set a p v) q Hsz Hq)
        as [[Hf Hall]|[u Hs]].
      * rewrite get_set_ne by exact Hpq. exact Hnq.
      * intros x Hx Hxq. destruct (Var_eq_dec x p) as [->|Hxp].
        -- apply domain_word_truthy; assumption.
        -- rewrite get_set_ne by congruence. auto.
      * rewrite Hf; cbn [bind]. rewrite set_set.
        destruct (IH Hrest (Dict.set a p "") (or_intror eq_refl))
          as [Hs|[Hf' Hnot]]; [left; exact Hs|].
        right. split; [exact Hf'|]. intros [<-|Hin]; [|exact (Hnot Hin)].
        destruct (Hwithin q Hq) as (u & Hsu & Hu).
        pose proof (Hall u Hu) as Hfalse.
        rewrite (consistent_part s Hsat (Dict.set (Dict.set a p v) q u))
          in Hfalse;
          [discriminate
          | apply NoDup_keys_set; apply NoDup_keys_set; exact Hnd
          | apply sized_set; assumption
          | apply part_of_set; [apply part_of_set|]; assumption].
      * rewrite Hs; cbn [bind].
        destruct (Dict.set (Dict.set a p v) q u) eqn:E;
          [destruct (set_nonempty _ _ _ E)|].
        left. eexists. reflexivity.
    + destruct (IH Hrest cur Hcur) as [Hs|[Hf' Hnot]]; [left; exact Hs|].
      right. split; [exact Hf'|]. intros [<-|Hin]; [|exact (Hnot Hin)].
      rewrite (consistent_part s Hsat (Dict.set a p v)) in Hb;
        [discriminate | apply NoDup_keys_set; exact Hnd | exact Hsz
        | apply part_of_set; assumption].
Qed.

(** Two open slots and a solution that extends the dictionary: the search
    succeeds. *)
Lemma backtrack_two_complete (fuel : nat) (p q : Var) :
  In p (variables cw) -> In q (variables cw) -> p <> q ->
  Dict.get a p = None -> Dict.get a q = None ->
  (forall x, In x (variables cw) -> x <> p -> x <> q ->
     truthy (Dict.get a x) = true) ->
  exists s', backtrack cw d (S (S (S fuel))) a = Ok (Solution s').
Proof.
  intros Hp Hq Hpq Hnp Hnq Hothers.
  assert (Hc : assignment_complete cw a = false).
  { apply assignment_complete_false. exists p. split; [exact Hp|].
    left; exact Hnp. }
  destruct (select_total cw d a Hcov) as [r Hr].
  change (backtrack cw d (S (S (S fuel))) a)
    with (if assignment_complete cw a then Ok (Solution a)
          else
            selected <- select_unassigned_variable cw d a ;;
            match selected with
            | Some var =>
                vals <- order_domain_values cw d var a ;;
                try_values cw (backtrack cw d (S (S fuel))) var vals a
            | None => Raise KeyError
            end).
  rewrite Hc, Hr; cbn [bind].
  destruct r as [var|]; [|apply select_none in Hr; congruence].
  destruct (select_some cw d a var Hr) as (Hvar & Hvu & _).
  apply truthy_false in Hvu.
  destruct (order_total var a Hvar) as (vals & Hvals & Hin).
  rewrite Hvals; cbn [bind].
  destruct (Hwithin var Hvar) as (vp & Hsv & Hdv).
  assert (Hcase : var = p \/ var = q).
  { destruct (Var_eq_dec var p) as [->|H1]; [auto|].
    destruct (Var_eq_dec var q) as [->|H2]; [auto|].
    rewrite (Hothers var Hvar H1 H2) in Hvu. discriminate. }
  destruct Hcase as [-> | ->].
  - destruct (try_first_of_two fuel p q vp Hp Hq Hpq Hnp Hnq Hothers Hsv vals
                (fun v Hv => proj1 (Hin v) Hv) a (or_introl eq_refl))
      as [Hs|[_ Hnot]]; [exact Hs|].
    destruct Hnot. apply Hin. exact Hdv.
  - destruct (try_first_of_two fuel q p vp Hq Hp (not_eq_sym Hpq) Hnq Hnp
                (fun x Hx H1 H2 => Hothers x Hx H2 H1) Hsv vals
                (fun v Hv => proj1 (Hin v) Hv) a (or_introl eq_refl))
      as [Hs|[_ Hnot]]; [exact Hs|].
    destruct Hnot. apply Hin. exact Hdv.
Qed.

End TwoOpen.
End SmallSearch.

Lemma corner_solution_satisfying :
  satisfying (corner stuck_vocabulary) [(slot_top, "CD"); (slot_mid, "DIE")].
Proof.
  split; [|split].
  - intros x [<-|[<-|[]]]; eexists;
      (split; [reflexivity|]); (split; [simpl; tauto | reflexivity]).
  - intros x y i j wx wy [<-|[<-|[]]] [<-|[<-|[]]] Hov Hx Hy;
      vm_compute in Hov; try discriminate Hov;
      injection Hov as <- <-; injection Hx as <-; injection Hy as <-;
      eexists; split; reflexivity.
  - intros x y w [<-|[<-|[]]] [<-|[<-|[]]] Hx Hy; try reflexivity;
      vm_compute in Hx, Hy; congruence.
Qed.

(** X29 ([backtrack] with at most two open slots).  On a well-formed graph
    and a node-consistent store with a domain for every slot, [backtrack]
    returns a dictionary when it is given one that has no entry for at most
    two slots, a non-empty word of the right length for every other slot,
    and that is part of a solution made of words of the domains: the words
    that [backtrack] clears on the way cannot hide that solution. *)
Theorem backtrack_two_open (cw : Crossword) (d : domains) (s a : assignment)
  (fuel : nat) (p q : Var) :
  well_formed cw -> covers cw d -> node_consistent cw d ->
  satisfying cw s ->
  (forall x, In x (variables cw) ->
     exists w, Dict.get s x = Some w /\ In w (domain_of d x)) ->
  NoDup (Dict.keys a) -> sized cw a -> part_of s a ->
  In p (variables cw) -> In q (variables cw) ->
  Dict.get a p = None -> Dict.get a q = None ->
  (forall x, In x (variables cw) -> x <> p -> x <> q ->
     truthy (Dict.get a x) = true) ->
  exists s', backtrack cw d (S (S (S fuel))) a = Ok (Solution s').
Proof.
  intros Hwf Hcov Hnc Hsat Hwithin Hnd Ha Hpart Hp Hq Hnp Hnq Hothers.
  destruct (Var_eq_dec p q) as [<-|Hpq].
  - apply (backtrack_last_complete cw Hwf d Hcov Hnc s Hsat Hwithin a
             Hnd Ha Hpart (S fuel) p Hp Hnp).
    intros x Hx Hne. apply Hothers; assumption.
  - exact (backtrack_two_complete cw Hwf d Hcov Hnc s Hsat Hwithin a
             Hnd Ha Hpart fuel p q Hp Hq Hpq Hnp Hnq Hothers).
Qed.

Lemma backtrack_two_open_witness :
  exists s',
    backtrack (corner stuck_vocabulary)
      [(slot_top, ["AB"; "CD"]);
       (slot_mid, ["BAA"; "BOA"; "BRA"; "DIE"; "DIG"])]
      3 []
    = Ok (Solution s').
Proof.
  apply (backtrack_two_open (corner stuck_vocabulary)
           [(slot_top, ["AB"; "CD"]);
            (slot_mid, ["BAA"; "BOA"; "BRA"; "DIE"; "DIG"])]
           [(slot_top, "CD"); (slot_mid, "DIE")] [] 0 slot_top slot_mid).
  - apply well_formedb_sound; reflexivity.
  - intros x [<-|[<-|[]]]; discriminate.
  - intros x ws w [<-|[<-|[]]] Hget Hin; injection Hget as <-; simpl in Hin;
      repeat (destruct Hin as [<-|Hin]; [reflexivity|]); destruct Hin.
  - exact corner_solution_satisfying.
  - intros x [<-|[<-|[]]]; eexists; (split; [reflexivity|]); simpl; tauto.
  - constructor.
  - intros x w [].
  - intros x w [].
  - simpl; tauto.
  - simpl; tauto.
  - reflexivity.
  - reflexivity.
  - intros x [<-|[<-|[]]]; congruence.
Defined.

(** X30 ([solve] on at most two slots).  On a well-formed graph with at most
    two slots, [solve] on the store of [__init__] returns a solution of the
    puzzle whenever the puzzle has one. *)
Theorem solve_complete_two_slots (cw : Crossword) (s : assignment) :
  well_formed cw -> List.length (variables cw) <= 2 -> satisfying cw s ->
  exists s', solve cw (init_domains cw) = Ok (Some s') /\ satisfying cw s'.
Proof.
  intros Hwf Hlen Hsat.
  cut (exists s', solve cw (init_domains cw) = Ok (Some s')).
  { intros [s' H]. exists s'. split; [exact H|].
    exact (solve_result_satisfying cw s' Hwf H). }
  destruct (propagation_keeps cw s Hwf Hsat) as (d1 & d2 & Hd1 & Hac & Hsol).
  pose proof (enforce_node_consistency_covers cw _ d1 Hd1) as Hcov1.
  destruct (enforce_node_consistency_spec cw (init_domains cw)
              (init_domains_covers cw)) as (d1' & Hd1' & _ & Hnc1).
  rewrite Hd1 in Hd1'. injection Hd1' as <-.
  pose proof (ac3_shrinks cw d1 None d2 true Hac) as Hs.
  pose proof (shrinks_covers cw d1 d2 Hs Hcov1) as Hcov.
  pose proof (shrinks_node_consistent cw d1 d2 Hs Hnc1) as Hnc.
  destruct Hsol as [Hwithin _].
  cut (exists s', backtrack cw d2 (S (List.length (variables cw))) []
                  = Ok (Solution s')).
  { intros [s' H]. exists s'. unfold solve. rewrite Hd1; cbn [bind].
    rewrite Hac; cbn [bind]. rewrite H. reflexivity. }
  assert (Hempty : sized cw [] /\ part_of s []).
  { split; intros x w []. }
  destruct Hempty as [Hsz Hpart].
  pose proof (wf_nodup cw Hwf) as Hnd.
  destruct (variables cw) as [|p [|q [|r l]]] eqn:Hvars.
  - exists []. simpl. unfold assignment_complete. rewrite Hvars. reflexivity.
  - rewrite <- Hvars in Hwithin.
    apply (backtrack_last_complete cw Hwf d2 Hcov Hnc s Hsat Hwithin []
             (NoDup_nil _) Hsz Hpart 0 p).
    + rewrite Hvars. left; reflexivity.
    + reflexivity.
    + intros x Hx Hne. rewrite Hvars in Hx. destruct Hx as [<-|[]]. congruence.
  - rewrite <- Hvars in Hwithin. inversion Hnd as [|? ? Hnotin _]; subst.
    apply (backtrack_two_complete cw Hwf d2 Hcov Hnc s Hsat Hwithin []
             (NoDup_nil _) Hsz Hpart 0 p q).
    + rewrite Hvars. left; reflexivity.
    + rewrite Hvars. right; left; reflexivity.
    + intros ->. apply Hnotin. left; reflexivity.
    + reflexivity.
    + reflexivity.
    + intros x Hx H1 H2. rewrite Hvars in Hx.
      destruct Hx as [<-|[<-|[]]]; congruence.
  - simpl in Hlen. lia.
Qed.

Lemma solve_complete_two_slots_witness :
  exists s',
    solve (corner stuck_vocabulary) (init_domains (corner stuck_vocabulary))
    = Ok (Some s') /\
    satisfying (corner stuck_vocabulary) s'.
Proof.
  apply (solve_complete_two_slots (corner stuck_vocabulary)
           [(slot_top, "CD"); (slot_mid, "DIE")]).
  - apply well_formedb_sound; reflexivity.
  - simpl. lia.
  - exact corner_solution_satisfying.
Defined.

(** ** The search from any store [__init__] may build *)

(** A dictionary returned by [solve] on a store of words of the vocabulary is
    a solution of the puzzle. *)
Lemma solve_result_satisfying_from (cw : Crossword) (d : domains)
  (a : assignment) :
  well_formed cw ->
  (forall x w, In x (variables cw) -> In w (domain_of d x) ->
     In w (words cw)) ->
  solve cw d = Ok (Some a) ->
  satisfying cw a.
Proof.
  intros Hwf Hvoc H.
  destruct (solve_stages cw _ a H) as (d1 & d2 & ok & Hd1 & Hac & Hb).
  destruct (backtrack_sound cw d2 _ [] a eq_refl Hb) as [Hcomplete Hcons].
  destruct (consistent_true cw a Hcons) as (Hlen & Hagree & Huniq).
  pose proof (proj1 (assignment_complete_true cw a) Hcomplete) as Hall.
  assert (Hfrom : from_store cw d2 a).
  { apply (backtrack_from_store cw d2 _ [] a Hb). intros x w E; discriminate. }
  split; [|split].
  - intros x Hx. destruct (Hall x Hx) as (w & Hget & Hne).
    exists w. split; [exact Hget|]. split; [|exact (Hlen x w Hget)].
    destruct (Hfrom x w) as [_ Hin].
    { unfold assigned_word. rewrite Hget. destruct w; congruence. }
    apply (shrinks_domain_of d1 d2 x w (ac3_shrinks cw _ _ _ _ Hac)) in Hin.
    apply (shrinks_domain_of _ d1 x w
             (proj1 (enforce_covers _ _ _ Hd1))) in Hin.
    exact (Hvoc x w Hx Hin).
  - intros x y i j wx wy Hx Hy Hov Hgx Hgy.
    destruct (Hall y Hy) as (w & Hget & Hne).
    rewrite Hgy in Hget; injection Hget as <-.
    apply (Hagree x y i j wx wy); auto.
    apply (wf_neighbors cw Hwf x y Hx). split; [exact Hy|congruence].
  - intros x y w _ _. apply Huniq.
Qed.

(** X1 ([__init__], the order of the copies).  [__init__] gives every slot a
    copy of the vocabulary, and a copy of a set need not iterate in the order
    of the set.  Whatever the order of each copy and of the keys, on a
    well-formed graph a dictionary that [solve] returns on the store is a
    solution of the puzzle: every slot has a word of the vocabulary of the
    length of the slot, the words agree at the overlaps, none is used
    twice. *)
Theorem init_store_solve (cw : Crossword) (d : domains) (a : assignment) :
  well_formed cw -> init_store cw d ->
  solve cw d = Ok (Some a) ->
  satisfying cw a.
Proof.
  intros Hwf [_ Hperm].
  apply (solve_result_satisfying_from cw d a Hwf).
  intros x w _ Hin. unfold domain_of in Hin.
  destruct (Dict.get d x) as [ws|] eqn:E; [|destruct Hin].
  exact (Permutation_in w (Hperm x ws E) Hin).
Qed.

Lemma init_store_solve_witness :
  solve (zigzag [slot_top; slot_mid; slot_bot] tie_vocabulary)
    [(slot_top, ["ABA"; "BAB"; "BA"; "AB"]);
     (slot_mid, ["AB"; "BA"; "BAB"; "ABA"]);
     (slot_bot, ["ABA"; "BAB"; "BA"; "AB"])]
  = Ok (Some [(slot_top, "BA"); (slot_bot, "AB"); (slot_mid, "ABA")]) /\
  satisfying (zigzag [slot_top; slot_mid; slot_bot] tie_vocabulary)
    [(slot_top, "BA"); (slot_bot, "AB"); (slot_mid, "ABA")].
Proof.
  split; [vm_compute; reflexivity|].
  apply (init_store_solve
           (zigzag [slot_top; slot_mid; slot_bot] tie_vocabulary)
           [(slot_top, ["ABA"; "BAB"; "BA"; "AB"]);
            (slot_mid, ["AB"; "BA"; "BAB"; "ABA"]);
            (slot_bot, ["ABA"; "BAB"; "BA"; "AB"])]).
  - apply well_formedb_sound; reflexivity.
  - split.
    + intros x. simpl. tauto.
    + intros x ws H. simpl in H.
      destruct (Var_eq_dec x slot_top);
        [injection H as <-;
         exact (Permutation_sym (Permutation_rev tie_vocabulary))|].
      destruct (Var_eq_dec x slot_mid);
        [injection H as <-; apply Permutation_refl|].
      destruct (Var_eq_dec x slot_bot); [|discriminate].
      injection H as <-.
      exact (Permutation_sym (Permutation_rev tie_vocabulary)).
  - vm_compute. reflexivity.
Defined.
